(** * AI Note Cleaner: the Markdown-to-plain-text renderer and the <pre> wrapper

    A shallow embedding of [markdown_to_plain_text] and
    [to_html_preserving_newlines] of [ai_note_cleaner/cli.py].

    Python strings are sequences of Unicode code points: a [str] is a list of
    code points, each an [N].  The BeautifulSoup tree is an inductive type with
    element nodes and text leaves.

    Steps 3 to 5 of [markdown_to_plain_text] are loops that change the tree in
    place.  [Dom] has them as the source runs them: a loop over the elements
    [find_all] returned, each BeautifulSoup call returning a value or the
    exception it raises.  The same steps are also written as functions of the
    tree ([lists_to_bullets], [headings_to_underlined], [tables_to_tabulate]);
    [DomFacts.run_render] shows that the loops compute these functions, and
    the properties of the rendered text are proved on them.

    Three library functions are parameters of the renderer: the Markdown and
    HTML parsers in front of it, the upper-case mapping of the Unicode
    database behind [str.upper], and [tabulate].  [str.replace], [re.sub]
    for the two patterns of the source, [str.strip], [html.escape] and the
    tree queries of BeautifulSoup are written out.  The text the renderer
    returns is studied with the parsers and [tabulate] as functions; in
    [Raising] the calls to them return a value or the exception they
    raised, and so does [markdown_to_plain_text].

    The other functions of [cli.py] are in [Cli]: [run_applescript], the
    functions that list folders and notes, read and create a note, call the
    Perplexity command and ask for a number, and [main].  [subprocess.run],
    [console.print] and [input] are parameters there, as are [str.isdigit]
    and [int]. *)

From Stdlib Require Import List NArith ZArith Arith Bool Lia String Ascii.
From Stdlib Require Import DecimalString.
Import ListNotations.

Set Implicit Arguments.
Set Warnings "-register-all".
#[local] Open Scope list_scope.

(** ** Python [str] *)

Module Str.

Definition char := N.
Definition str := list char.

(** An ASCII literal as a [str]. *)
Definition lit (s : string) : str :=
  List.map N_of_ascii (list_ascii_of_string s).

Definition LF : char := 10%N.       (* "\n" *)
Definition ESC : char := 27%N.      (* "\x1b" *)
Definition SPACE : char := 32%N.
Definition DASH : char := 45%N.     (* "-" *)
Definition BULLET : char := 0x2022%N.   (* "•" *)
Definition BALLOT_BOX : char := 0x2610%N.        (* "☐" *)
Definition BALLOT_BOX_CHECK : char := 0x2611%N.  (* "☑" *)

Definition char_eqb (a b : char) : bool := N.eqb a b.
#[global] Arguments char_eqb : simpl never.

(** [s.startswith(p)] *)
Fixpoint startswith (p s : str) : bool :=
  match p, s with
  | [], _ => true
  | _ :: _, [] => false
  | a :: p', b :: s' => char_eqb a b && startswith p' s'
  end.

(** [s.endswith(p)] *)
Definition endswith (s p : str) : bool := startswith (rev p) (rev s).

(** [p in s]: [p] occurs in [s] as a substring. *)
Fixpoint contains (p s : str) : bool :=
  startswith p s ||
  match s with
  | [] => false
  | _ :: s' => contains p s'
  end.

(** [s.count(p)] for a one-character [p]. *)
Definition count_char (c : char) (s : str) : nat :=
  List.length (List.filter (char_eqb c) s).

(** The scanner behind [str.replace] and [re.sub]: [m] gives the length of
    the match that starts at the head of the remaining text, if there is one.
    A match is replaced by [repl] and scanning goes on after it; otherwise one
    character is copied.  [skip] counts the characters of a match still to be
    passed over.  Every pattern used here matches at least one character. *)
Fixpoint sub_from (m : str -> option nat) (repl : str) (skip : nat) (s : str)
  : str :=
  match s with
  | [] => []
  | c :: s' =>
      match skip with
      | S k => sub_from m repl k s'
      | O =>
          match m s with
          | Some (S n) => repl ++ sub_from m repl n s'
          | _ => c :: sub_from m repl 0 s'
          end
      end
  end.

Definition sub (m : str -> option nat) (repl s : str) : str :=
  sub_from m repl 0 s.
#[global] Arguments sub : simpl never.

Definition match_literal (old : str) (s : str) : option nat :=
  if startswith old s then Some (List.length old) else None.

(** [s.replace(old, new)]: every non-overlapping occurrence of [old], from
    the left.  With an empty [old] Python puts [new] around every
    character. *)
Definition replace (old new s : str) : str :=
  match old with
  | [] => new ++ flat_map (fun c => c :: new) s
  | _ :: _ => sub (match_literal old) new s
  end.

(** [Py_UNICODE_ISSPACE]: the characters [str.strip()] removes. *)
Definition isspace (c : char) : bool :=
  ((9 <=? c) && (c <=? 13) || (28 <=? c) && (c <=? 32)
   || (c =? 0x85) || (c =? 0xA0) || (c =? 0x1680)
   || (0x2000 <=? c) && (c <=? 0x200A)
   || (c =? 0x2028) || (c =? 0x2029) || (c =? 0x202F) || (c =? 0x205F)
   || (c =? 0x3000))%N.

Fixpoint lstrip (s : str) : str :=
  match s with
  | [] => []
  | c :: s' => if isspace c then lstrip s' else s
  end.

Definition rstrip (s : str) : str := rev (lstrip (rev s)).

(** [s.strip()] *)
Definition strip (s : str) : str := rstrip (lstrip s).

(** [sep.join(parts)] *)
Fixpoint join (sep : str) (parts : list str) : str :=
  match parts with
  | [] => []
  | [p] => p
  | p :: rest => p ++ sep ++ join sep rest
  end.

(** [c * n] for a character [c]. *)
Definition times (c : char) (n : nat) : str := repeat c n.

(** [str.upper()] maps every character through the full upper-case mapping
    of the Unicode database (one to three characters for each) and
    concatenates the results. *)
Definition upper (to_upper_full : char -> str) (s : str) : str :=
  flat_map to_upper_full s.

(** The full upper-case mapping on Basic Latin and Latin-1 Supplement
    (U+0000 to U+00FF), from UnicodeData.txt and SpecialCasing.txt:
    a-z, U+00B5 (micro sign, to U+039C), U+00DF (sharp s, to "SS"),
    U+00E0-U+00FE except the division sign U+00F7, and U+00FF (to U+0178).
    Code points above U+00FF are outside this table and are left as they
    are. *)
Definition to_upper_full_latin1 (c : char) : str :=
  (if (97 <=? c) && (c <=? 122) then [c - 32]
   else if c =? 0xB5 then [0x39C]
   else if c =? 0xDF then [83; 83]
   else if (0xE0 <=? c) && (c <=? 0xFE) && negb (c =? 0xF7) then [c - 32]
   else if c =? 0xFF then [0x178]
   else [c])%N.

End Str.

Import Str.

(** ** The BeautifulSoup tree *)

Module Soup.

(** An element with its tag name and children, or a text leaf
    (a [NavigableString]). *)
Inductive node : Type :=
| Text (s : str)
| Tag (name : string) (children : list node).

Definition name_in (names : list string) (name : string) : bool :=
  existsb (String.eqb name) names.

(** The elements named in [names] among a node and its descendants, in
    document order. *)
Fixpoint named (names : list string) (n : node) : list node :=
  match n with
  | Text _ => []
  | Tag name kids =>
      (if name_in names name then [n] else []) ++ flat_map (named names) kids
  end.

(** [tag.find_all(names)]: a list, built before the caller's loop starts, of
    the matching descendants of [tag] ([tag] itself is not a candidate). *)
Definition find_all (names : list string) (tag : node) : list node :=
  match tag with
  | Text _ => []
  | Tag _ kids => flat_map (named names) kids
  end.

(** [tag.find(name)]: the first match, or [None]. *)
Definition find (names : list string) (tag : node) : option node :=
  match find_all names tag with
  | [] => None
  | n :: _ => Some n
  end.

(** The strings below a node, in document order. *)
Fixpoint strings (n : node) : list str :=
  match n with
  | Text s => [s]
  | Tag _ kids => flat_map strings kids
  end.

Definition nonempty (s : str) : bool :=
  match s with [] => false | _ :: _ => true end.

(** [_all_strings(strip)]: with [strip], every string is stripped and the
    empty ones are left out. *)
Definition all_strings (strip_each : bool) (n : node) : list str :=
  if strip_each then List.filter nonempty (List.map strip (strings n))
  else strings n.

(** [tag.get_text(separator, strip)] *)
Definition get_text (separator : str) (strip_each : bool) (n : node) : str :=
  join separator (all_strings strip_each n).

(** [soup.get_text()] on the document, given by its top-level nodes. *)
Definition soup_get_text (soup : list node) : str :=
  List.concat (flat_map strings soup).

End Soup.

Import Soup.

(** ** [html.escape] and the <pre> wrapper *)

(** [html.escape(s)] with its default [quote=True]: five [replace] calls,
    the ampersand first. *)
Definition html_escape (s : str) : str :=
  let s := replace (lit "&") (lit "&amp;") s in
  let s := replace (lit "<") (lit "&lt;") s in
  let s := replace (lit ">") (lit "&gt;") s in
  let s := replace [34%N] (lit "&quot;") s in
  let s := replace [39%N] (lit "&#x27;") s in
  s.

Definition pre_open : str :=
  lit "<pre style=" ++ [34%N]
  ++ lit "white-space: pre-wrap; "
  ++ lit "font-family: -apple-system, BlinkMacSystemFont, "
  ++ [39%N] ++ lit "Helvetica Neue" ++ [39%N]
  ++ lit ", Helvetica, Arial, sans-serif; "
  ++ lit "font-size: 14px; line-height: 1.4;" ++ [34%N] ++ lit ">".

Definition pre_close : str := lit "</pre>".

Definition to_html_preserving_newlines (plain_text : str) : str :=
  let escaped := html_escape plain_text in
  pre_open ++ escaped ++ pre_close.

(** ** Steps 7 to 10 of [markdown_to_plain_text], on the extracted text *)

(** Step 7: the four [replace] calls, in the source's order. *)
Definition checkboxes (text : str) : str :=
  let text := replace (lit "- [ ]") [BALLOT_BOX] text in
  let text := replace (lit "[ ]") [BALLOT_BOX] text in
  let text := replace (lit "- [x]") [BALLOT_BOX_CHECK] text in
  let text := replace (lit "[x]") [BALLOT_BOX_CHECK] text in
  text.

Definition is_ansi_param (c : char) : bool :=
  ((48 <=? c) && (c <=? 57) || (c =? 59))%N.

(** The characters of [0-9;]* at the head of [s] (the star is greedy). *)
Fixpoint ansi_params (s : str) : nat :=
  match s with
  | c :: s' => if is_ansi_param c then S (ansi_params s') else 0
  | [] => 0
  end.

(** The regular expression [\x1b\[[0-9;]*m] at the head of [s].  The
    character [m] is not a parameter character, so the expression matches
    exactly when [m] follows the longest run of parameters. *)
Definition match_ansi (s : str) : option nat :=
  match s with
  | e :: b :: s' =>
      if char_eqb e ESC && char_eqb b 91%N then
        let k := ansi_params s' in
        match skipn k s' with
        | m :: _ => if char_eqb m 109%N then Some (3 + k) else None
        | [] => None
        end
      else None
  | _ => None
  end.

(** Step 8: [re.sub(r"\x1b\[[0-9;]*m", "", text)] *)
Definition strip_ansi (text : str) : str := sub match_ansi [] text.

(** The line breaks at the head of [s]. *)
Fixpoint newlines (s : str) : nat :=
  match s with
  | c :: s' => if char_eqb c LF then S (newlines s') else 0
  | [] => 0
  end.

(** The regular expression [\n{3,}] at the head of [s]. *)
Definition match_blank_lines (s : str) : option nat :=
  let n := newlines s in
  if 3 <=? n then Some n else None.

(** Step 9: [re.sub(r"\n{3,}", "\n\n", text)] *)
Definition collapse (text : str) : str := sub match_blank_lines [LF; LF] text.

(** Step 10 and the return statement. *)
Definition finish (text : str) : str :=
  let text := if negb (endswith text [LF]) then text ++ [LF] else text in
  strip text.

Definition cleanup (text : str) : str :=
  finish (collapse (strip_ansi (checkboxes text))).

(** ** Steps 3 to 6 as functions of the tree

    Each loop of steps 3 to 5 changes the document in place.  What a loop
    makes of a node is written here as a function; the loops themselves
    follow in [Dom], and [DomFacts.run_render] shows that they compute these
    functions and raise no exception. *)

Definition heading_names : list string :=
  ["h1"; "h2"; "h3"; "h4"; "h5"; "h6"]%string.

(** Step 3 gives every [li] two new siblings: the bullet before it and a
    line break after it.  The element itself, with its own items treated the
    same way, stays between them. *)
Fixpoint bullet (n : node) : list node :=
  match n with
  | Text s => [Text s]
  | Tag name kids =>
      let n' := Tag name (flat_map bullet kids) in
      if name_in ["li"%string] name
      then [Text [BULLET; SPACE]; n'; Text [LF]]
      else [n']
  end.

Definition lists_to_bullets (soup : list node) : list node :=
  flat_map bullet soup.

Section Renderer.

(** The Unicode upper-case mapping behind [str.upper], and
    [tabulate(rows, headers=headers, tablefmt="github")] of the tabulate
    package. *)
Variable to_upper_full : char -> str.
Variable tabulate : list (list str) -> list str -> str.

(** The text of the statement [heading.string = ...] for a heading
    element. *)
Definition heading_string (heading : node) : str :=
  let text := get_text [SPACE] true heading in
  let underline := times DASH (List.length text) in
  [LF] ++ upper to_upper_full text ++ [LF] ++ underline ++ [LF].

(** Step 4.  Assigning [heading.string] removes the children of the heading
    and leaves the new string as its only child.  Headings are visited in
    document order, so what was inside an outer heading is detached from the
    document before its turn comes. *)
Fixpoint style_heading (n : node) : node :=
  match n with
  | Text s => Text s
  | Tag name kids =>
      if name_in heading_names name
      then Tag name [Text (heading_string n)]
      else Tag name (List.map style_heading kids)
  end.

Definition headings_to_underlined (soup : list node) : list node :=
  List.map style_heading soup.

Definition cell_texts (cells : list node) : list str :=
  List.map (get_text [] true) cells.

Definition table_headers (table : node) : list str :=
  match find ["thead"%string] table with
  | Some thead => cell_texts (find_all ["th"%string] thead)
  | None =>
      match find ["tr"%string] table with
      | Some first_row =>
          cell_texts (find_all ["th"; "td"]%string first_row)
      | None => []
      end
  end.

(** The body of the loop over [trs[start_idx:]]. *)
Definition add_row (rows : list (list str)) (tr : node) : list (list str) :=
  let cells := cell_texts (find_all ["td"; "th"]%string tr) in
  match cells with
  | [] => rows
  | _ :: _ => rows ++ [cells]
  end.

Definition start_idx (table : node) : nat :=
  let thead := find ["thead"%string] table in
  let trs := find_all ["tr"%string] table in
  match thead with
  | None => if 0 <? List.length trs then 1 else 0
  | Some _ => 0
  end.

Definition table_rows (table : node) : list (list str) :=
  let trs := find_all ["tr"%string] table in
  fold_left add_row (skipn (start_idx table) trs) [].

(** The string that takes the place of a table. *)
Definition table_string (table : node) : str :=
  let pretty := tabulate (table_rows table) (table_headers table) in
  [LF] ++ pretty ++ [LF].

(** Step 5.  [replace_with] puts the string where the table was.  Tables are
    visited in document order, so a table inside another one is rendered as
    part of the cells of the outer one, and its own replacement happens in a
    subtree that is no longer part of the document. *)
Fixpoint render_table (n : node) : node :=
  match n with
  | Text s => Text s
  | Tag name kids =>
      if name_in ["table"%string] name
      then Text (table_string n)
      else Tag name (List.map render_table kids)
  end.

Definition tables_to_tabulate (soup : list node) : list node :=
  List.map render_table soup.

(** Steps 3 to 6: the text of the transformed document. *)
Definition extract_text (soup : list node) : str :=
  soup_get_text
    (tables_to_tabulate (headings_to_underlined (lists_to_bullets soup))).

(** The text of a parsed document after steps 3 to 10, with the passes taken
    as functions. *)
Definition render (soup : list node) : str :=
  cleanup (extract_text soup).

End Renderer.

(** ** The document while the passes run *)

Module Dom.

(** What a BeautifulSoup call returns: a value, or the exception it
    raised. *)
Inductive exn : Type :=
| ValueError      (* raised by bs4 for an element without a parent *)
| NotAnElement.   (* the handle names no element of the document *)

Inductive result (A : Type) : Type :=
| Ok (a : A)
| Raise (e : exn).

Arguments Ok {A} a.
Arguments Raise {A} e.

Definition bind {A B : Type} (c : result A) (k : A -> result B) : result B :=
  match c with
  | Ok a => k a
  | Raise e => Raise e
  end.

Notation "x <- c ;; k" := (bind c (fun x => k))
  (at level 61, c at next level, right associativity).

(** The passes never create an element and never move one: they put
    strings before and after an element, assign its [.string], or put a
    string in its place.  An element therefore keeps the place it had in
    the parsed tree, and carries what the passes did to it: the strings
    inserted before and after it, the string assigned to [.string] (its
    children are then detached from it) and the string that replaced it
    (the element is then detached from its parent, with its children). *)
Inductive elem : Type :=
| Str (s : str)
| Elem (name : string) (before after : list str)
       (string : option str) (replaced_by : option str)
       (children : list elem).

Definition is_some {A : Type} (o : option A) : bool :=
  match o with Some _ => true | None => false end.

(** The nodes an element stands for among the children of its parent. *)
Fixpoint nodes (e : elem) : list node :=
  match e with
  | Str s => [Text s]
  | Elem name before after string replaced_by kids =>
      List.map Text before
      ++ [match replaced_by with
          | Some s => Text s
          | None =>
              Tag name match string with
                       | Some s => [Text s]
                       | None => flat_map nodes kids
                       end
          end]
      ++ List.map Text after
  end.

(** The element itself, as the tree the queries see. *)
Definition tag (e : elem) : node :=
  match e with
  | Str s => Text s
  | Elem name _ _ string _ kids =>
      Tag name match string with
               | Some s => [Text s]
               | None => flat_map nodes kids
               end
  end.

(** The parsed document, before any pass. *)
Fixpoint parsed (n : node) : elem :=
  match n with
  | Text s => Str s
  | Tag name kids => Elem name [] [] None None (List.map parsed kids)
  end.

(** An element is named by the positions that lead to it from the top of
    the document. *)
Definition handle := list nat.

(** [soup.find_all(names)]: the elements of the document named in [names],
    in document order.  The children of an element whose [.string] was
    assigned, and an element that was replaced, are no longer part of the
    document. *)
Fixpoint handles (names : list string) (e : elem) : list handle :=
  match e with
  | Str _ => []
  | Elem name _ _ string replaced_by kids =>
      match replaced_by with
      | Some _ => []
      | None =>
          (if name_in names name then [[]] else [])
          ++ match string with
             | Some _ => []
             | None =>
                 (fix from (i : nat) (l : list elem) : list handle :=
                    match l with
                    | [] => []
                    | k :: l' =>
                        List.map (cons i) (handles names k) ++ from (S i) l'
                    end) 0 kids
             end
      end
  end.

Fixpoint handles_from (names : list string) (i : nat) (l : list elem)
  : list handle :=
  match l with
  | [] => []
  | k :: l' =>
      List.map (cons i) (handles names k) ++ handles_from names (S i) l'
  end.

Definition find_all (names : list string) (doc : list elem) : list handle :=
  handles_from names 0 doc.

Fixpoint set_nth (i : nat) (e : elem) (l : list elem) : list elem :=
  match l, i with
  | [], _ => []
  | _ :: l', O => e :: l'
  | k :: l', S i' => k :: set_nth i' e l'
  end.

(** The element a handle names. *)
Fixpoint get (h : handle) (doc : list elem) : result elem :=
  match h with
  | [] => Raise NotAnElement
  | i :: h' =>
      match nth_error doc i with
      | None => Raise NotAnElement
      | Some e =>
          match h' with
          | [] => Ok e
          | _ :: _ =>
              match e with
              | Str _ => Raise NotAnElement
              | Elem _ _ _ _ _ kids => get h' kids
              end
          end
      end
  end.

(** A change to the element a handle names.  [orphan] tells whether the
    parent of the element had its [.string] assigned: the element then has
    no parent any more. *)
Fixpoint change (h : handle) (orphan : bool)
  (op : bool -> elem -> result elem) (doc : list elem)
  : result (list elem) :=
  match h with
  | [] => Raise NotAnElement
  | i :: h' =>
      match nth_error doc i with
      | None => Raise NotAnElement
      | Some e =>
          e' <- match h' with
                | [] => op orphan e
                | _ :: _ =>
                    match e with
                    | Str _ => Raise NotAnElement
                    | Elem name before after string replaced_by kids =>
                        kids' <- change h' (is_some string) op kids ;;
                        Ok (Elem name before after string replaced_by kids')
                    end
                end ;;
          Ok (set_nth i e' doc)
      end
  end.

(** [element.insert_before(s)]: [ValueError] when the element has no
    parent. *)
Definition insert_before_op (s : str) (orphan : bool) (e : elem)
  : result elem :=
  match e with
  | Str _ => Raise NotAnElement
  | Elem name before after string replaced_by kids =>
      if orphan || is_some replaced_by then Raise ValueError
      else Ok (Elem name (before ++ [s]) after string replaced_by kids)
  end.

(** [element.insert_after(s)] *)
Definition insert_after_op (s : str) (orphan : bool) (e : elem)
  : result elem :=
  match e with
  | Str _ => Raise NotAnElement
  | Elem name before after string replaced_by kids =>
      if orphan || is_some replaced_by then Raise ValueError
      else Ok (Elem name before (s :: after) string replaced_by kids)
  end.

(** [element.string = s]: the children are detached, whatever the element's
    own place is. *)
Definition set_string_op (s : str) (orphan : bool) (e : elem) : result elem :=
  match e with
  | Str _ => Raise NotAnElement
  | Elem name before after _ replaced_by kids =>
      Ok (Elem name before after (Some s) replaced_by kids)
  end.

(** [element.replace_with(s)]: [ValueError] when the element has no
    parent. *)
Definition replace_with_op (s : str) (orphan : bool) (e : elem)
  : result elem :=
  match e with
  | Str _ => Raise NotAnElement
  | Elem name before after string replaced_by kids =>
      if orphan || is_some replaced_by then Raise ValueError
      else Ok (Elem name before after string (Some s) kids)
  end.

Definition insert_before (h : handle) (s : str) (doc : list elem) :=
  change h false (insert_before_op s) doc.
Definition insert_after (h : handle) (s : str) (doc : list elem) :=
  change h false (insert_after_op s) doc.
Definition set_string (h : handle) (s : str) (doc : list elem) :=
  change h false (set_string_op s) doc.
Definition replace_with (h : handle) (s : str) (doc : list elem) :=
  change h false (replace_with_op s) doc.

(** [for x in xs: body] on the document. *)
Definition for_each (xs : list handle)
  (body : handle -> list elem -> result (list elem)) (doc : list elem)
  : result (list elem) :=
  fold_left (fun acc x => doc' <- acc ;; body x doc') xs (Ok doc).

(** Step 3 *)
Definition bullets_loop (soup : list elem) : result (list elem) :=
  for_each (find_all ["li"%string] soup)
    (fun li soup =>
       soup <- insert_before li [BULLET; SPACE] soup ;;
       insert_after li [LF] soup)
    soup.

Section Loops.

Variable to_upper_full : char -> str.
Variable tabulate : list (list str) -> list str -> str.

(** Step 4 *)
Definition headings_loop (soup : list elem) : result (list elem) :=
  for_each (find_all heading_names soup)
    (fun heading soup =>
       element <- get heading soup ;;
       set_string heading (heading_string to_upper_full (tag element)) soup)
    soup.

(** Step 5 *)
Definition tables_loop (soup : list elem) : result (list elem) :=
  for_each (find_all ["table"%string] soup)
    (fun table soup =>
       element <- get table soup ;;
       replace_with table (table_string tabulate (tag element)) soup)
    soup.

(** [markdown_to_plain_text] from step 3 on, for the parsed document: the
    three loops, [soup.get_text()] and the clean-up of the text. *)
Definition run (soup : list node) : result str :=
  soup <- bullets_loop (List.map parsed soup) ;;
  soup <- headings_loop soup ;;
  soup <- tables_loop soup ;;
  Ok (cleanup (soup_get_text (flat_map nodes soup))).

End Loops.

(** *** The walk a loop amounts to *)

Definition children (e : elem) : list elem :=
  match e with
  | Str _ => []
  | Elem _ _ _ _ _ kids => kids
  end.

Definition with_children (e : elem) (kids : list elem) : elem :=
  match e with
  | Str s => Str s
  | Elem name before after string replaced_by _ =>
      Elem name before after string replaced_by kids
  end.

Definition cleared (e : elem) : bool :=
  match e with
  | Str _ => false
  | Elem _ _ _ string _ _ => is_some string
  end.

Definition is_elem (e : elem) : bool :=
  match e with Str _ => false | Elem _ _ _ _ _ _ => true end.

Section Walk.

(** The change a loop makes to each of its elements, and the names of the
    elements it visits. *)
Variable op : bool -> elem -> result elem.
Variable names : list string.

(** [change] below the element at the head of the handle. *)
Definition change_in (h : handle) (orphan : bool) (e : elem) : result elem :=
  match h with
  | [] => op orphan e
  | _ :: _ =>
      match e with
      | Str _ => Raise NotAnElement
      | Elem _ _ _ _ _ kids =>
          kids' <- change h (cleared e) op kids ;;
          Ok (with_children e kids')
      end
  end.

Definition run_handles (orphan : bool) (hs : list handle) (doc : list elem)
  : result (list elem) :=
  fold_left (fun acc h => doc' <- acc ;; change h orphan op doc') hs (Ok doc).

Definition run_in (orphan : bool) (hs : list handle) (e : elem)
  : result elem :=
  fold_left (fun acc h => e' <- acc ;; change_in h orphan e') hs (Ok e).

(** One visit to each element of the document, parents first. *)
Fixpoint walk (orphan : bool) (e : elem) : result elem :=
  match e with
  | Str _ => Ok e
  | Elem name _ _ string replaced_by kids =>
      match replaced_by with
      | Some _ => Ok e
      | None =>
          e1 <- (if name_in names name then op orphan e else Ok e) ;;
          match string with
          | Some _ => Ok e1
          | None =>
              kids' <- (fix walk_all (l : list elem) : result (list elem) :=
                          match l with
                          | [] => Ok []
                          | k :: l' =>
                              k' <- walk (cleared e1) k ;;
                              l'' <- walk_all l' ;;
                              Ok (k' :: l'')
                          end) kids ;;
              Ok (with_children e1 kids')
          end
      end
  end.

Fixpoint walk_all (orphan : bool) (l : list elem) : result (list elem) :=
  match l with
  | [] => Ok []
  | k :: l' =>
      k' <- walk orphan k ;;
      l'' <- walk_all orphan l' ;;
      Ok (k' :: l'')
  end.

End Walk.

(** The changes of the three loops. *)
Definition bullet_op (orphan : bool) (e : elem) : result elem :=
  e' <- insert_before_op [BULLET; SPACE] orphan e ;;
  insert_after_op [LF] orphan e'.

Section Changes.

Variable to_upper_full : char -> str.
Variable tabulate : list (list str) -> list str -> str.

Definition heading_op (orphan : bool) (e : elem) : result elem :=
  set_string_op (heading_string to_upper_full (tag e)) orphan e.

Definition style_nodes (n : node) : list node :=
  [style_heading to_upper_full n].

Definition table_op (orphan : bool) (e : elem) : result elem :=
  replace_with_op (table_string tabulate (tag e)) orphan e.

Definition table_nodes (n : node) : list node := [render_table tabulate n].

End Changes.

End Dom.

Section Entry.

(** [str.upper], [tabulate], and steps 1 and 2: [markdown.markdown] and the
    [html.parser] of BeautifulSoup. *)
Variable to_upper_full : char -> str.
Variable tabulate : list (list str) -> list str -> str.
Variable parse : str -> list node.

Definition markdown_to_plain_text (md_text : str) : Dom.result str :=
  Dom.run to_upper_full tabulate (parse md_text).

End Entry.

(** ** The renderer with library calls that raise

    [markdown.markdown], [BeautifulSoup] and [tabulate] are calls into
    libraries, and nothing in [markdown_to_plain_text] catches what they
    raise.  Here each of them returns a value or the exception it raised,
    and an exception ends the function. *)

(** An exception raised by a library call: whether it is an instance of
    [Exception], and [str(e)]. *)
Record foreign : Type := { is_exception : bool; message : str }.

(** What comes back from a library call. *)
Inductive reply (A : Type) : Type :=
| Done (a : A)
| Failed (f : foreign).

Arguments Done {A} a.
Arguments Failed {A} f.

(** The string [tabulate] returns, as a function of the rows and the
    headers (the empty string where the call raises). *)
Definition returned (tabulate : list (list str) -> list str -> reply str)
  (rows : list (list str)) (headers : list str) : str :=
  match tabulate rows headers with
  | Done pretty => pretty
  | Failed _ => []
  end.

(** Library calls that return for every argument. *)
Definition returning (A B : Type) (f : A -> B) (a : A) : reply B :=
  Done (f a).

Definition returning2 (A B C : Type) (f : A -> B -> C) (a : A) (b : B)
  : reply C :=
  Done (f a b).

Module Raising.

(** The exceptions that end [markdown_to_plain_text]. *)
Inductive exn : Type :=
| Tree (e : Dom.exn)       (* raised by a BeautifulSoup call on the tree *)
| Library (f : foreign).   (* raised by [markdown.markdown], by
                              [BeautifulSoup] or by [tabulate] *)

Inductive result (A : Type) : Type :=
| Ok (a : A)
| Raise (e : exn).

Arguments Ok {A} a.
Arguments Raise {A} e.

Definition bind {A B : Type} (c : result A) (k : A -> result B) : result B :=
  match c with
  | Ok a => k a
  | Raise e => Raise e
  end.

#[local] Notation "x <- c ;; k" := (bind c (fun x => k))
  (at level 61, c at next level, right associativity).

(** A BeautifulSoup call on the tree, and a call into a library. *)
Definition tree {A : Type} (c : Dom.result A) : result A :=
  match c with
  | Dom.Ok a => Ok a
  | Dom.Raise e => Raise (Tree e)
  end.

Definition library {A : Type} (r : reply A) : result A :=
  match r with
  | Done a => Ok a
  | Failed f => Raise (Library f)
  end.

(** [for x in xs: body] on the document. *)
Definition for_each (xs : list Dom.handle)
  (body : Dom.handle -> list Dom.elem -> result (list Dom.elem))
  (doc : list Dom.elem) : result (list Dom.elem) :=
  fold_left (fun acc x => doc' <- acc ;; body x doc') xs (Ok doc).

Section Loops.

Variable to_upper_full : char -> str.
Variable tabulate : list (list str) -> list str -> reply str.
Variable parse : str -> reply (list node).

(** Step 5 *)
Definition tables_loop (soup : list Dom.elem) : result (list Dom.elem) :=
  for_each (Dom.find_all ["table"%string] soup)
    (fun table soup =>
       element <- tree (Dom.get table soup) ;;
       let headers := table_headers (Dom.tag element) in
       let rows := table_rows (Dom.tag element) in
       pretty <- library (tabulate rows headers) ;;
       tree (Dom.replace_with table ([LF] ++ pretty ++ [LF]) soup))
    soup.

(** Steps 3 to 10, for the parsed document. *)
Definition run (soup : list node) : result str :=
  soup <- tree (Dom.bullets_loop (List.map Dom.parsed soup)) ;;
  soup <- tree (Dom.headings_loop to_upper_full soup) ;;
  soup <- tables_loop soup ;;
  Ok (cleanup (soup_get_text (flat_map Dom.nodes soup))).

(** Steps 1 and 2 are the two parser calls; the rest follows. *)
Definition markdown_to_plain_text (md_text : str) : result str :=
  soup <- library (parse md_text) ;;
  run soup.

End Loops.

End Raising.

(** ** Notions the statements below use *)

(** What [html.escape] does to one character. *)
Definition escape_char (c : char) : str :=
  (if c =? 38 then lit "&amp;"
   else if c =? 60 then lit "&lt;"
   else if c =? 62 then lit "&gt;"
   else if c =? 34 then lit "&quot;"
   else if c =? 39 then lit "&#x27;"
   else [c])%N.

(** The markup characters that must not occur literally: the angle brackets
    and both quotes. *)
Definition reserved (c : char) : bool :=
  ((c =? 60) || (c =? 62) || (c =? 34) || (c =? 39))%N.

(** The text after an ampersand, for the ampersand to be the start of one
    of the five character references. *)
Definition entity_tail (s : str) : bool :=
  startswith (lit "amp;") s || startswith (lit "lt;") s
  || startswith (lit "gt;") s || startswith (lit "quot;") s
  || startswith (lit "#x27;") s.

(** No reserved character occurs, and every ampersand starts a character
    reference. *)
Fixpoint well_escaped (s : str) : bool :=
  match s with
  | [] => true
  | c :: s' =>
      negb (reserved c)
      && (if (c =? 38)%N then entity_tail s' else true)
      && well_escaped s'
  end.

(** The character a reference at the head of [s] stands for, with the
    number of characters of the reference after its ampersand. *)
Definition reference (s : str) : option (char * nat) :=
  if startswith (lit "&amp;") s then Some (38%N, 4)
  else if startswith (lit "&lt;") s then Some (60%N, 3)
  else if startswith (lit "&gt;") s then Some (62%N, 3)
  else if startswith (lit "&quot;") s then Some (34%N, 5)
  else if startswith (lit "&#x27;") s then Some (39%N, 5)
  else None.

(** Reading the five character references back. *)
Fixpoint unescape_from (skip : nat) (s : str) : str :=
  match s with
  | [] => []
  | c :: s' =>
      match skip with
      | S k => unescape_from k s'
      | O =>
          match reference s with
          | Some (d, k) => d :: unescape_from k s'
          | None => c :: unescape_from 0 s'
          end
      end
  end.

(** The text inside a fragment: what is between the opening and the
    closing markup, unescaped. *)
Definition unwrap (fragment : str) : str :=
  let inner := skipn (List.length pre_open) fragment in
  unescape_from 0
    (firstn (List.length inner - List.length pre_close) inner).

(** The text begins with a whitespace character. *)
Definition space_first (s : str) : bool :=
  match s with
  | [] => false
  | c :: _ => isspace c
  end.

(** [s.count(p)] for a non-empty [p]: the non-overlapping occurrences, from
    the left. *)
Fixpoint count_from (p : str) (skip : nat) (s : str) : nat :=
  match s with
  | [] => 0
  | _ :: s' =>
      match skip with
      | S k => count_from p k s'
      | O =>
          if startswith p s then S (count_from p (List.length p - 1) s')
          else count_from p 0 s'
      end
  end.

Definition count (p s : str) : nat := count_from p 0 s.

(** A tree with list content only: [ul], [ol] and [li] elements and text. *)
Fixpoint only_lists (n : node) : bool :=
  match n with
  | Text _ => true
  | Tag name kids =>
      name_in ["ul"; "ol"; "li"]%string name && forallb only_lists kids
  end.

(** The number of [li] elements of a document. *)
Definition list_items (soup : list node) : nat :=
  List.length (flat_map (named ["li"%string]) soup).

(** No text leaf of the tree holds the bullet character. *)
Fixpoint bullet_free (n : node) : bool :=
  match n with
  | Text s => Nat.eqb (count_char BULLET s) 0
  | Tag _ kids => forallb bullet_free kids
  end.

(** A tree without heading and table elements. *)
Fixpoint plain (n : node) : bool :=
  match n with
  | Text _ => true
  | Tag name kids =>
      negb (name_in heading_names name)
      && negb (name_in ["table"%string] name)
      && forallb plain kids
  end.

(** Every bullet character of the text is followed by a space. *)
Fixpoint marked (s : str) : bool :=
  match s with
  | [] => true
  | c :: s' =>
      (if char_eqb c BULLET then startswith [SPACE] s' else true)
      && marked s'
  end.

(** An element around a place of the document: its name, and its
    children before and after that place. *)
Record frame : Type :=
  { frame_name : string;
    frame_before : list node;
    frame_after : list node }.

(** The document that has the nodes [here] inside the elements [frames],
    the outermost element first. *)
Fixpoint plug (frames : list frame) (here : list node) : list node :=
  match frames with
  | [] => here
  | f :: frames' =>
      frame_before f
      ++ Tag (frame_name f) (plug frames' here) :: frame_after f
  end.

(** None of the elements is a heading or a table. *)
Definition open_frames (frames : list frame) : bool :=
  forallb
    (fun f =>
       negb (name_in heading_names (frame_name f))
       && negb (name_in ["table"%string] (frame_name f)))
    frames.

(** A text that steps 7 to 10 leave as it is where it stands on a line
    of its own: it is not empty, does not begin with a whitespace
    character, and holds no line break, no escape character and none of
    the two checkboxes. *)
Definition plain_line (s : str) : bool :=
  nonempty s && negb (space_first s)
  && Nat.eqb (count_char LF s) 0 && Nat.eqb (count_char ESC s) 0
  && negb (contains (lit "[ ]") s) && negb (contains (lit "[x]") s).

Section Around.

Variable to_upper_full : char -> str.
Variable tabulate : list (list str) -> list str -> str.

(** The text extracted from what comes before the place the frames lead
    to, and from what comes after it. *)
Fixpoint text_before (frames : list frame) : str :=
  match frames with
  | [] => []
  | f :: frames' =>
      extract_text to_upper_full tabulate (frame_before f)
      ++ (if name_in ["li"%string] (frame_name f) then [BULLET; SPACE]
          else [])
      ++ text_before frames'
  end.

Fixpoint text_after (frames : list frame) : str :=
  match frames with
  | [] => []
  | f :: frames' =>
      text_after frames'
      ++ (if name_in ["li"%string] (frame_name f) then [LF] else [])
      ++ extract_text to_upper_full tabulate (frame_after f)
  end.

End Around.

(** ** Documents used as examples *)

(** The HTML table [<table><thead><tr><th>Name</th><th>Age</th></tr></thead>
    <tbody><tr><td>Ann</td><td>30</td></tr><tr><td>Bo</td><td>41</td></tr>
    </tbody></table>], written without white space between the tags. *)
Definition name_age_table : node :=
  Tag "table"
    [ Tag "thead"
        [ Tag "tr" [ Tag "th" [Text (lit "Name")];
                     Tag "th" [Text (lit "Age")] ] ];
      Tag "tbody"
        [ Tag "tr" [ Tag "td" [Text (lit "Ann")];
                     Tag "td" [Text (lit "30")] ];
          Tag "tr" [ Tag "td" [Text (lit "Bo")];
                     Tag "td" [Text (lit "41")] ] ] ].

(** The list [<ul><li></li></ul>], with one empty item. *)
Definition empty_item_list : list node := [Tag "ul" [Tag "li" []]].

(** The list [<ul><li>• x</li></ul>], whose item starts with a bullet of
    its own. *)
Definition bullet_text_list : list node :=
  [Tag "ul" [Tag "li" [Text ([BULLET; SPACE] ++ lit "x")]]].

(** The heading [<h1>ß</h1>] (U+00DF, the sharp s). *)
Definition sharp_s_heading : node := Tag "h1" [Text [0xDF%N]].

(** A formatter that prints nothing, for documents without tables. *)
Definition no_tables (rows : list (list str)) (headers : list str) : str := [].



(** The place of [<blockquote><p>Intro</p> ... <p>End</p></blockquote>]
    between the two paragraphs. *)
Definition in_blockquote : list frame :=
  [ {| frame_name := "blockquote";
       frame_before := [Tag "p" [Text (lit "Intro")]];
       frame_after := [Tag "p" [Text (lit "End")]] |} ].

(** ** The command-line program around the renderer

    The functions of [cli.py] that talk to the outside: [osascript] and the
    Perplexity command through [subprocess.run], the terminal through
    [console.print] of rich and [input].  The three calls are parameters:
    each gets the state of the outside world, returns a value or the
    exception it raised, and leaves a new state.  Every call is recorded, in
    order, with its arguments and with what came back. *)

Module Cli.

Definition QUOTE : char := 34%N.        (* the double quote *)
Definition BACKSLASH : char := 92%N.
Definition COMMA : char := 44%N.

(** [separator.join(lines)] with the line break: a text given by its
    lines. *)
Definition text_of_lines (lines : list str) : str := join [LF] lines.

(** [str(n)] for an [int]. *)
Definition str_of_int (n : Z) : str :=
  lit (NilZero.string_of_int (Z.to_int n)).

(** [a == b] on [str]. *)
Fixpoint str_eqb (a b : str) : bool :=
  match a, b with
  | [], [] => true
  | x :: a', y :: b' => char_eqb x y && str_eqb a' b'
  | _, _ => false
  end.

(** [s.split(sep)] for a one-character [sep]: the pieces between the
    separators, the empty ones too; [piece] is the piece being read. *)
Fixpoint split_from (sep : char) (piece s : str) : list str :=
  match s with
  | [] => [piece]
  | c :: s' =>
      if char_eqb c sep then piece :: split_from sep [] s'
      else split_from sep (piece ++ [c]) s'
  end.

Definition split (sep : char) (s : str) : list str := split_from sep [] s.

(** [list(dict.fromkeys(keys))]: a key already in the dict keeps its
    place, a new one is put at the end. *)
Definition fromkeys (keys : list str) : list str :=
  fold_left
    (fun d k => if existsb (str_eqb k) d then d else d ++ [k]) keys [].

(** [x in l] for a list of [str]. *)
Definition in_list (x : str) (l : list str) : bool := existsb (str_eqb x) l.

(** What [subprocess.run(..., capture_output=True, text=True)] returns. *)
Record CompletedProcess : Type :=
  { returncode : Z; stdout : str; stderr : str }.

(** The exceptions of a run of the program. *)
Inductive error : Type :=
| ValueError                  (* [int(val)] *)
| IndexError                  (* [folders[src_idx]] *)
| Rendering (e : Dom.exn)     (* raised by a BeautifulSoup call on the
                                 tree, inside [markdown_to_plain_text] *)
| Foreign (f : foreign).      (* raised by a library call *)

(** How far a computation got: it returned, it raised, or its loop was
    still going round when the rounds allowed to it were used up. *)
Inductive outcome (E A : Type) : Type :=
| Ok (a : A)
| Raise (e : E)
| Running.

Arguments Ok {E A} a.
Arguments Raise {E A} e.
Arguments Running {E A}.

(** A library call, with its arguments and what came back. *)
Inductive event : Type :=
| Run (args : list str) (timeout : option nat) (r : reply CompletedProcess)
| Print (objects : list str) (style : option str) (r : reply unit)
| Input (prompt : str) (r : reply str).

(** [l[i]] for a Python [int]: a negative index counts from the end. *)
Definition getitem (A : Type) (l : list A) (i : Z) : option A :=
  let n := Z.of_nat (List.length l) in
  if (0 <=? i)%Z then nth_error l (Z.to_nat i)
  else if (- n <=? i)%Z then nth_error l (Z.to_nat (n + i))
  else None.

Section World.

Variable W : Type.

(** [subprocess.run] with the arguments and the timeout ([capture_output]
    and [text] are set in every call), [console.print] with the objects to
    print and the style, and [input] with the prompt. *)
Variable subprocess_run :
  list str -> option nat -> W -> reply CompletedProcess * W.
Variable console_print : list str -> option str -> W -> reply unit * W.
Variable builtin_input : str -> W -> reply str * W.

(** [val.isdigit()] and [int(val)], which is [None] where Python raises
    [ValueError]. *)
Variable isdigit : str -> bool.
Variable int : str -> option Z.

(** The parameters of the renderer: [str.upper], and the calls of
    [tabulate] and of the two parsers. *)
Variable to_upper_full : char -> str.
Variable tabulate : list (list str) -> list str -> reply str.
Variable parse : str -> reply (list node).

Record state : Type := { env : W; trace : list event }.

Definition io (E A : Type) : Type := state -> outcome E A * state.

Definition ret {E A : Type} (a : A) : io E A := fun st => (Ok a, st).

Definition raise {E A : Type} (e : E) : io E A := fun st => (Raise e, st).

Definition bind {E A B : Type} (c : io E A) (k : A -> io E B) : io E B :=
  fun st =>
    match c st with
    | (Ok a, st') => k a st'
    | (Raise e, st') => (Raise e, st')
    | (Running, st') => (Running, st')
    end.

#[local] Notation "x <- c ;; k" := (bind c (fun x => k))
  (at level 61, c at next level, right associativity).
#[local] Notation "c ;; k" := (bind c (fun _ => k))
  (at level 61, right associativity).

(** A library call: the world moves on, and the call is recorded. *)
Definition call {A : Type} (ev : reply A -> event) (f : W -> reply A * W)
  : io foreign A :=
  fun st =>
    let (r, w) := f (env st) in
    (match r with Done a => Ok a | Failed e => Raise e end,
     {| env := w; trace := trace st ++ [ev r] |}).

Definition run (args : list str) (timeout : option nat)
  : io foreign CompletedProcess :=
  call (Run args timeout) (subprocess_run args timeout).

Definition print (objects : list str) (style : option str) : io foreign unit :=
  call (Print objects style) (console_print objects style).

Definition input (prompt : str) : io foreign str :=
  call (Input prompt) (builtin_input prompt).

(** A library call outside a [try]: its exception is an exception of the
    program. *)
Definition lift {A : Type} (c : io foreign A) : io error A :=
  fun st =>
    match c st with
    | (Ok a, st') => (Ok a, st')
    | (Raise e, st') => (Raise (Foreign e), st')
    | (Running, st') => (Running, st')
    end.

(** [try: body except Exception as e: handler], with [str(e)] given to the
    handler. *)
Definition try_except {A : Type} (body : io foreign A)
  (handler : str -> io error A) : io error A :=
  fun st =>
    match body st with
    | (Ok a, st') => (Ok a, st')
    | (Raise e, st') =>
        if is_exception e then handler (message e) st'
        else (Raise (Foreign e), st')
    | (Running, st') => (Running, st')
    end.

(** [for x in xs: body] *)
Fixpoint for_each {A : Type} (xs : list A) (body : A -> io error unit)
  : io error unit :=
  match xs with
  | [] => ret tt
  | x :: rest => body x ;; for_each rest body
  end.

Definition print_banner : io error unit :=
  lift (print [times 61%N 50] (Some (lit "bold green"))) ;;
  lift (print [lit "AI Note Cleaner CLI Application - v1.0"]
          (Some (lit "bold bright_cyan"))) ;;
  lift (print [times 61%N 50] (Some (lit "bold green"))) ;;
  lift (print [lit "Enhance your Apple Notes by summarizing, fixing grammar,"]
          (Some (lit "italic"))) ;;
  lift (print [lit "adding headings & bullets using Perplexity AI CLI."]
          (Some (lit "italic"))) ;;
  lift (print [] None).

Definition run_applescript (script : str) : io error (option str) :=
  process <- lift (run [lit "osascript"; lit "-e"; script] None) ;;
  if negb (returncode process =? 0)%Z then
    lift (print [lit "[red]AppleScript error:[/] " ++ stderr process] None) ;;
    ret None
  else ret (Some (strip (stdout process))).

(** The list [unique_folders]: the pieces of [folders] between commas,
    stripped, the empty ones left out, each kept where it comes first. *)
Definition unique_folders (folders : str) : list str :=
  fromkeys
    (List.map strip
       (List.filter (fun f => nonempty (strip f)) (split COMMA folders))).

Definition list_folders_script : str :=
  lit "tell application " ++ [QUOTE] ++ lit "Notes" ++ [QUOTE]
  ++ lit " to get name of every folder".

Definition list_folders : io error (list str) :=
  folders <- run_applescript list_folders_script ;;
  match folders with
  | Some (c :: s) => ret (unique_folders (c :: s))
  | _ => ret []
  end.

Definition list_notes_script (folder : str) : str :=
  text_of_lines
    [ [];
      lit "    tell application " ++ [QUOTE] ++ lit "Notes" ++ [QUOTE];
      lit "      set noteNames to name of notes of folder "
        ++ [QUOTE] ++ folder ++ [QUOTE];
      lit "    end tell";
      lit "    " ].

Definition list_notes_in_folder (folder : str) : io error (list str) :=
  result <- run_applescript (list_notes_script folder) ;;
  match result with
  | Some (c :: s) => ret (List.map strip (split COMMA (c :: s)))
  | _ => ret []
  end.

Definition get_note_body_script (folder note_name : str) : str :=
  text_of_lines
    [ [];
      lit "    tell application " ++ [QUOTE] ++ lit "Notes" ++ [QUOTE];
      lit "      set theNotes to notes of folder "
        ++ [QUOTE] ++ folder ++ [QUOTE];
      lit "      repeat with n in theNotes";
      lit "        if name of n is " ++ [QUOTE] ++ note_name ++ [QUOTE]
        ++ lit " then";
      lit "          return body of n";
      lit "        end if";
      lit "      end repeat";
      lit "    end tell";
      lit "    " ].

Definition get_note_body (folder note_name : str) : io error (option str) :=
  run_applescript (get_note_body_script folder note_name).

(** The [replace] call on [html_body]: a backslash before every double
    quote. *)
Definition escape_quotes (html_body : str) : str :=
  replace [QUOTE] [BACKSLASH; QUOTE] html_body.

Definition create_note_script (folder note_name html_body : str) : str :=
  let html_escaped_for_as := escape_quotes html_body in
  text_of_lines
    [ [];
      lit "    tell application " ++ [QUOTE] ++ lit "Notes" ++ [QUOTE];
      lit "      tell folder " ++ [QUOTE] ++ folder ++ [QUOTE];
      lit "        make new note with properties {name:"
        ++ [QUOTE] ++ note_name ++ [QUOTE] ++ lit ", body:"
        ++ [QUOTE] ++ html_escaped_for_as ++ [QUOTE] ++ lit "}";
      lit "      end tell";
      lit "    end tell";
      lit "    " ].

Definition create_note_in_folder_html (folder note_name html_body : str)
  : io error (option str) :=
  run_applescript (create_note_script folder note_name html_body).

Definition enhance_text_with_perplexity (text : str) : io error (option str) :=
  let prompt :=
    lit "Summarize, fix grammar, add headings and bullet points, "
    ++ lit "and rewrite cleanly:" ++ [LF] ++ text in
  try_except
    (let cmd :=
       [lit "python3"; lit "/Users/ryan/.local/bin/perplexity"; prompt] in
     process <- run cmd (Some 60) ;;
     if (returncode process =? 0)%Z then ret (Some (strip (stdout process)))
     else
       print [lit "[red]Perplexity CLI error:[/] " ++ stderr process] None ;;
       ret None)
    (fun e =>
       lift (print [lit "[red]Error running Perplexity CLI:[/] " ++ e] None) ;;
       ret None).

(** The message of [prompt_int] for a line it does not accept. *)
Definition invalid_input (min_val max_val : Z) : str :=
  lit "[red]Invalid input! Please enter a number between "
  ++ str_of_int min_val ++ lit " and " ++ str_of_int max_val ++ lit ".[/]".

Definition in_range (min_val max_val num : Z) : bool :=
  (min_val <=? num)%Z && (num <=? max_val)%Z.

(** [prompt_int]: the loop goes round until a line is accepted; [rounds] is
    the number of rounds allowed to it here. *)
Fixpoint prompt_int (rounds : nat) (prompt : str) (min_val max_val : Z)
  : io error Z :=
  match rounds with
  | O => fun st => (Running, st)
  | S rounds =>
      line <- lift (input prompt) ;;
      let val := strip line in
      found <-
        (if isdigit val then
           match int val with
           | Some num =>
               if in_range min_val max_val num then ret (Some num)
               else ret None
           | None => raise ValueError
           end
         else ret None) ;;
      match found with
      | Some num => ret num
      | None =>
          lift (print [invalid_input min_val max_val] None) ;;
          prompt_int rounds prompt min_val max_val
      end
  end.

(** [folders[src_idx]] *)
Definition index (folders : list str) (src_idx : Z) : io error str :=
  match getitem folders src_idx with
  | Some folder => ret folder
  | None => raise IndexError
  end.

(** The call of [markdown_to_plain_text]: what is raised inside it is an
    exception of the program. *)
Definition rendered (md_text : str) : io error str :=
  match Raising.markdown_to_plain_text to_upper_full tabulate parse md_text
  with
  | Raising.Ok text => ret text
  | Raising.Raise (Raising.Tree e) => raise (Rendering e)
  | Raising.Raise (Raising.Library f) => raise (Foreign f)
  end.

(** The body of the loop over the notes; leaving it early is the
    [continue] of the source. *)
Definition enhance_note (folders : list str) (src_idx : Z)
  (dest_folder_name note_name : str) : io error unit :=
  lift (print [lit "Enhancing note: [bold]" ++ note_name ++ lit "[/] ..."]
          None) ;;
  folder <- index folders src_idx ;;
  original_body <- get_note_body folder note_name ;;
  match original_body with
  | Some (c :: s) =>
      enhanced_body <- enhance_text_with_perplexity (c :: s) ;;
      match enhanced_body with
      | Some (c' :: s') =>
          let new_note_name := lit "Enhanced - " ++ note_name in
          readable_text <- rendered (c' :: s') ;;
          let html_body := to_html_preserving_newlines readable_text in
          create_note_in_folder_html dest_folder_name new_note_name
            html_body ;;
          lift (print
                  [lit "  Note '" ++ note_name ++ lit "' enhanced and saved as '"
                   ++ new_note_name ++ lit "'." ++ [LF]]
                  (Some (lit "green")))
      | _ =>
          lift (print
                  [lit "  [red]Failed to enhance note '" ++ note_name
                   ++ lit "'. Skipping.[/]"] None)
      end
  | _ =>
      lift (print
              [lit "  [red]Failed to read note '" ++ note_name
               ++ lit "'. Skipping.[/]"] None)
  end.

Definition main (rounds : nat) : io error unit :=
  print_banner ;;
  lift (print [lit "Fetching Apple Notes folders..." ++ [LF]]
          (Some (lit "yellow"))) ;;
  folders <- list_folders ;;
  match folders with
  | [] =>
      lift (print
              [lit "[red]No folders found in Apple Notes. "
               ++ lit "Please create some folders first.[/]"] None)
  | _ :: _ =>
      let count := Z.of_nat (List.length folders) in
      lift (print [lit "Available Apple Notes folders:"]
              (Some (lit "bold cyan"))) ;;
      for_each (combine (seq 1 (List.length folders)) folders)
        (fun '(idx, folder) =>
           lift (print
                   [lit "  " ++ str_of_int (Z.of_nat idx) ++ lit ". "
                    ++ folder] None)) ;;
      chosen <-
        prompt_int rounds
          ([LF] ++ lit "Enter source folder number to process (1-"
           ++ str_of_int count ++ lit "): ") 1%Z count ;;
      let src_idx := (chosen - 1)%Z in
      line <-
        lift (input
                ([LF]
                 ++ lit "Enter destination folder name (existing or new): "))
        ;;
      let dest_folder_name := strip line in
      (* what follows the creation of the destination folder *)
      let process : io error unit :=
        folder <- index folders src_idx ;;
        lift (print
                [[LF] ++ lit "Processing notes from '" ++ folder
                 ++ lit "' to '" ++ dest_folder_name ++ lit "'..." ++ [LF]]
                (Some (lit "bold green"))) ;;
        folder <- index folders src_idx ;;
        notes <- list_notes_in_folder folder ;;
        match notes with
        | [] =>
            folder <- index folders src_idx ;;
            lift (print
                    [lit "[yellow]No notes found in folder '" ++ folder
                     ++ lit "'.[/]"] None)
        | _ :: _ =>
            for_each notes
              (enhance_note folders src_idx dest_folder_name) ;;
            lift (print
                    [lit "All notes processed. Thank you for using "
                     ++ lit "AI Note Cleaner CLI!"]
                    (Some (lit "bold magenta")))
        end in
      match dest_folder_name with
      | [] =>
          lift (print
                  [lit "[red]Destination folder name cannot be empty.[/]"]
                  None)
      | _ :: _ =>
          if negb (in_list dest_folder_name folders) then
            lift (print
                    [lit "Destination folder '" ++ dest_folder_name
                     ++ lit "' does not exist. Creating it..."]
                    (Some (lit "yellow"))) ;;
            let create_script :=
              lit "tell application " ++ [QUOTE] ++ lit "Notes" ++ [QUOTE]
              ++ lit " to make new folder with properties {name:"
              ++ [QUOTE] ++ dest_folder_name ++ [QUOTE] ++ lit "}" in
            made <- run_applescript create_script ;;
            match made with
            | None =>
                lift (print
                        [lit "[red]Failed to create destination folder '"
                         ++ dest_folder_name ++ lit "'. Exiting.[/]"] None)
            | Some _ =>
                lift (print
                        [lit "Folder '" ++ dest_folder_name
                         ++ lit "' created successfully."]
                        (Some (lit "green"))) ;;
                process
            end
          else process
      end
  end.

End World.

Definition is_print (ev : event) : bool :=
  match ev with
  | Print _ _ _ => true
  | _ => false
  end.

(** Whatever the state of the world is, [c] adds to the record of calls
    and takes nothing from it. *)
Definition grows (W E A : Type) (c : io W E A) : Prop :=
  forall st, exists new, trace (snd (c st)) = trace st ++ new.

(** Whatever the state of the world is, the calls of [c] are prints. *)
Definition prints_only (W E A : Type) (c : io W E A) : Prop :=
  forall st,
    exists new,
      trace (snd (c st)) = trace st ++ new /\ forallb is_print new = true.

(** The exceptions that start outside the program's own code: [int]
    refusing a text, and what a library call raises. *)
Definition from_outside (e : error) : bool :=
  match e with
  | ValueError | Foreign _ => true
  | IndexError | Rendering _ => false
  end.

(** Whatever the state of the world is: a value [c] returns has the
    property [Q], and an exception it raises comes from outside. *)
Definition safe (W A : Type) (c : io W error A) (Q : A -> Prop) : Prop :=
  forall st,
    match fst (c st) with
    | Ok a => Q a
    | Raise e => from_outside e = true
    | Running => True
    end.

(** *** Worlds used as examples

    The state of the world is the list of the lines still to be typed, every
    print succeeds, and [str.isdigit] and [int] are written out for the
    ASCII digits. *)

Definition typed (prompt : str) (w : list str) : reply str * list str :=
  match w with
  | [] =>
      (Failed {| is_exception := true;
                 message := lit "EOF when reading a line" |}, [])
  | line :: rest => (Done line, rest)
  end.

Definition shown (objects : list str) (style : option str) (w : list str)
  : reply unit * list str :=
  (Done tt, w).

(** Every command ends with return code 0 and the output [out]. *)
Definition answering (out : str) (args : list str) (timeout : option nat)
  (w : list str) : reply CompletedProcess * list str :=
  (Done {| returncode := 0; stdout := out; stderr := [] |}, w).

(** Every command is interrupted from the keyboard. *)
Definition interrupted (args : list str) (timeout : option nat)
  (w : list str) : reply CompletedProcess * list str :=
  (Failed {| is_exception := false; message := [] |}, w).

(** Notes cannot be created: a script that makes a note ends with return
    code 1; every other command prints a line of text. *)
Definition read_only (args : list str) (timeout : option nat)
  (w : list str) : reply CompletedProcess * list str :=
  if contains (lit "make new note") (last args [])
  then (Done {| returncode := 1; stdout := [];
                stderr := lit "execution error" |}, w)
  else (Done {| returncode := 0; stdout := lit "Buy milk" ++ [LF];
                stderr := [] |}, w).

Definition isdigit_ascii (s : str) : bool :=
  nonempty s && forallb (fun c => (48 <=? c) && (c <=? 57))%N s.

Definition int_ascii (s : str) : option Z :=
  Some (fold_left (fun n c => (10 * n + Z.of_N (c - 48))%Z) s 0%Z).

(** A parser that takes the whole text as one text node. *)
Definition one_text (md_text : str) : list node := [Text md_text].

End Cli.

(** * Properties *)

(** ** Strings *)

Lemma char_eqb_eq (a b : char) : char_eqb a b = true <-> a = b.
Proof. apply N.eqb_eq. Qed.

Lemma char_eqb_neq (a b : char) : char_eqb a b = false <-> a <> b.
Proof. apply N.eqb_neq. Qed.

Lemma char_eqb_refl (a : char) : char_eqb a a = true.
Proof. apply N.eqb_refl. Qed.

(** Induction on the length of a string. *)
Lemma str_length_ind (P : str -> Prop) :
  (forall s, (forall t, List.length t < List.length s -> P t) -> P s) ->
  forall s, P s.
Proof.
  intros step s.
  remember (List.length s) as n eqn:En.
  revert s En.
  induction n as [n IH] using lt_wf_ind.
  intros s ->. apply step. intros t Ht. exact (IH _ Ht t eq_refl).
Qed.

Lemma startswith_app (p s : str) : startswith p (p ++ s) = true.
Proof.
  induction p as [|a p IH]; simpl; [reflexivity|].
  now rewrite char_eqb_refl, IH.
Qed.

Lemma startswith_split (p s : str) :
  startswith p s = true -> s = p ++ skipn (List.length p) s.
Proof.
  revert s. induction p as [|a p IH]; intros s H; simpl in *.
  - reflexivity.
  - destruct s as [|b s]; [discriminate|].
    apply andb_true_iff in H as [Hab Hp].
    apply char_eqb_eq in Hab. subst b.
    simpl. f_equal. now apply IH.
Qed.

Lemma startswith_nil_r (p : str) : startswith p [] = true -> p = [].
Proof. destruct p; simpl; [reflexivity | discriminate]. Qed.

Lemma startswith_app_r (p s t : str) :
  startswith p s = true -> startswith p (s ++ t) = true.
Proof.
  intros H. rewrite (startswith_split _ _ H), <- app_assoc.
  apply startswith_app.
Qed.

(** ** The scanner *)

Lemma sub_from_skipn (m : str -> option nat) (repl : str) (k : nat) (s : str) :
  sub_from m repl k s = sub m repl (skipn k s).
Proof.
  revert k. induction s as [|c s IH]; intros [|k]; simpl; try reflexivity.
  apply IH.
Qed.

(** The equation of [sub] at a non-empty text. *)
Lemma sub_cons (m : str -> option nat) (repl : str) (c : char) (s : str) :
  sub m repl (c :: s) =
  match m (c :: s) with
  | Some (S n) => repl ++ sub m repl (skipn n s)
  | _ => c :: sub m repl s
  end.
Proof.
  unfold sub at 1. simpl.
  destruct (m (c :: s)) as [[|n]|]; try reflexivity.
  now rewrite sub_from_skipn.
Qed.

Lemma length_skipn_le (n : nat) (s : str) :
  List.length (skipn n s) <= List.length s.
Proof. rewrite length_skipn. lia. Qed.

(** ** Blank-line compaction (step 9) *)

#[local] Arguments Nat.leb : simpl never.

Lemma newlines_cons (c : char) (s : str) :
  newlines (c :: s) = if char_eqb c LF then S (newlines s) else 0.
Proof. reflexivity. Qed.

Lemma newlines_skipn (s : str) : newlines (skipn (newlines s) s) = 0.
Proof.
  induction s as [|c s IH]; simpl; [reflexivity|].
  destruct (char_eqb c LF) eqn:E; simpl; [exact IH | now rewrite E].
Qed.

Lemma collapse_cons (c : char) (s : str) :
  collapse (c :: s) =
  if 3 <=? newlines (c :: s)
  then LF :: LF :: collapse (skipn (newlines (c :: s)) (c :: s))
  else c :: collapse s.
Proof.
  unfold collapse. rewrite sub_cons. unfold match_blank_lines.
  destruct (3 <=? newlines (c :: s)) eqn:E; [|reflexivity].
  apply Nat.leb_le in E.
  destruct (newlines (c :: s)) as [|n] eqn:En; [lia|].
  reflexivity.
Qed.

Lemma newlines_collapse (s : str) :
  newlines (collapse s) = if 3 <=? newlines s then 2 else newlines s.
Proof.
  induction s as [s IH] using str_length_ind.
  destruct s as [|c s]; [reflexivity|].
  rewrite collapse_cons.
  destruct (3 <=? newlines (c :: s)) eqn:E.
  - change (newlines (LF :: LF :: ?t)) with (S (S (newlines t))).
    rewrite IH.
    + now rewrite newlines_skipn.
    + apply Nat.leb_le in E.
      destruct (newlines (c :: s)) eqn:En; [lia|].
      simpl. pose proof (length_skipn_le n s). lia.
  - apply Nat.leb_gt in E. rewrite !newlines_cons in *.
    destruct (char_eqb c LF); [|reflexivity].
    rewrite IH by (simpl; lia).
    destruct (3 <=? newlines s) eqn:E'; [apply Nat.leb_le in E'; lia|].
    reflexivity.
Qed.

(** C5. Blank-line compaction is idempotent: compacting a compacted text
    changes nothing. *)
Theorem collapse_idempotent (s : str) : collapse (collapse s) = collapse s.
Proof.
  induction s as [s IH] using str_length_ind.
  destruct s as [|c s]; [reflexivity|].
  rewrite collapse_cons.
  destruct (3 <=? newlines (c :: s)) eqn:E.
  - set (rest := skipn (newlines (c :: s)) (c :: s)).
    assert (Hrest : newlines (collapse rest) = 0).
    { rewrite newlines_collapse. unfold rest. now rewrite newlines_skipn. }
    assert (Hlen : List.length rest < List.length (c :: s)).
    { apply Nat.leb_le in E. unfold rest.
      destruct (newlines (c :: s)) eqn:En; [lia|].
      simpl. pose proof (length_skipn_le n s). lia. }
    rewrite collapse_cons.
    change (newlines (LF :: LF :: ?t)) with (S (S (newlines t))).
    rewrite Hrest. simpl (3 <=? 2).
    cbv iota. rewrite collapse_cons.
    change (newlines (LF :: ?t)) with (S (newlines t)).
    rewrite Hrest. simpl (3 <=? 1). cbv iota.
    now rewrite IH.
  - rewrite collapse_cons.
    assert (Hs : newlines (c :: collapse s) = newlines (c :: s)).
    { apply Nat.leb_gt in E. rewrite !newlines_cons in *.
      destruct (char_eqb c LF); [|reflexivity].
      rewrite newlines_collapse.
      destruct (3 <=? newlines s) eqn:E'; [apply Nat.leb_le in E'; lia|].
      reflexivity. }
    rewrite Hs, E. now rewrite IH by (simpl; lia).
Qed.

(** Induction on a tree, with the property for the children of an
    element. *)
Lemma node_tree_ind (P : node -> Prop) :
  (forall s, P (Text s)) ->
  (forall name kids, Forall P kids -> P (Tag name kids)) ->
  forall n, P n.
Proof.
  intros HText HTag. fix IH 1. intros [s|name kids].
  - apply HText.
  - apply HTag. induction kids as [|k kids IHkids]; constructor.
    + apply IH.
    + exact IHkids.
Qed.

(** ** The loops and the passes *)

Module DomFacts.

Import Dom.

Lemma elem_tree_ind (P : elem -> Prop) :
  (forall s, P (Str s)) ->
  (forall name before after string replaced_by kids,
      Forall P kids -> P (Elem name before after string replaced_by kids)) ->
  forall e, P e.
Proof.
  intros HStr HElem. fix IH 1. intros [s|name b a st rp kids].
  - apply HStr.
  - apply HElem. induction kids as [|k kids IHkids]; constructor.
    + apply IH.
    + exact IHkids.
Qed.

Lemma bind_ok (A : Type) (c : result A) : (a <- c ;; Ok a) = c.
Proof. now destruct c. Qed.

Lemma bind_assoc (A B C : Type) (c : result A) (f : A -> result B)
  (g : B -> result C) :
  (b <- (a <- c ;; f a) ;; g b) = (a <- c ;; b <- f a ;; g b).
Proof. now destruct c. Qed.

Lemma nodes_parsed (n : node) : nodes (parsed n) = [n].
Proof.
  induction n as [s|name kids IH] using node_tree_ind; [reflexivity|].
  cbn [parsed nodes List.map app]. do 2 f_equal.
  induction IH as [|k kids Hk _ IHkids]; [reflexivity|].
  cbn [List.map flat_map]. now rewrite Hk, IHkids.
Qed.

Lemma flat_map_nodes_parsed (soup : list node) :
  flat_map nodes (List.map parsed soup) = soup.
Proof.
  induction soup as [|n soup IH]; [reflexivity|].
  cbn [List.map flat_map]. now rewrite nodes_parsed, IH.
Qed.

Lemma nth_error_middle (l1 : list elem) (e : elem) (l2 : list elem) :
  nth_error (l1 ++ e :: l2) (List.length l1) = Some e.
Proof. induction l1 as [|k l1 IH]; [reflexivity | exact IH]. Qed.

Lemma set_nth_middle (l1 : list elem) (e e' : elem) (l2 : list elem) :
  set_nth (List.length l1) e' (l1 ++ e :: l2) = l1 ++ e' :: l2.
Proof.
  induction l1 as [|k l1 IH]; [reflexivity|].
  cbn [List.length app set_nth]. now rewrite IH.
Qed.

Section Walk.

(** One change per handle, which leaves the children of the element alone. *)
Variable op : bool -> elem -> result elem.
Variable names : list string.

Hypothesis op_keeps_children :
  forall orphan e e',
    op orphan e = Ok e' ->
    is_elem e' = true /\ children e' = children e.

Lemma change_middle (i : nat) (h : handle) (orphan : bool)
  (l1 : list elem) (e : elem) (l2 : list elem) :
  i = List.length l1 ->
  change (i :: h) orphan op (l1 ++ e :: l2)
  = (e' <- change_in op h orphan e ;; Ok (l1 ++ e' :: l2)).
Proof.
  intros ->. cbn [change]. rewrite nth_error_middle.
  unfold change_in.
  destruct h as [|j h].
  - destruct (op orphan e); cbn [bind]; [|reflexivity].
    now rewrite set_nth_middle.
  - destruct e as [s|name b a st rp kids]; [reflexivity|].
    cbn [cleared with_children].
    destruct (change (j :: h) (is_some st) op kids); cbn [bind];
      [|reflexivity].
    now rewrite set_nth_middle.
Qed.

Lemma fold_raise (A : Type) (f : handle -> A -> result A) (hs : list handle)
  (x : exn) :
  fold_left (fun acc h => a <- acc ;; f h a) hs (Raise x) = Raise x.
Proof. induction hs as [|h hs IH]; [reflexivity | exact IH]. Qed.

Lemma fold_bind (A : Type) (f : handle -> A -> result A) (hs : list handle)
  (c : result A) :
  fold_left (fun acc h => a <- acc ;; f h a) hs c
  = (a <- c ;; fold_left (fun acc h => a <- acc ;; f h a) hs (Ok a)).
Proof.
  destruct c as [a|x]; [reflexivity|]. cbn [bind]. apply fold_raise.
Qed.

Lemma run_handles_app (orphan : bool) (hs1 hs2 : list handle)
  (doc : list elem) :
  run_handles op orphan (hs1 ++ hs2) doc
  = (doc' <- run_handles op orphan hs1 doc ;; run_handles op orphan hs2 doc').
Proof.
  unfold run_handles. rewrite fold_left_app.
  now rewrite fold_bind.
Qed.

Lemma run_handles_middle (i : nat) (hs : list handle) (orphan : bool)
  (l1 : list elem) (e : elem) (l2 : list elem) :
  i = List.length l1 ->
  run_handles op orphan (List.map (cons i) hs) (l1 ++ e :: l2)
  = (e' <- run_in op orphan hs e ;; Ok (l1 ++ e' :: l2)).
Proof.
  intros Hi. revert e. induction hs as [|h hs IH]; intros e; [reflexivity|].
  unfold run_handles, run_in in *. cbn [List.map fold_left bind].
  rewrite (change_middle h orphan l1 e l2 Hi).
  rewrite fold_bind with (c := change_in op h orphan e).
  rewrite fold_bind
    with (c := (e' <- change_in op h orphan e ;; Ok (l1 ++ e' :: l2))).
  destruct (change_in op h orphan e) as [e'|x]; cbn [bind]; [|reflexivity].
  apply IH.
Qed.

(** The handles below an element change its children only. *)
Lemma run_in_children (hs : list handle) (orphan : bool) (e : elem) :
  is_elem e = true ->
  Forall (fun h => h <> []) hs ->
  run_in op orphan hs e
  = (kids' <- run_handles op (cleared e) hs (children e) ;;
     Ok (with_children e kids')).
Proof.
  intros He Hhs. destruct e as [s|name b a st rp kids]; [discriminate He|].
  clear He. revert kids.
  induction Hhs as [|h hs Hh _ IH]; intros kids; [reflexivity|].
  unfold run_in, run_handles in *. cbn [fold_left bind].
  destruct h as [|j h]; [congruence|].
  cbn [change_in cleared children with_children] in *.
  rewrite fold_bind with (c := change (j :: h) (is_some st) op kids).
  rewrite fold_bind
    with (c := (kids' <- change (j :: h) (is_some st) op kids ;;
                Ok (Elem name b a st rp kids'))).
  destruct (change (j :: h) (is_some st) op kids) as [kids'|x];
    cbn [bind]; [|reflexivity].
  apply IH.
Qed.

Lemma handles_nonempty (i : nat) (l : list elem) :
  Forall (fun h => h <> []) (handles_from names i l).
Proof.
  revert i. induction l as [|k l IH]; intros i; cbn [handles_from].
  - constructor.
  - apply Forall_app. split; [|apply IH].
    apply Forall_forall. intros h Hh. apply in_map_iff in Hh as [h' [<- _]].
    discriminate.
Qed.

Lemma handles_eq (e : elem) :
  handles names e
  = match e with
    | Str _ => []
    | Elem name _ _ string replaced_by kids =>
        match replaced_by with
        | Some _ => []
        | None =>
            (if name_in names name then [[]] else [])
            ++ match string with
               | Some _ => []
               | None => handles_from names 0 kids
               end
        end
    end.
Proof.
  destruct e as [s|name b a st rp kids]; [reflexivity|].
  cbn [handles]. destruct rp; [reflexivity|]. f_equal.
  destruct st; [reflexivity|].
  generalize 0. induction kids as [|k kids IH]; intros i; [reflexivity|].
  cbn [handles_from]. now rewrite IH.
Qed.

Lemma walk_eq (orphan : bool) (e : elem) :
  walk op names orphan e
  = match e with
    | Str _ => Ok e
    | Elem name _ _ string replaced_by kids =>
        match replaced_by with
        | Some _ => Ok e
        | None =>
            e1 <- (if name_in names name then op orphan e else Ok e) ;;
            match string with
            | Some _ => Ok e1
            | None =>
                kids' <- walk_all op names (cleared e1) kids ;;
                Ok (with_children e1 kids')
            end
        end
    end.
Proof.
  destruct e as [s|name b a st rp kids]; [reflexivity|].
  cbn [walk]. destruct rp; [reflexivity|].
  destruct (if name_in names name then op orphan _ else Ok _) as [e1|x];
    [|reflexivity].
  cbn [bind]. destruct st; [reflexivity|]. f_equal.
  induction kids as [|k kids IH]; [reflexivity|].
  cbn [walk_all]. now rewrite IH.
Qed.

(** The loop over the handles of an element is the walk op names over it. *)
Lemma run_in_handles (e : elem) :
  forall orphan, run_in op orphan (handles names e) e = walk op names orphan e.
Proof.
  induction e as [s|name b a st rp kids IH] using elem_tree_ind;
    intros orphan; [reflexivity|].
  rewrite handles_eq, walk_eq.
  destruct rp as [r|]; [reflexivity|].
  set (e := Elem name b a st None kids).
  assert (Hkids : forall o l1,
    run_handles op o (handles_from names (List.length l1) kids) (l1 ++ kids)
    = (kids' <- walk_all op names o kids ;; Ok (l1 ++ kids'))).
  { clear e. intros o. induction IH as [|k kids Hk _ IHkids]; intros l1.
    - cbn. now rewrite app_nil_r.
    - cbn [handles_from walk_all]. rewrite run_handles_app.
      rewrite (run_handles_middle _ o l1 k kids eq_refl), Hk.
      rewrite !bind_assoc.
      destruct (walk op names o k) as [k'|x]; cbn [bind]; [|reflexivity].
      replace (l1 ++ k' :: kids) with ((l1 ++ [k']) ++ kids)
        by now rewrite <- app_assoc.
      replace (S (List.length l1)) with (List.length (l1 ++ [k']))
        by (rewrite length_app; cbn; lia).
      rewrite IHkids. rewrite bind_assoc.
      destruct (walk_all op names o kids) as [kids'|x]; cbn [bind];
        [|reflexivity].
      now rewrite <- app_assoc. }
  assert (Hbelow : forall e1,
    is_elem e1 = true -> children e1 = kids ->
    run_in op orphan (handles_from names 0 kids) e1
    = (kids' <- walk_all op names (cleared e1) kids ;;
       Ok (with_children e1 kids'))).
  { intros e1 He1 Hc.
    rewrite run_in_children by (exact He1 || apply handles_nonempty).
    pose proof (Hkids (cleared e1) []) as Hk0.
    cbn [List.length app] in Hk0. rewrite Hc, Hk0.
    now rewrite bind_assoc. }
  destruct (name_in names name) eqn:Hname.
  - unfold run_in. cbn [app fold_left bind change_in].
    fold (run_in op orphan (match st with
                         | Some _ => []
                         | None => handles_from names 0 kids
                         end)).
    rewrite fold_bind. fold e.
    destruct (op orphan e) as [e1|x] eqn:Hop; cbn [bind]; [|reflexivity].
    destruct (@op_keeps_children _ _ _ Hop) as [He1 Hc].
    destruct st; [reflexivity|].
    now apply Hbelow.
  - cbn [app bind]. destruct st; [reflexivity|].
    now apply Hbelow.
Qed.

Lemma run_handles_find_all (doc : list elem) :
  run_handles op false (find_all names doc) doc = walk_all op names false doc.
Proof.
  assert (H : forall l1,
    run_handles op false (handles_from names (List.length l1) doc) (l1 ++ doc)
    = (doc' <- walk_all op names false doc ;; Ok (l1 ++ doc'))).
  { induction doc as [|k doc IH]; intros l1.
    - cbn. now rewrite app_nil_r.
    - cbn [handles_from walk_all]. rewrite run_handles_app.
      rewrite (run_handles_middle _ false l1 k doc eq_refl), run_in_handles.
      rewrite !bind_assoc.
      destruct (walk op names false k) as [k'|x]; cbn [bind]; [|reflexivity].
      replace (l1 ++ k' :: doc) with ((l1 ++ [k']) ++ doc)
        by now rewrite <- app_assoc.
      replace (S (List.length l1)) with (List.length (l1 ++ [k']))
        by (rewrite length_app; cbn; lia).
      rewrite IH. rewrite bind_assoc.
      destruct (walk_all op names false doc) as [doc'|x]; cbn [bind];
        [|reflexivity].
      now rewrite <- app_assoc. }
  pose proof (H []) as H0. cbn [List.length app] in H0.
  unfold find_all. rewrite H0. apply bind_ok.
Qed.

End Walk.

Lemma nth_error_set_nth (i : nat) (e e' : elem) (l : list elem) :
  nth_error l i = Some e -> nth_error (set_nth i e' l) i = Some e'.
Proof.
  revert i. induction l as [|k l IH]; intros [|i] H; try discriminate H.
  - reflexivity.
  - cbn [set_nth nth_error] in *. now apply IH.
Qed.

Lemma set_nth_set_nth (i : nat) (e e' : elem) (l : list elem) :
  set_nth i e' (set_nth i e l) = set_nth i e' l.
Proof.
  revert i. induction l as [|k l IH]; intros [|i]; try reflexivity.
  cbn [set_nth]. now rewrite IH.
Qed.

(** Two changes of one element are one change. *)
Lemma change_change (opA opB : bool -> elem -> result elem) (h : handle) :
  forall orphan doc,
    (doc' <- change h orphan opA doc ;; change h orphan opB doc')
    = change h orphan (fun o e => e' <- opA o e ;; opB o e') doc.
Proof.
  induction h as [|i h IH]; intros orphan doc; [reflexivity|].
  cbn [change]. destruct (nth_error doc i) as [e|] eqn:Hi; [|reflexivity].
  destruct h as [|j h].
  - destruct (opA orphan e) as [e'|x]; cbn [bind]; [|reflexivity].
    rewrite (nth_error_set_nth _ _ _ Hi).
    destruct (opB orphan e') as [e''|x]; cbn [bind]; [|reflexivity].
    now rewrite set_nth_set_nth.
  - destruct e as [s|name b a st rp kids]; [reflexivity|].
    rewrite <- IH.
    destruct (change (j :: h) (is_some st) opA kids) as [kids'|x];
      cbn [bind]; [|reflexivity].
    rewrite (nth_error_set_nth _ _ _ Hi).
    destruct (change (j :: h) (is_some st) opB kids') as [kids''|x];
      cbn [bind]; [|reflexivity].
    now rewrite set_nth_set_nth.
Qed.

(** A change computed from the element it is made to. *)
Lemma get_change (F : elem -> bool -> elem -> result elem) (h : handle) :
  forall orphan doc,
    (e <- get h doc ;; change h orphan (F e) doc)
    = change h orphan (fun o e => F e o e) doc.
Proof.
  induction h as [|i h IH]; intros orphan doc; [reflexivity|].
  cbn [get change]. destruct (nth_error doc i) as [e|] eqn:Hi; [|reflexivity].
  destruct h as [|j h]; [reflexivity|].
  destruct e as [s|name b a st rp kids]; [reflexivity|].
  rewrite <- IH.
  destruct (get (j :: h) kids) as [e|x]; reflexivity.
Qed.

Lemma for_each_run_handles (op : bool -> elem -> result elem)
  (body : handle -> list elem -> result (list elem)) (hs : list handle)
  (doc : list elem) :
  (forall h d, body h d = change h false op d) ->
  for_each hs body doc = run_handles op false hs doc.
Proof.
  intros Hbody. unfold for_each, run_handles.
  generalize (Ok doc). induction hs as [|h hs IH]; intros c; [reflexivity|].
  cbn [fold_left]. rewrite IH. f_equal.
  destruct c as [d|x]; [apply Hbody | reflexivity].
Qed.

(** The walk over a list of elements, from what it does to each. *)
Lemma walk_all_nodes (op : bool -> elem -> result elem)
  (names : list string) (g : node -> list node) (orphan : bool)
  (kids : list elem) :
  Forall (fun k => exists k', walk op names orphan k = Ok k'
                              /\ nodes k' = flat_map g (nodes k)) kids ->
  exists kids', walk_all op names orphan kids = Ok kids'
                /\ flat_map nodes kids' = flat_map g (flat_map nodes kids).
Proof.
  induction 1 as [|k kids (k' & Hk & Hn) _ (kids' & Hkids & Hns)].
  - now exists [].
  - exists (k' :: kids'). cbn [walk_all]. rewrite Hk, Hkids. split.
    + reflexivity.
    + cbn [flat_map]. now rewrite flat_map_app, Hn, Hns.
Qed.

Lemma flat_map_texts (g : node -> list node) (l : list str) :
  (forall s, g (Text s) = [Text s]) ->
  flat_map g (List.map Text l) = List.map Text l.
Proof.
  intros Hg. induction l as [|s l IH]; [reflexivity|].
  cbn [List.map flat_map]. now rewrite Hg, IH.
Qed.

(** What a pass makes of the nodes of an element, from what it makes of
    the element's own node. *)
Lemma flat_map_nodes (g : node -> list node) (before after : list str)
  (n : node) :
  (forall s, g (Text s) = [Text s]) ->
  flat_map g (List.map Text before ++ [n] ++ List.map Text after)
  = List.map Text before ++ g n ++ List.map Text after.
Proof.
  intros Hg. rewrite !flat_map_app, !flat_map_texts by exact Hg.
  cbn [flat_map]. now rewrite app_nil_r.
Qed.

(** *** Step 3 *)

Lemma bullet_op_keeps_children (orphan : bool) (e e' : elem) :
  bullet_op orphan e = Ok e' ->
  is_elem e' = true /\ children e' = children e.
Proof.
  unfold bullet_op. destruct e as [s|name b a st rp kids]; [discriminate|].
  destruct orphan, rp; cbn; intros H; try discriminate H;
    injection H as H; subst e'; split; reflexivity.
Qed.

Lemma walk_bullets (e : elem) :
  exists e', walk bullet_op ["li"%string] false e = Ok e'
             /\ nodes e' = flat_map bullet (nodes e).
Proof.
  induction e as [s|name b a st rp kids IH] using elem_tree_ind.
  - now exists (Str s).
  - rewrite walk_eq.
    destruct rp as [r|].
    { eexists. split; [reflexivity|]. cbn [nodes].
      now rewrite flat_map_nodes. }
    apply walk_all_nodes in IH as (kids' & Hkids & Hns).
    cbn [nodes]. rewrite flat_map_nodes by reflexivity. cbn [bullet].
    destruct (name_in ["li"%string] name), st as [s|];
      cbn [bullet_op insert_before_op insert_after_op orb is_some bind
           cleared with_children];
      try rewrite Hkids; cbn [bind];
      (eexists; split; [reflexivity|]); cbn [nodes flat_map bullet];
      rewrite ?Hns, ?map_app, <- ?app_assoc; reflexivity.
Qed.

Lemma bullets_loop_nodes (soup : list elem) :
  exists soup', bullets_loop soup = Ok soup'
                /\ flat_map nodes soup'
                   = lists_to_bullets (flat_map nodes soup).
Proof.
  unfold bullets_loop.
  rewrite (@for_each_run_handles bullet_op).
  - rewrite (@run_handles_find_all bullet_op ["li"%string]
               bullet_op_keeps_children).
    apply walk_all_nodes, Forall_forall. intros e _. apply walk_bullets.
  - intros h d. unfold insert_before, insert_after. apply change_change.
Qed.

Section Loops.

Variable to_upper_full : char -> str.
Variable tabulate : list (list str) -> list str -> str.

(** *** Step 4 *)

Lemma heading_op_keeps_children (orphan : bool) (e e' : elem) :
  (heading_op to_upper_full) orphan e = Ok e' ->
  is_elem e' = true /\ children e' = children e.
Proof.
  unfold heading_op. destruct e as [s|name b a st rp kids]; [discriminate|].
  cbn. intros H. injection H as H. subst e'. split; reflexivity.
Qed.

Lemma flat_map_style_nodes (l : list node) :
  flat_map (style_nodes to_upper_full) l
  = List.map (style_heading to_upper_full) l.
Proof. induction l as [|n l IH]; [reflexivity|]. cbn. now rewrite IH. Qed.

Lemma walk_headings (e : elem) :
  forall orphan,
  exists e', walk (heading_op to_upper_full) heading_names orphan e = Ok e'
             /\ nodes e' = flat_map (style_nodes to_upper_full) (nodes e).
Proof.
  induction e as [s|name b a st rp kids IH] using elem_tree_ind;
    intros orphan.
  - now exists (Str s).
  - rewrite walk_eq.
    destruct rp as [r|].
    { eexists. split; [reflexivity|]. cbn [nodes].
      now rewrite flat_map_nodes. }
    cbn [nodes]. rewrite flat_map_nodes by reflexivity.
    unfold style_nodes at 1. cbn [style_heading].
    destruct (name_in heading_names name), st as [s|];
      cbn [heading_op set_string_op bind cleared with_children is_some tag].
    + eexists. split; reflexivity.
    + assert (Hall : Forall (fun k => exists k',
          walk (heading_op to_upper_full) heading_names true k = Ok k'
          /\ nodes k' = flat_map (style_nodes to_upper_full) (nodes k)) kids).
      { apply Forall_forall. intros k Hk.
        rewrite Forall_forall in IH. now apply IH. }
      apply walk_all_nodes in Hall as (kids' & Hkids & _).
      rewrite Hkids. cbn [bind]. eexists. split; reflexivity.
    + eexists. split; reflexivity.
    + assert (Hall : Forall (fun k => exists k',
          walk (heading_op to_upper_full) heading_names false k = Ok k'
          /\ nodes k' = flat_map (style_nodes to_upper_full) (nodes k)) kids).
      { apply Forall_forall. intros k Hk.
        rewrite Forall_forall in IH. now apply IH. }
      apply walk_all_nodes in Hall as (kids' & Hkids & Hns).
      rewrite Hkids. cbn [bind]. eexists. split; [reflexivity|].
      cbn [nodes]. now rewrite Hns, flat_map_style_nodes.
Qed.

Lemma headings_loop_nodes (soup : list elem) :
  exists soup', headings_loop to_upper_full soup = Ok soup'
                /\ flat_map nodes soup'
                   = headings_to_underlined to_upper_full
                       (flat_map nodes soup).
Proof.
  unfold headings_loop, headings_to_underlined.
  rewrite (@for_each_run_handles (heading_op to_upper_full)).
  - rewrite (@run_handles_find_all (heading_op to_upper_full) heading_names
               heading_op_keeps_children).
    rewrite <- flat_map_style_nodes.
    apply walk_all_nodes, Forall_forall. intros e _. apply walk_headings.
  - intros h d. unfold set_string.
    apply (get_change
             (fun e => set_string_op (heading_string to_upper_full (tag e)))).
Qed.

(** *** Step 5 *)

Lemma table_op_keeps_children (orphan : bool) (e e' : elem) :
  (table_op tabulate) orphan e = Ok e' ->
  is_elem e' = true /\ children e' = children e.
Proof.
  unfold table_op. destruct e as [s|name b a st rp kids]; [discriminate|].
  destruct orphan, rp; cbn; intros H; try discriminate H;
    injection H as H; subst e'; split; reflexivity.
Qed.

Lemma flat_map_table_nodes (l : list node) :
  flat_map (table_nodes tabulate) l = List.map (render_table tabulate) l.
Proof. induction l as [|n l IH]; [reflexivity|]. cbn. now rewrite IH. Qed.

Lemma walk_tables (e : elem) :
  exists e', walk (table_op tabulate) ["table"%string] false e = Ok e'
             /\ nodes e' = flat_map (table_nodes tabulate) (nodes e).
Proof.
  induction e as [s|name b a st rp kids IH] using elem_tree_ind.
  - now exists (Str s).
  - rewrite walk_eq.
    destruct rp as [r|].
    { eexists. split; [reflexivity|]. cbn [nodes].
      now rewrite flat_map_nodes. }
    apply walk_all_nodes in IH as (kids' & Hkids & Hns).
    cbn [nodes]. rewrite flat_map_nodes by reflexivity.
    unfold table_nodes at 1. cbn [render_table].
    destruct (name_in ["table"%string] name), st as [s|];
      cbn [table_op replace_with_op orb is_some bind cleared with_children
           tag];
      try rewrite Hkids; cbn [bind];
      (eexists; split; [reflexivity|]); cbn [nodes];
      rewrite ?Hns, ?flat_map_table_nodes; reflexivity.
Qed.

Lemma tables_loop_nodes (soup : list elem) :
  exists soup', tables_loop tabulate soup = Ok soup'
                /\ flat_map nodes soup'
                   = tables_to_tabulate tabulate (flat_map nodes soup).
Proof.
  unfold tables_loop, tables_to_tabulate.
  rewrite (@for_each_run_handles (table_op tabulate)).
  - rewrite (@run_handles_find_all (table_op tabulate) ["table"%string]
               table_op_keeps_children).
    rewrite <- flat_map_table_nodes.
    apply walk_all_nodes, Forall_forall. intros e _. apply walk_tables.
  - intros h d. unfold replace_with.
    apply (get_change
             (fun e => replace_with_op (table_string tabulate (tag e)))).
Qed.

(** The loops raise no exception, and leave the document the three
    passes describe. *)
Lemma run_render (soup : list node) :
  run to_upper_full tabulate soup = Ok (render to_upper_full tabulate soup).
Proof.
  unfold run, render, extract_text.
  destruct (bullets_loop_nodes (List.map parsed soup)) as (s1 & -> & H1).
  cbn [bind].
  destruct (headings_loop_nodes s1) as (s2 & -> & H2). cbn [bind].
  destruct (tables_loop_nodes s2) as (s3 & -> & H3). cbn [bind].
  now rewrite H3, H2, H1, flat_map_nodes_parsed.
Qed.

End Loops.

End DomFacts.

(** ** The library calls of the renderer *)

Module RaisingFacts.

(** A loop whose rounds either do what the rounds of another loop do, or
    end with the exception of a library call, does the same as a whole. *)
Lemma fold_tree_or_library (P : foreign -> Prop) (xs : list Dom.handle)
  (body : Dom.handle -> list Dom.elem -> Raising.result (list Dom.elem))
  (body' : Dom.handle -> list Dom.elem -> Dom.result (list Dom.elem)) :
  (forall x doc,
      body x doc = Raising.tree (body' x doc)
      \/ exists f, P f /\ body x doc = Raising.Raise (Raising.Library f)) ->
  forall acc acc',
    (acc = Raising.tree acc'
     \/ exists f, P f /\ acc = Raising.Raise (Raising.Library f)) ->
    let loop :=
      fold_left (fun acc x => Raising.bind acc (fun doc => body x doc))
        xs acc in
    loop
    = Raising.tree
        (fold_left (fun acc x => Dom.bind acc (fun doc => body' x doc))
           xs acc')
    \/ exists f, P f /\ loop = Raising.Raise (Raising.Library f).
Proof.
  intros Hbody. induction xs as [|x xs IH]; intros acc acc' Hacc.
  - exact Hacc.
  - cbn [fold_left]. apply IH.
    destruct Hacc as [->|(f & Hf & ->)].
    + destruct acc' as [doc|e]; cbn; [apply Hbody | now left].
    + right. now exists f.
Qed.

Section Loops.

Variable to_upper_full : char -> str.
Variable tabulate : list (list str) -> list str -> reply str.

Lemma tables_loop_tree_or_library (soup : list Dom.elem) :
  Raising.tables_loop tabulate soup
  = Raising.tree (Dom.tables_loop (returned tabulate) soup)
  \/ exists f,
       (exists rows headers, tabulate rows headers = Failed f)
       /\ Raising.tables_loop tabulate soup
          = Raising.Raise (Raising.Library f).
Proof.
  unfold Raising.tables_loop, Raising.for_each, Dom.tables_loop, Dom.for_each.
  apply (fold_tree_or_library
           (fun f => exists rows headers, tabulate rows headers = Failed f));
    [|now left].
  intros table doc. destruct (Dom.get table doc) as [element|e]; cbn.
  - unfold table_string, returned.
    destruct (tabulate (table_rows (Dom.tag element))
                (table_headers (Dom.tag element))) as [pretty|f] eqn:E; cbn.
    + now left.
    + right. exists f. split; [|reflexivity]. eexists. eexists. exact E.
  - now left.
Qed.

(** The renderer returns the text the passes describe, or it ends with an
    exception [tabulate] raised: no call on the tree raises. *)
Lemma run_returns_or_library (soup : list node) :
  Raising.run to_upper_full tabulate soup
  = Raising.Ok (render to_upper_full (returned tabulate) soup)
  \/ exists f,
       (exists rows headers, tabulate rows headers = Failed f)
       /\ Raising.run to_upper_full tabulate soup
          = Raising.Raise (Raising.Library f).
Proof.
  unfold Raising.run, render, extract_text.
  destruct (DomFacts.bullets_loop_nodes (List.map Dom.parsed soup))
    as (s1 & -> & H1).
  cbn [Raising.tree Raising.bind].
  destruct (DomFacts.headings_loop_nodes to_upper_full s1) as (s2 & -> & H2).
  cbn [Raising.tree Raising.bind].
  destruct (tables_loop_tree_or_library s2) as [->|(f & Hf & ->)].
  - destruct (DomFacts.tables_loop_nodes (returned tabulate) s2)
      as (s3 & -> & H3).
    cbn [Raising.tree Raising.bind]. left.
    now rewrite H3, H2, H1, DomFacts.flat_map_nodes_parsed.
  - right. now exists f.
Qed.

Lemma run_returns (soup : list node) :
  (forall rows headers, exists pretty, tabulate rows headers = Done pretty) ->
  Raising.run to_upper_full tabulate soup
  = Raising.Ok (render to_upper_full (returned tabulate) soup).
Proof.
  intros Hdone.
  destruct (run_returns_or_library soup) as [H|(f & (rows & headers & Hf) & _)];
    [exact H|].
  destruct (Hdone rows headers) as [pretty Hp]. congruence.
Qed.

End Loops.

(** With library calls that return, [Raising] has the renderer of the
    sections above. *)
Lemma markdown_to_plain_text_returning (to_upper_full : char -> str)
  (tabulate : list (list str) -> list str -> str) (parse : str -> list node)
  (md_text : str) :
  Raising.markdown_to_plain_text to_upper_full
    (fun rows headers => Done (tabulate rows headers))
    (fun md_text => Done (parse md_text)) md_text
  = Raising.tree (markdown_to_plain_text to_upper_full tabulate parse md_text).
Proof.
  unfold Raising.markdown_to_plain_text, markdown_to_plain_text.
  cbn [Raising.library Raising.bind].
  rewrite run_returns by (intros rows headers; now eexists).
  now rewrite DomFacts.run_render.
Qed.

End RaisingFacts.

(** ** Trimming (step 10 and the return statement) *)

Lemma lstrip_space_first (s : str) : space_first (lstrip s) = false.
Proof.
  induction s as [|c s IH]; simpl; [reflexivity|].
  destruct (isspace c) eqn:E; [exact IH | simpl; exact E].
Qed.

Lemma lstrip_suffix (s : str) : exists w, s = w ++ lstrip s.
Proof.
  induction s as [|c s [w IH]]; simpl.
  - now exists [].
  - destruct (isspace c).
    + exists (c :: w). simpl. now f_equal.
    + now exists [].
Qed.

Lemma rstrip_prefix (s : str) : exists w, s = rstrip s ++ w.
Proof.
  destruct (lstrip_suffix (rev s)) as [w Hw].
  exists (rev w). unfold rstrip.
  rewrite <- rev_app_distr, <- Hw. now rewrite rev_involutive.
Qed.

Lemma rev_rstrip (s : str) : rev (rstrip s) = lstrip (rev s).
Proof. unfold rstrip. apply rev_involutive. Qed.

Lemma strip_space_first (s : str) : space_first (strip s) = false.
Proof.
  unfold strip.
  destruct (rstrip_prefix (lstrip s)) as [w Hw].
  pose proof (lstrip_space_first s) as H.
  rewrite Hw in H.
  destruct (rstrip (lstrip s)); [reflexivity | exact H].
Qed.

Lemma strip_space_last (s : str) : space_first (rev (strip s)) = false.
Proof. unfold strip. rewrite rev_rstrip. apply lstrip_space_first. Qed.

Lemma space_first_newline (s : str) :
  space_first s = false -> startswith [LF] s = false.
Proof.
  destruct s as [|c s]; simpl; [reflexivity|].
  intros H. destruct (char_eqb LF c) eqn:E; [|reflexivity].
  apply char_eqb_eq in E. subst c. discriminate.
Qed.

Lemma cleanup_trimmed (text : str) :
  let out := cleanup text in
  space_first out = false /\ space_first (rev out) = false
  /\ startswith [LF] out = false /\ endswith out [LF] = false.
Proof.
  intros out. unfold out, cleanup, finish.
  repeat split.
  - apply strip_space_first.
  - apply strip_space_last.
  - apply space_first_newline, strip_space_first.
  - unfold endswith. apply space_first_newline, strip_space_last.
Qed.

(** C10. [markdown_to_plain_text] returns a text that has no whitespace
    character at its start and none at its end; in particular the text
    neither begins nor ends with a line break. *)
Theorem rendered_text_is_trimmed
  (to_upper_full : char -> str) (tabulate : list (list str) -> list str -> str)
  (parse : str -> list node) (md_text : str) :
  exists out,
    markdown_to_plain_text to_upper_full tabulate parse md_text = Dom.Ok out
    /\ space_first out = false /\ space_first (rev out) = false
    /\ startswith [LF] out = false /\ endswith out [LF] = false.
Proof.
  exists (render to_upper_full tabulate (parse md_text)). split.
  - apply DomFacts.run_render.
  - apply cleanup_trimmed.
Qed.

(** C1. On the note "Hello" (parsed to one paragraph) the renderer returns
    the text without a line break at its end, whatever the table formatter
    is; no text it returns ends with a line break. *)
Theorem rendered_text_lacks_final_newline
  (tabulate : list (list str) -> list str -> str) :
  Dom.run to_upper_full_latin1 tabulate [Tag "p" [Text (lit "Hello")]]
  = Dom.Ok (lit "Hello")
  /\ forall to_upper_full parse md_text,
       exists out,
         markdown_to_plain_text to_upper_full tabulate parse md_text
         = Dom.Ok out
         /\ endswith out [LF] = false.
Proof.
  split; [reflexivity|].
  intros to_upper_full parse md_text.
  exists (render to_upper_full tabulate (parse md_text)). split.
  - apply DomFacts.run_render.
  - apply cleanup_trimmed.
Qed.

(** ** [html.escape] *)

Lemma flat_map_flat_map (A B C : Type) (f : A -> list B) (g : B -> list C)
  (l : list A) :
  flat_map g (flat_map f l) = flat_map (fun a => flat_map g (f a)) l.
Proof.
  induction l as [|a l IH]; simpl; [reflexivity|].
  now rewrite flat_map_app, IH.
Qed.

(** Replacing a single character is a character-wise substitution. *)
Lemma replace_char (a : char) (new s : str) :
  replace [a] new s =
  flat_map (fun c => if char_eqb a c then new else [c]) s.
Proof.
  unfold replace.
  induction s as [|c s IH]; [reflexivity|].
  rewrite sub_cons. unfold match_literal. cbn [startswith flat_map].
  rewrite andb_true_r.
  destruct (char_eqb a c); cbn; f_equal; exact IH.
Qed.

(** The six ways a character is escaped. *)
Lemma escape_char_cases (c : char) :
  (c = 38%N /\ escape_char c = lit "&amp;")
  \/ (c = 60%N /\ escape_char c = lit "&lt;")
  \/ (c = 62%N /\ escape_char c = lit "&gt;")
  \/ (c = 34%N /\ escape_char c = lit "&quot;")
  \/ (c = 39%N /\ escape_char c = lit "&#x27;")
  \/ ((c <> 38 /\ c <> 60 /\ c <> 62 /\ c <> 34 /\ c <> 39)%N
      /\ escape_char c = [c]).
Proof.
  unfold escape_char.
  destruct (N.eqb_spec c 38); [now left|right].
  destruct (N.eqb_spec c 60); [now left|right].
  destruct (N.eqb_spec c 62); [now left|right].
  destruct (N.eqb_spec c 34); [now left|right].
  destruct (N.eqb_spec c 39); [now left|right].
  repeat split; assumption.
Qed.

Ltac escape_cases c :=
  let E := fresh "E" in
  destruct (escape_char_cases c)
    as [[-> E]|[[-> E]|[[-> E]|[[-> E]|[[-> E]|[(?&?&?&?&?) E]]]]]].

(** The five passes of [html.escape] together escape each character on its
    own. *)
Lemma html_escape_flat_map (s : str) :
  html_escape s = flat_map escape_char s.
Proof.
  unfold html_escape.
  change (lit "&") with [38%N]. change (lit "<") with [60%N].
  change (lit ">") with [62%N].
  rewrite !replace_char, !flat_map_flat_map.
  apply flat_map_ext. intros c.
  escape_cases c; rewrite E; try reflexivity.
  cbn [flat_map app].
  repeat match goal with
         | H : c <> ?k |- _ =>
             rewrite (proj2 (char_eqb_neq k c)) by congruence; clear H;
             cbn [flat_map app]
         end.
  reflexivity.
Qed.

Lemma well_escaped_escape_char (c : char) (t : str) :
  well_escaped (escape_char c ++ t) = well_escaped t.
Proof.
  escape_cases c; rewrite E; try reflexivity.
  cbn [app well_escaped]. unfold reserved.
  repeat match goal with
         | H : c <> ?k |- _ =>
             rewrite (proj2 (N.eqb_neq c k)) by congruence; clear H
         end.
  reflexivity.
Qed.

Lemma well_escaped_html_escape (s : str) : well_escaped (html_escape s) = true.
Proof.
  rewrite html_escape_flat_map.
  induction s as [|c s IH]; [reflexivity|].
  cbn [flat_map]. now rewrite well_escaped_escape_char.
Qed.

(** C4. The fragment is the fixed opening markup, the escaped text and the
    fixed closing markup; the escaped text holds no angle bracket and no
    quote character, and every ampersand in it starts one of the five
    character references. *)
Theorem fragment_has_no_unescaped_markup (plain_text : str) :
  to_html_preserving_newlines plain_text
  = pre_open ++ html_escape plain_text ++ pre_close
  /\ well_escaped (html_escape plain_text) = true.
Proof.
  split; [reflexivity | apply well_escaped_html_escape].
Qed.

Lemma escape_char_nonempty (c : char) : escape_char c <> [].
Proof. escape_cases c; rewrite E; discriminate. Qed.

(** The escapes form a prefix code. *)
Lemma escape_char_prefix_code (c1 c2 : char) (r1 r2 : str) :
  escape_char c1 ++ r1 = escape_char c2 ++ r2 -> c1 = c2 /\ r1 = r2.
Proof.
  escape_cases c1; rewrite E; clear E; escape_cases c2; rewrite E;
    cbn; intros Heq; try discriminate Heq; injection Heq; intros; subst;
    solve [ split; reflexivity | congruence ].
Qed.

Lemma flat_map_escape_char_inj (s1 s2 : str) :
  flat_map escape_char s1 = flat_map escape_char s2 -> s1 = s2.
Proof.
  revert s2. induction s1 as [|c1 s1 IH]; intros [|c2 s2] H; cbn in H.
  - reflexivity.
  - symmetry in H. apply app_eq_nil in H as [H _].
    now apply escape_char_nonempty in H.
  - apply app_eq_nil in H as [H _].
    now apply escape_char_nonempty in H.
  - apply escape_char_prefix_code in H as [-> H].
    f_equal. now apply IH.
Qed.

Lemma to_html_preserving_newlines_inj (s1 s2 : str) :
  to_html_preserving_newlines s1 = to_html_preserving_newlines s2 -> s1 = s2.
Proof.
  unfold to_html_preserving_newlines. intros H.
  apply app_inv_head, app_inv_tail in H.
  rewrite !html_escape_flat_map in H.
  now apply flat_map_escape_char_inj.
Qed.

Lemma unescape_escape_char (c : char) (t : str) :
  unescape_from 0 (escape_char c ++ t) = c :: unescape_from 0 t.
Proof.
  escape_cases c; rewrite E; try reflexivity.
  cbn [app unescape_from]. unfold reference. cbn [lit List.map
    list_ascii_of_string startswith].
  change (N_of_ascii "&") with 38%N.
  rewrite (proj2 (char_eqb_neq 38%N c)) by congruence.
  reflexivity.
Qed.

Lemma unescape_html_escape (s : str) : unescape_from 0 (html_escape s) = s.
Proof.
  rewrite html_escape_flat_map.
  induction s as [|c s IH]; [reflexivity|].
  cbn [flat_map]. now rewrite unescape_escape_char, IH.
Qed.

Lemma unwrap_to_html_preserving_newlines (s : str) :
  unwrap (to_html_preserving_newlines s) = s.
Proof.
  unfold unwrap, to_html_preserving_newlines.
  rewrite skipn_app, skipn_all, Nat.sub_diag. cbn [skipn app].
  rewrite length_app, Nat.add_sub, firstn_app, Nat.sub_diag, firstn_all.
  cbn [firstn]. rewrite app_nil_r. apply unescape_html_escape.
Qed.

(** C7. The wrapper is injective: different texts give different
    fragments, and the text is read back from its fragment by taking what
    is between the opening and the closing markup and unescaping it. *)
Theorem fragment_wrapper_injective :
  (forall s1 s2,
      s1 <> s2 ->
      to_html_preserving_newlines s1 <> to_html_preserving_newlines s2)
  /\ (forall s, unwrap (to_html_preserving_newlines s) = s).
Proof.
  split.
  - intros s1 s2 Hne H. apply Hne.
    now apply to_html_preserving_newlines_inj.
  - apply unwrap_to_html_preserving_newlines.
Qed.

Lemma fragment_wrapper_injective_witness :
  lit "a<b" <> lit "a&lt;b"
  /\ to_html_preserving_newlines (lit "a<b")
     <> to_html_preserving_newlines (lit "a&lt;b").
Proof.
  assert (H : lit "a<b" <> lit "a&lt;b") by (cbn; discriminate).
  split; [exact H | exact (proj1 fragment_wrapper_injective _ _ H)].
Defined.

(** ** The passes over the tree *)

Section Passes.

Variable to_upper_full : char -> str.
Variable tabulate : list (list str) -> list str -> str.

Lemma soup_get_text_app (a b : list node) :
  soup_get_text (a ++ b) = soup_get_text a ++ soup_get_text b.
Proof.
  unfold soup_get_text. now rewrite flat_map_app, concat_app.
Qed.

(** Siblings are rendered independently of each other. *)
Lemma extract_text_app (a b : list node) :
  extract_text to_upper_full tabulate (a ++ b)
  = extract_text to_upper_full tabulate a
    ++ extract_text to_upper_full tabulate b.
Proof.
  unfold extract_text, lists_to_bullets, headings_to_underlined,
    tables_to_tabulate.
  now rewrite flat_map_app, !map_app, soup_get_text_app.
Qed.

Lemma extract_text_around (pre post : list node) (n : node) :
  extract_text to_upper_full tabulate (pre ++ n :: post)
  = extract_text to_upper_full tabulate pre
    ++ extract_text to_upper_full tabulate [n]
    ++ extract_text to_upper_full tabulate post.
Proof.
  change (n :: post) with ([n] ++ post). now rewrite !extract_text_app.
Qed.

Lemma heading_name_cases (name : string) :
  name_in heading_names name = true ->
  name_in ["li"%string] name = false /\ name_in ["table"%string] name = false.
Proof.
  intros H. unfold name_in, heading_names in H. cbn [existsb] in H.
  repeat match type of H with
         | context [String.eqb name ?k] =>
             revert H; destruct (String.eqb_spec name k) as [->|?];
             intros H; [split; reflexivity|]
         end.
  discriminate H.
Qed.

(** What a heading element contributes to the extracted text. *)
Lemma extract_text_heading (name : string) (kids : list node) :
  name_in heading_names name = true ->
  extract_text to_upper_full tabulate [Tag name kids]
  = heading_string to_upper_full (Tag name (flat_map bullet kids)).
Proof.
  intros H. destruct (heading_name_cases _ H) as [Hli Htable].
  unfold extract_text, lists_to_bullets, headings_to_underlined,
    tables_to_tabulate, soup_get_text.
  cbn [flat_map bullet]. rewrite Hli. cbn [app List.map style_heading].
  rewrite H. cbn [render_table]. rewrite Htable.
  cbn [List.map render_table flat_map strings app].
  cbn [List.concat]. apply app_nil_r.
Qed.

Lemma upper_length (s : str) :
  (forall c, In c s -> List.length (to_upper_full c) = 1) ->
  List.length (upper to_upper_full s) = List.length s.
Proof.
  unfold upper. induction s as [|c s IH]; intros H; [reflexivity|].
  cbn [flat_map]. rewrite length_app, H by now left.
  cbn [List.length]. rewrite IH; [reflexivity|].
  intros d Hd. apply H. now right.
Qed.

(** The rows given to the formatter are the non-empty cell lists, in the
    order of the rows. *)
Lemma fold_add_row (trs : list node) (rows : list (list str)) :
  fold_left add_row trs rows
  = rows ++ List.filter (fun cells => negb (Nat.eqb (List.length cells) 0))
              (List.map (fun tr => cell_texts (find_all ["td"; "th"]%string tr))
                 trs).
Proof.
  revert rows. induction trs as [|tr trs IH]; intros rows; cbn [fold_left].
  - cbn. now rewrite app_nil_r.
  - rewrite IH. unfold add_row. cbn [List.map List.filter].
    destruct (cell_texts (find_all ["td"; "th"]%string tr)); cbn.
    + reflexivity.
    + now rewrite <- app_assoc.
Qed.

Lemma table_rows_filter (table : node) :
  table_rows table
  = List.filter (fun cells => negb (Nat.eqb (List.length cells) 0))
      (List.map (fun tr => cell_texts (find_all ["td"; "th"]%string tr))
         (skipn (start_idx table) (find_all ["tr"%string] table))).
Proof. unfold table_rows. now rewrite fold_add_row. Qed.







End Passes.

(** C2. On the table with the header row Name, Age in a [thead] and the rows
    Ann, 30 and Bo, 41 in the body, the headers are Name and Age, and the
    data rows given to the formatter start with the header row again. *)
Theorem header_row_is_kept_as_data_row :
  table_headers name_age_table = [lit "Name"; lit "Age"]
  /\ start_idx name_age_table = 0
  /\ table_rows name_age_table
     = [ [lit "Name"; lit "Age"]; [lit "Ann"; lit "30"];
         [lit "Bo"; lit "41"] ].
Proof. repeat split. Qed.



(** ** Replacing a literal by one character *)

Lemma contains_nil_r (p : str) : p <> [] -> contains p [] = false.
Proof. destruct p; [congruence | reflexivity]. Qed.

Lemma contains_cons (p : str) (c : char) (s : str) :
  contains p (c :: s) = startswith p (c :: s) || contains p s.
Proof. reflexivity. Qed.

Lemma contains_skipn (p : str) (n : nat) (s : str) :
  contains p s = false -> contains p (skipn n s) = false.
Proof.
  revert s. induction n as [|n IH]; intros s H; [exact H|].
  destruct s as [|c s]; [exact H|].
  rewrite contains_cons in H. apply orb_false_iff in H as [_ H].
  cbn [skipn]. now apply IH.
Qed.

Lemma contains_app_intro (p w r : str) : contains p (w ++ p ++ r) = true.
Proof.
  induction w as [|c w IH].
  - cbn [app]. destruct (p ++ r) eqn:E.
    + destruct p; [reflexivity | discriminate E].
    + rewrite contains_cons, <- E, startswith_app. reflexivity.
  - cbn [app]. rewrite contains_cons, IH. apply orb_true_r.
Qed.

(** A text without [p] has no occurrence of a longer literal that ends
    with [p]. *)
Lemma contains_longer (x p s : str) :
  contains p s = false -> contains (x ++ p) s = false.
Proof.
  intros H. destruct (contains (x ++ p) s) eqn:E; [|reflexivity].
  exfalso. revert H E. induction s as [|c s IH]; intros H E.
  - cbn in E. rewrite orb_false_r in E. apply startswith_nil_r in E.
    apply app_eq_nil in E as [_ ->]. discriminate H.
  - rewrite contains_cons in E. apply orb_true_iff in E as [E|E].
    + apply startswith_split in E. rewrite E, <- app_assoc in H.
      now rewrite contains_app_intro in H.
    + rewrite contains_cons in H. apply orb_false_iff in H as [_ H].
      now apply IH.
Qed.

Section Literal.

Variables (old new : str).
Hypothesis old_nonempty : old <> [].

Lemma replace_sub (s : str) :
  replace old new s = sub (match_literal old) new s.
Proof. unfold replace. destruct old; [congruence | reflexivity]. Qed.

Lemma sub_literal_cons (c : char) (s : str) :
  sub (match_literal old) new (c :: s)
  = if startswith old (c :: s)
    then new ++ sub (match_literal old) new
                  (skipn (List.length old) (c :: s))
    else c :: sub (match_literal old) new s.
Proof.
  rewrite sub_cons. unfold match_literal.
  destruct (startswith old (c :: s)); [|reflexivity].
  destruct old; [congruence | reflexivity].
Qed.

(** A text without the literal is left as it is. *)
Lemma sub_literal_absent (s : str) :
  contains old s = false -> sub (match_literal old) new s = s.
Proof.
  induction s as [|c s IH]; intros H; [reflexivity|].
  rewrite contains_cons in H. apply orb_false_iff in H as [H1 H2].
  rewrite sub_literal_cons, H1. f_equal. now apply IH.
Qed.

(** [sub] splits where no occurrence of the literal crosses. *)
Lemma sub_literal_app (u w : str) :
  (forall u1 u2, u = u1 ++ u2 -> u2 <> [] ->
     startswith old (u2 ++ w) = true -> startswith old u2 = true) ->
  sub (match_literal old) new (u ++ w)
  = sub (match_literal old) new u ++ sub (match_literal old) new w.
Proof.
  induction u as [u IH] using str_length_ind. intros Hcross.
  destruct u as [|c u]; [reflexivity|].
  cbn [app]. rewrite !sub_literal_cons.
  destruct (startswith old (c :: u ++ w)) eqn:E.
  - assert (E' : startswith old (c :: u) = true)
      by (apply (Hcross [] (c :: u) eq_refl); [discriminate | exact E]).
    rewrite E'.
    pose proof (startswith_split _ _ E') as Hu.
    remember (skipn (List.length old) (c :: u)) as rest eqn:Hrest.
    assert (Hlen : List.length (c :: u)
                   = List.length old + List.length rest).
    { rewrite Hu at 1. apply length_app. }
    change (c :: u ++ w) with ((c :: u) ++ w).
    rewrite skipn_app, <- Hrest.
    replace (List.length old - List.length (c :: u)) with 0 by lia.
    cbn [skipn]. rewrite <- app_assoc. f_equal.
    apply IH.
    + rewrite Hlen. destruct old; [congruence | cbn; lia].
    + intros u1 u2 Hsplit. apply (Hcross (old ++ u1) u2).
      rewrite Hu, Hsplit. now rewrite app_assoc.
  - assert (E' : startswith old (c :: u) = false).
    { destruct (startswith old (c :: u)) eqn:E'; [|reflexivity].
      apply startswith_app_r with (t := w) in E'. cbn [app] in E'.
      congruence. }
    rewrite E'. cbn [app]. f_equal. apply IH; [cbn; lia|].
    intros u1 u2 Hu. apply (Hcross (c :: u1) u2). now rewrite Hu.
Qed.

End Literal.

Section OneChar.

(** The scanner with a one-character replacement [z]. *)
Variables (m : str -> option nat) (z : char).

(** A literal without [z] found at the head of the result was at the head
    of the text. *)
Lemma startswith_sub (p s : str) :
  ~ In z p -> startswith p (sub m [z] s) = true -> startswith p s = true.
Proof.
  revert s. induction p as [|a p IH]; intros s Hz H; [reflexivity|].
  destruct s as [|c s]; [discriminate H|].
  rewrite sub_cons in H.
  destruct (m (c :: s)) as [[|n]|].
  - cbn [startswith] in *. apply andb_true_iff in H as [-> H].
    apply IH; [|exact H]. intros Hin. apply Hz. now right.
  - cbn [app startswith] in H. apply andb_true_iff in H as [H _].
    apply char_eqb_eq in H. exfalso. apply Hz. now left.
  - cbn [startswith] in *. apply andb_true_iff in H as [-> H].
    apply IH; [|exact H]. intros Hin. apply Hz. now right.
Qed.

(** A literal without [z] that is absent from the text is absent from the
    result. *)
Lemma contains_sub (p s : str) :
  p <> [] -> ~ In z p ->
  contains p s = false -> contains p (sub m [z] s) = false.
Proof.
  intros Hp Hz. induction s as [s IH] using str_length_ind. intros H.
  destruct s as [|c s]; [exact H|].
  assert (Hhead : startswith p (sub m [z] (c :: s)) = false).
  { destruct (startswith p (sub m [z] (c :: s))) eqn:E; [|reflexivity].
    apply startswith_sub in E; [|exact Hz].
    rewrite contains_cons, E in H. discriminate H. }
  rewrite contains_cons in H. apply orb_false_iff in H as [_ H].
  rewrite sub_cons in *.
  destruct (m (c :: s)) as [[|n]|].
  - rewrite contains_cons, Hhead. apply IH; [cbn; lia | exact H].
  - cbn [app] in *. rewrite contains_cons, Hhead. apply IH.
    + cbn. pose proof (length_skipn_le n s). lia.
    + now apply contains_skipn.
  - rewrite contains_cons, Hhead. apply IH; [cbn; lia | exact H].
Qed.

(** If no [z] was written, nothing was replaced. *)
Lemma sub_without_z (s : str) : ~ In z (sub m [z] s) -> sub m [z] s = s.
Proof.
  induction s as [|c s IH]; intros H; [reflexivity|].
  rewrite sub_cons in *.
  destruct (m (c :: s)) as [[|n]|].
  - f_equal. apply IH. intros Hin. apply H. now right.
  - exfalso. apply H. now left.
  - f_equal. apply IH. intros Hin. apply H. now right.
Qed.

(** A literal without [z] at the end of the result was at the end of the
    text. *)
Lemma sub_suffix (p s w : str) :
  ~ In z p -> sub m [z] s = w ++ p -> exists w', s = w' ++ p.
Proof.
  intros Hz. revert w. induction s as [s IH] using str_length_ind.
  intros w H.
  destruct w as [|d w].
  { exists []. cbn [app] in *. rewrite <- H. symmetry.
    apply sub_without_z. now rewrite H. }
  destruct s as [|c s]; [discriminate H|].
  rewrite sub_cons in H.
  destruct (m (c :: s)) as [[|n]|].
  - injection H as <- H. apply IH in H as [w' ->]; [|cbn; lia].
    now exists (c :: w').
  - cbn [app] in H. injection H as -> H.
    apply IH in H as [w' Hw'].
    + exists (c :: firstn n s ++ w'). cbn [app]. f_equal.
      rewrite <- app_assoc, <- Hw'. symmetry. apply firstn_skipn.
    + cbn. pose proof (length_skipn_le n s). lia.
  - injection H as <- H. apply IH in H as [w' ->]; [|cbn; lia].
    now exists (c :: w').
Qed.

End OneChar.

(** The literal is absent from the result of replacing it by a character
    it does not hold. *)
Lemma contains_sub_literal (old : str) (z : char) (s : str) :
  old <> [] -> ~ In z old ->
  contains old (sub (match_literal old) [z] s) = false.
Proof.
  intros Hold Hz. induction s as [s IH] using str_length_ind.
  destruct s as [|c s]; [now apply contains_nil_r|].
  assert (Hhead : startswith old (c :: s) = false ->
                  startswith old (sub (match_literal old) [z] (c :: s))
                  = false).
  { intros Hno.
    destruct (startswith old (sub (match_literal old) [z] (c :: s))) eqn:E;
      [|reflexivity].
    apply startswith_sub in E; [congruence | exact Hz]. }
  rewrite sub_literal_cons in * by exact Hold.
  destruct (startswith old (c :: s)) eqn:E.
  - cbn [app]. rewrite contains_cons.
    replace (startswith old (z :: _)) with false.
    + apply IH. destruct old as [|a o]; [congruence|].
      cbn. pose proof (length_skipn_le (List.length o) s). lia.
    + destruct old as [|a o]; [congruence|]. cbn [startswith].
      destruct (char_eqb a z) eqn:Ea; [|reflexivity].
      apply char_eqb_eq in Ea. exfalso. apply Hz. now left.
  - rewrite contains_cons, Hhead by reflexivity. apply IH. cbn; lia.
Qed.

(** [sub] splits at a character the literal does not hold. *)
Lemma startswith_before (p u : str) (z : char) (y : str) :
  ~ In z p -> startswith p (u ++ z :: y) = true -> startswith p u = true.
Proof.
  revert u. induction p as [|a p IH]; intros u Hz H; [reflexivity|].
  destruct u as [|b u]; cbn [app startswith] in *;
    apply andb_true_iff in H as [Hab H].
  - apply char_eqb_eq in Hab. exfalso. apply Hz. now left.
  - rewrite Hab. apply IH; [|exact H]. intros Hin. apply Hz. now right.
Qed.

Lemma sub_literal_separator (old new : str) (z : char) (x y : str) :
  old <> [] -> ~ In z old ->
  sub (match_literal old) new (x ++ z :: y)
  = sub (match_literal old) new x ++ z :: sub (match_literal old) new y.
Proof.
  intros Hold Hz. rewrite sub_literal_app.
  - f_equal. rewrite sub_literal_cons by exact Hold.
    destruct (startswith old (z :: y)) eqn:E; [|reflexivity].
    apply (startswith_before old [] z y Hz) in E.
    apply startswith_nil_r in E. congruence.
  - exact Hold.
  - intros u1 u2 _ _. now apply startswith_before.
Qed.

Lemma endswith_app (w p : str) : endswith (w ++ p) p = true.
Proof. unfold endswith. rewrite rev_app_distr. apply startswith_app. Qed.

Lemma endswith_split (s p : str) :
  endswith s p = true -> exists w, s = w ++ p.
Proof.
  unfold endswith. intros H. apply startswith_split in H.
  exists (rev (skipn (List.length (rev p)) (rev s))).
  rewrite <- (rev_involutive p) at 2. rewrite <- rev_app_distr, <- H.
  now rewrite rev_involutive.
Qed.

(** A text that does not end with a literal without [z] still does not
    after the scanner has replaced matches by [z]. *)
Lemma endswith_sub (m : str -> option nat) (z : char) (p s : str) :
  ~ In z p -> endswith s p = false -> endswith (sub m [z] s) p = false.
Proof.
  intros Hz H. destruct (endswith (sub m [z] s) p) eqn:E; [|reflexivity].
  apply endswith_split in E as [w E].
  apply sub_suffix in E as [w' ->]; [|exact Hz].
  now rewrite endswith_app in H.
Qed.

(** ** Checkboxes (step 7) *)

Ltac norm_lits :=
  repeat match goal with
         | |- context [lit ?x] =>
             let v := eval vm_compute in (lit x) in change (lit x) with v
         end.

(** A conjunction of character tests that holds a failing test between
    constants. *)
Ltac conj_false H :=
  repeat (let H' := fresh "Hc" in
          apply andb_true_iff in H as [H' H];
          try (cbv in H'; discriminate H'));
  try (cbv in H; discriminate H).

(** No occurrence of the literal starts in the last characters of [u] and
    ends in what follows. *)
Ltac no_crossing :=
  let H := fresh "Hcross" in
  intros ? [|? [|? [|? [|? [|? ?]]]]] ? ? H;
  [congruence|..];
  cbn [app startswith] in H |- *;
  first [exact H | conj_false H].

(** The scanner run over the known characters at the head of a text. *)
Ltac scan_head :=
  repeat (rewrite sub_literal_cons by discriminate;
          match goal with
          | |- context [startswith ?p ?s] =>
              let b := eval lazy in (startswith p s) in
              change (startswith p s) with b
          end;
          cbv iota; cbn [skipn List.length app]).

(** The remaining case of [no_crossing] for a bracket after "- ". *)
Ltac dash_space Hends :=
  exfalso;
  repeat match goal with
         | H : char_eqb _ _ = true |- _ => apply char_eqb_eq in H; try subst
         end;
  try match goal with
      | Hu : _ = _ ++ [45; 32]%N |- _ => rewrite Hu in Hends
      end;
  change (lit "- ") with [45; 32]%N in Hends;
  rewrite endswith_app in Hends; discriminate Hends.

Lemma checkboxes_sub (s : str) :
  checkboxes s
  = sub (match_literal (lit "[x]")) [BALLOT_BOX_CHECK]
      (sub (match_literal (lit "- [x]")) [BALLOT_BOX_CHECK]
         (sub (match_literal (lit "[ ]")) [BALLOT_BOX]
            (sub (match_literal (lit "- [ ]")) [BALLOT_BOX] s))).
Proof. reflexivity. Qed.

Ltac not_in := cbv; intuition discriminate.

Lemma checkboxes_no_residual (s : str) :
  contains (lit "[ ]") (checkboxes s) = false
  /\ contains (lit "[x]") (checkboxes s) = false.
Proof.
  rewrite checkboxes_sub. split.
  - do 2 (apply contains_sub; [discriminate | not_in |]).
    apply contains_sub_literal; [discriminate | not_in].
  - apply contains_sub_literal; [discriminate | not_in].
Qed.

Lemma checkboxes_separator (z : char) (x y : str) :
  z = BALLOT_BOX \/ z = BALLOT_BOX_CHECK ->
  checkboxes (x ++ z :: y) = checkboxes x ++ z :: checkboxes y.
Proof.
  intros Hz. rewrite !checkboxes_sub.
  rewrite !sub_literal_separator;
    solve [ reflexivity | discriminate | destruct Hz as [->| ->]; not_in ].
Qed.

Lemma checkboxes_empty_box (u v : str) :
  checkboxes (u ++ lit "- [ ]" ++ v)
  = checkboxes u ++ [BALLOT_BOX] ++ checkboxes v.
Proof.
  change ([BALLOT_BOX] ++ checkboxes v) with (BALLOT_BOX :: checkboxes v).
  rewrite <- checkboxes_separator by now left.
  rewrite !checkboxes_sub. do 3 f_equal. norm_lits.
  rewrite sub_literal_separator; [|discriminate|not_in].
  rewrite (@sub_literal_app [45; 32; 91; 32; 93]%N [BALLOT_BOX]
             ltac:(discriminate) u);
    [|no_crossing].
  reflexivity.
Qed.

Lemma checkboxes_standalone_empty_box (u v : str) :
  endswith u (lit "- ") = false ->
  checkboxes (u ++ lit "[ ]" ++ v)
  = checkboxes u ++ [BALLOT_BOX] ++ checkboxes v.
Proof.
  intros Hends. rewrite !checkboxes_sub. norm_lits.
  rewrite (@sub_literal_app [45; 32; 91; 32; 93]%N [BALLOT_BOX]
             ltac:(discriminate) u);
    [|no_crossing; dash_space Hends].
  cbn [app]. scan_head.
  rewrite (@sub_literal_app [91; 32; 93]%N [BALLOT_BOX]
             ltac:(discriminate)); [|no_crossing].
  scan_head.
  rewrite !sub_literal_separator; solve [reflexivity|discriminate|not_in].
Qed.

Lemma checkboxes_checked_box (u v : str) :
  checkboxes (u ++ lit "- [x]" ++ v)
  = checkboxes u ++ [BALLOT_BOX_CHECK] ++ checkboxes v.
Proof.
  rewrite !checkboxes_sub. norm_lits.
  rewrite (@sub_literal_app [45; 32; 91; 32; 93]%N [BALLOT_BOX]
             ltac:(discriminate) u); [|no_crossing].
  cbn [app]. scan_head.
  rewrite (@sub_literal_app [91; 32; 93]%N [BALLOT_BOX]
             ltac:(discriminate)); [|no_crossing].
  scan_head.
  rewrite (@sub_literal_app [45; 32; 91; 120; 93]%N [BALLOT_BOX_CHECK]
             ltac:(discriminate)); [|no_crossing].
  scan_head.
  rewrite !sub_literal_separator; solve [reflexivity|discriminate|not_in].
Qed.

Lemma checkboxes_standalone_checked_box (u v : str) :
  endswith u (lit "- ") = false ->
  checkboxes (u ++ lit "[x]" ++ v)
  = checkboxes u ++ [BALLOT_BOX_CHECK] ++ checkboxes v.
Proof.
  intros Hends. rewrite !checkboxes_sub. norm_lits.
  rewrite (@sub_literal_app [45; 32; 91; 32; 93]%N [BALLOT_BOX]
             ltac:(discriminate) u); [|no_crossing].
  cbn [app]. scan_head.
  rewrite (@sub_literal_app [91; 32; 93]%N [BALLOT_BOX]
             ltac:(discriminate)); [|no_crossing].
  scan_head.
  assert (Hends' :
    endswith (sub (match_literal [91; 32; 93]%N) [BALLOT_BOX]
                (sub (match_literal [45; 32; 91; 32; 93]%N) [BALLOT_BOX] u))
      (lit "- ") = false)
    by (do 2 (apply endswith_sub; [not_in|]); exact Hends).
  rewrite (@sub_literal_app [45; 32; 91; 120; 93]%N [BALLOT_BOX_CHECK]
             ltac:(discriminate)); [|no_crossing; dash_space Hends'].
  scan_head.
  rewrite (@sub_literal_app [91; 120; 93]%N [BALLOT_BOX_CHECK]
             ltac:(discriminate)); [|no_crossing].
  scan_head. reflexivity.
Qed.

(** A text without "[ ]" and without "[x]" is left as it is. *)
Lemma checkboxes_unchanged (s : str) :
  contains (lit "[ ]") s = false -> contains (lit "[x]") s = false ->
  checkboxes s = s.
Proof.
  intros H1 H2. rewrite checkboxes_sub.
  rewrite (@sub_literal_absent (lit "- [ ]") [BALLOT_BOX] ltac:(discriminate))
    by exact (contains_longer (lit "- ") _ _ H1).
  rewrite (@sub_literal_absent (lit "[ ]") [BALLOT_BOX] ltac:(discriminate))
    by exact H1.
  rewrite (@sub_literal_absent (lit "- [x]") [BALLOT_BOX_CHECK]
             ltac:(discriminate))
    by exact (contains_longer (lit "- ") _ _ H2).
  now apply sub_literal_absent.
Qed.

(** C6. After the checkbox step no "[ ]" and no "[x]" is left.  An empty box
    "- [ ]", or "[ ]" not preceded by "- ", becomes the ballot box between
    what the step makes of the text before it and of the text after it; a
    checked box "- [x]", or "[x]" not preceded by "- ", becomes the checked
    ballot box in the same way.  A text that holds neither "[ ]" nor "[x]",
    such as "[X]", is left as it is. *)
Theorem checkboxes_are_normalized :
  (forall s,
      contains (lit "[ ]") (checkboxes s) = false
      /\ contains (lit "[x]") (checkboxes s) = false)
  /\ (forall u v,
         checkboxes (u ++ lit "- [ ]" ++ v)
         = checkboxes u ++ [BALLOT_BOX] ++ checkboxes v)
  /\ (forall u v,
         endswith u (lit "- ") = false ->
         checkboxes (u ++ lit "[ ]" ++ v)
         = checkboxes u ++ [BALLOT_BOX] ++ checkboxes v)
  /\ (forall u v,
         checkboxes (u ++ lit "- [x]" ++ v)
         = checkboxes u ++ [BALLOT_BOX_CHECK] ++ checkboxes v)
  /\ (forall u v,
         endswith u (lit "- ") = false ->
         checkboxes (u ++ lit "[x]" ++ v)
         = checkboxes u ++ [BALLOT_BOX_CHECK] ++ checkboxes v)
  /\ (forall s,
         contains (lit "[ ]") s = false -> contains (lit "[x]") s = false ->
         checkboxes s = s)
  /\ checkboxes (lit "[X]") = lit "[X]"
  /\ checkboxes (lit "- [ ] Buy milk" ++ [LF] ++ lit "- [x] Pay rent")
     = [BALLOT_BOX] ++ lit " Buy milk" ++ [LF]
       ++ [BALLOT_BOX_CHECK] ++ lit " Pay rent".
Proof.
  repeat apply conj.
  - apply checkboxes_no_residual.
  - apply checkboxes_empty_box.
  - apply checkboxes_standalone_empty_box.
  - apply checkboxes_checked_box.
  - apply checkboxes_standalone_checked_box.
  - apply checkboxes_unchanged.
  - reflexivity.
  - reflexivity.
Qed.

Lemma checkboxes_are_normalized_witness :
  endswith (lit "see ") (lit "- ") = false
  /\ checkboxes (lit "see " ++ lit "[ ]" ++ lit " and " ++ lit "[x]")
     = lit "see " ++ [BALLOT_BOX] ++ lit " and " ++ [BALLOT_BOX_CHECK].
Proof.
  split; [reflexivity|].
  destruct checkboxes_are_normalized as (_ & _ & Hbox & _).
  rewrite (Hbox (lit "see ") (lit " and " ++ lit "[x]") eq_refl).
  reflexivity.
Defined.

(** ** Counting bullets *)

Lemma count_char_app (c : char) (a b : str) :
  count_char c (a ++ b) = count_char c a + count_char c b.
Proof. unfold count_char. now rewrite filter_app, length_app. Qed.

Lemma count_char_cons (c d : char) (s : str) :
  count_char c (d :: s)
  = (if char_eqb c d then 1 else 0) + count_char c s.
Proof. unfold count_char. cbn [List.filter]. now destruct (char_eqb c d). Qed.

Lemma count_char_rev (c : char) (s : str) :
  count_char c (rev s) = count_char c s.
Proof.
  induction s as [|d s IH]; [reflexivity|].
  cbn [rev]. rewrite count_char_app, IH, !count_char_cons.
  unfold count_char at 2. cbn. lia.
Qed.

Lemma count_char_firstn_skipn (c : char) (n : nat) (s : str) :
  count_char c s = count_char c (firstn n s) + count_char c (skipn n s).
Proof. now rewrite <- count_char_app, firstn_skipn. Qed.

(** The scanner keeps the number of a character that is neither in the
    replacement nor in any text it matches. *)
Lemma count_char_sub (c : char) (m : str -> option nat) (repl s : str) :
  count_char c repl = 0 ->
  (forall t n, m t = Some n -> count_char c (firstn n t) = 0) ->
  count_char c (sub m repl s) = count_char c s.
Proof.
  intros Hrepl Hm. induction s as [s IH] using str_length_ind.
  destruct s as [|d s]; [reflexivity|].
  rewrite sub_cons. destruct (m (d :: s)) as [[|n]|] eqn:E.
  - rewrite !count_char_cons. now rewrite IH by (cbn; lia).
  - rewrite count_char_app, Hrepl, IH.
    + rewrite (count_char_firstn_skipn c (S n) (d :: s)).
      now rewrite (Hm _ _ E).
    + cbn. pose proof (length_skipn_le n s). lia.
  - rewrite !count_char_cons. now rewrite IH by (cbn; lia).
Qed.

Lemma firstn_startswith (p s : str) :
  startswith p s = true -> firstn (List.length p) s = p.
Proof.
  intros H. rewrite (startswith_split _ _ H) at 1.
  now rewrite firstn_app, Nat.sub_diag, firstn_all, app_nil_r.
Qed.

Lemma count_char_replace (c : char) (old new s : str) :
  old <> [] -> count_char c old = 0 -> count_char c new = 0 ->
  count_char c (replace old new s) = count_char c s.
Proof.
  intros Hold Hc Hnew. rewrite replace_sub by exact Hold.
  apply count_char_sub; [exact Hnew|].
  intros t n Hm. unfold match_literal in Hm.
  destruct (startswith old t) eqn:E; [|discriminate Hm].
  injection Hm as <-. now rewrite firstn_startswith.
Qed.

Lemma count_char_checkboxes (s : str) :
  count_char BULLET (checkboxes s) = count_char BULLET s.
Proof.
  unfold checkboxes.
  now rewrite !count_char_replace by (discriminate || reflexivity).
Qed.

Lemma firstn_succ_skipn (n : nat) (s : str) (x : char) (r : str) :
  skipn n s = x :: r -> firstn (S n) s = firstn n s ++ [x].
Proof.
  revert s. induction n as [|n IH]; intros s H.
  - cbn in H. subst s. reflexivity.
  - destruct s as [|d s]; [discriminate H|].
    cbn [skipn] in H. cbn [firstn app]. f_equal. now apply IH.
Qed.

Lemma count_char_ansi_params (c : char) (s : str) :
  is_ansi_param c = false ->
  count_char c (firstn (ansi_params s) s) = 0.
Proof.
  intros Hc. induction s as [|d s IH]; [reflexivity|].
  cbn [ansi_params]. destruct (is_ansi_param d) eqn:E; [|reflexivity].
  cbn [firstn]. rewrite count_char_cons, IH.
  destruct (char_eqb c d) eqn:Ecd; [|reflexivity].
  apply char_eqb_eq in Ecd. congruence.
Qed.

Lemma count_char_strip_ansi (s : str) :
  count_char BULLET (strip_ansi s) = count_char BULLET s.
Proof.
  apply count_char_sub; [reflexivity|].
  intros t n Hm. unfold match_ansi in Hm.
  destruct t as [|e [|b t]]; try discriminate Hm.
  destruct (char_eqb e ESC && char_eqb b 91%N) eqn:E; [|discriminate Hm].
  apply andb_true_iff in E as [Ee Eb].
  apply char_eqb_eq in Ee, Eb. subst e b.
  destruct (skipn (ansi_params t) t) as [|x r] eqn:Es; [discriminate Hm|].
  destruct (char_eqb x 109%N) eqn:Ex; [|discriminate Hm].
  apply char_eqb_eq in Ex. subst x. injection Hm as <-.
  change (firstn (S (S (S (ansi_params t)))) (ESC :: 91%N :: t))
    with (ESC :: 91%N :: firstn (S (ansi_params t)) t).
  rewrite (firstn_succ_skipn _ _ Es).
  rewrite !count_char_cons, count_char_app, count_char_ansi_params
    by reflexivity.
  reflexivity.
Qed.

Lemma count_char_newlines (c : char) (s : str) :
  char_eqb c LF = false -> count_char c (firstn (newlines s) s) = 0.
Proof.
  intros Hc. induction s as [|d s IH]; [reflexivity|].
  cbn [newlines]. destruct (char_eqb d LF) eqn:E; [|reflexivity].
  apply char_eqb_eq in E. subst d.
  cbn [firstn]. now rewrite count_char_cons, IH, Hc.
Qed.

Lemma count_char_collapse (s : str) :
  count_char BULLET (collapse s) = count_char BULLET s.
Proof.
  apply count_char_sub; [reflexivity|].
  intros t n Hm. unfold match_blank_lines in Hm.
  destruct (3 <=? newlines t); [|discriminate Hm].
  injection Hm as <-. now apply count_char_newlines.
Qed.

Lemma count_char_lstrip (c : char) (s : str) :
  isspace c = false -> count_char c (lstrip s) = count_char c s.
Proof.
  intros Hc. induction s as [|d s IH]; [reflexivity|].
  cbn [lstrip]. destruct (isspace d) eqn:E; [|reflexivity].
  rewrite IH, count_char_cons.
  destruct (char_eqb c d) eqn:Ecd; [|reflexivity].
  apply char_eqb_eq in Ecd. congruence.
Qed.

Lemma count_char_strip (c : char) (s : str) :
  isspace c = false -> count_char c (strip s) = count_char c s.
Proof.
  intros Hc. unfold strip, rstrip.
  now rewrite count_char_rev, !count_char_lstrip, count_char_rev,
    count_char_lstrip.
Qed.

Lemma count_char_cleanup (s : str) :
  count_char BULLET (cleanup s) = count_char BULLET s.
Proof.
  unfold cleanup, finish.
  rewrite count_char_strip by reflexivity.
  destruct (negb (endswith _ [LF])).
  - rewrite count_char_app, count_char_collapse, count_char_strip_ansi,
      count_char_checkboxes.
    change (count_char BULLET [LF]) with 0. lia.
  - now rewrite count_char_collapse, count_char_strip_ansi,
      count_char_checkboxes.
Qed.

Lemma map_fixed (A : Type) (f : A -> A) (l : list A) :
  Forall (fun a => f a = a) l -> List.map f l = l.
Proof.
  induction 1 as [|a l Ha _ IH]; [reflexivity|].
  cbn [List.map]. now rewrite Ha, IH.
Qed.

Lemma forallb_flat_map (A B : Type) (p : B -> bool) (f : A -> list B)
  (l : list A) :
  Forall (fun a => forallb p (f a) = true) l ->
  forallb p (flat_map f l) = true.
Proof.
  induction 1 as [|a l Ha _ IH]; [reflexivity|].
  cbn [flat_map]. now rewrite forallb_app, Ha, IH.
Qed.

Section Lists.

Variable to_upper_full : char -> str.
Variable tabulate : list (list str) -> list str -> str.

(** The heading pass and the table pass leave a tree without headings and
    tables as it is. *)
Lemma plain_unchanged (n : node) :
  plain n = true ->
  style_heading to_upper_full n = n /\ render_table tabulate n = n.
Proof.
  induction n as [s|name kids IH] using node_tree_ind; intros H.
  - split; reflexivity.
  - cbn [plain] in H.
    apply andb_true_iff in H as [H Hkids].
    apply andb_true_iff in H as [Hh Ht].
    apply negb_true_iff in Hh, Ht.
    cbn [style_heading render_table]. rewrite Hh, Ht.
    rewrite forallb_forall in Hkids. rewrite Forall_forall in IH.
    split; f_equal; apply map_fixed, Forall_forall; intros k Hk;
      now apply IH; [|apply Hkids].
Qed.

Lemma list_name_plain (name : string) :
  name_in ["ul"; "ol"; "li"]%string name = true ->
  name_in heading_names name = false
  /\ name_in ["table"%string] name = false.
Proof.
  intros H. unfold name_in in H. cbn [existsb] in H.
  repeat match type of H with
         | context [String.eqb name ?k] =>
             revert H; destruct (String.eqb_spec name k) as [->|?];
             intros H; [split; reflexivity|]
         end.
  discriminate H.
Qed.

(** After the bullet pass a tree of lists holds no heading and no table. *)
Lemma only_lists_bullet_plain (n : node) :
  only_lists n = true -> forallb plain (bullet n) = true.
Proof.
  induction n as [s|name kids IH] using node_tree_ind; intros H.
  - reflexivity.
  - cbn [only_lists] in H. apply andb_true_iff in H as [Hname Hkids].
    destruct (list_name_plain _ Hname) as [Hh Ht].
    assert (Hinner : plain (Tag name (flat_map bullet kids)) = true).
    { cbn [plain]. rewrite Hh, Ht. cbn [negb andb].
      apply forallb_flat_map.
      rewrite forallb_forall in Hkids. rewrite Forall_forall in *.
      intros k Hk. now apply IH; [|apply Hkids]. }
    cbn [bullet]. destruct (name_in ["li"%string] name);
      cbn [forallb]; rewrite Hinner; reflexivity.
Qed.

Lemma only_lists_extract_text (soup : list node) :
  forallb only_lists soup = true ->
  extract_text to_upper_full tabulate soup
  = soup_get_text (lists_to_bullets soup).
Proof.
  intros H. unfold extract_text, tables_to_tabulate, headings_to_underlined.
  assert (Hplain : forallb plain (lists_to_bullets soup) = true).
  { apply forallb_flat_map, Forall_forall. intros n Hn.
    apply only_lists_bullet_plain.
    rewrite forallb_forall in H. now apply H. }
  rewrite forallb_forall in Hplain.
  rewrite (map_fixed (style_heading to_upper_full)), map_fixed;
    [reflexivity | |];
    apply Forall_forall; intros n Hn; now apply plain_unchanged, Hplain.
Qed.

End Lists.

(** Every [li] adds one bullet to the text of the document. *)
Lemma count_char_bullet (n : node) :
  count_char BULLET (List.concat (flat_map strings (bullet n)))
  = List.length (named ["li"%string] n)
    + count_char BULLET (List.concat (strings n)).
Proof.
  induction n as [s|name kids IH] using node_tree_ind; [reflexivity|].
  assert (Hkids :
    count_char BULLET
      (List.concat (flat_map strings (flat_map bullet kids)))
    = List.length (flat_map (named ["li"%string]) kids)
      + count_char BULLET (List.concat (flat_map strings kids))).
  { induction IH as [|k kids Hk _ IHkids]; [reflexivity|].
    cbn [flat_map]. rewrite !flat_map_app, !concat_app, !count_char_app,
      length_app, Hk, IHkids. lia. }
  cbn [bullet named strings].
  destruct (name_in ["li"%string] name);
    cbn [flat_map strings app List.concat List.length];
    rewrite ?count_char_cons, ?concat_app, ?app_nil_r, ?count_char_app,
      Hkids;
    cbn [List.concat app];
    change (count_char BULLET [LF]) with 0;
    change (char_eqb BULLET BULLET) with true;
    change (char_eqb BULLET SPACE) with false; cbv iota; lia.
Qed.

Lemma bullet_free_count (n : node) :
  bullet_free n = true -> count_char BULLET (List.concat (strings n)) = 0.
Proof.
  induction n as [s|name kids IH] using node_tree_ind; intros H.
  - cbn in *. rewrite app_nil_r. now apply Nat.eqb_eq in H.
  - cbn [bullet_free strings] in *.
    induction IH as [|k kids Hk _ IHkids]; [reflexivity|].
    cbn [forallb] in H. apply andb_true_iff in H as [H1 H2].
    cbn [flat_map]. rewrite concat_app, count_char_app, Hk, IHkids;
      auto.
Qed.

Lemma count_char_lists_to_bullets (soup : list node) :
  forallb bullet_free soup = true ->
  count_char BULLET (soup_get_text (lists_to_bullets soup))
  = list_items soup.
Proof.
  unfold soup_get_text, lists_to_bullets, list_items.
  induction soup as [|n soup IH]; intros H; [reflexivity|].
  cbn [forallb] in H. apply andb_true_iff in H as [Hn Hsoup].
  cbn [flat_map]. rewrite !flat_map_app, concat_app, count_char_app,
    length_app, count_char_bullet, (bullet_free_count _ Hn), IH by exact Hsoup.
  lia.
Qed.

(** ** Bullet markers *)

Lemma marked_app (a b : str) :
  marked a = true -> marked b = true -> marked (a ++ b) = true.
Proof.
  intros Ha Hb. induction a as [|c a IH]; [exact Hb|].
  cbn [marked app] in *. apply andb_true_iff in Ha as [Hc Ha].
  rewrite (IH Ha), andb_true_r.
  destruct (char_eqb c BULLET); [|reflexivity].
  now apply startswith_app_r.
Qed.

Lemma marked_app_r (a b : str) : marked (a ++ b) = true -> marked b = true.
Proof.
  induction a as [|c a IH]; intros H; [exact H|].
  cbn [marked app] in H. apply andb_true_iff in H as [_ H]. now apply IH.
Qed.

Lemma marked_skipn (n : nat) (s : str) :
  marked s = true -> marked (skipn n s) = true.
Proof.
  intros H. rewrite <- (firstn_skipn n s) in H. now apply marked_app_r in H.
Qed.

Lemma marked_bullet_free (s : str) :
  count_char BULLET s = 0 -> marked s = true.
Proof.
  induction s as [|c s IH]; intros H; [reflexivity|].
  rewrite count_char_cons in H. cbn [marked].
  rewrite (N.eqb_sym c BULLET : char_eqb c BULLET = char_eqb BULLET c).
  destruct (char_eqb BULLET c); [discriminate H|].
  now apply IH.
Qed.

(** A marked text that does not end with a bullet stays marked when what
    follows it is cut off. *)
Lemma marked_app_l (a b : str) :
  marked (a ++ b) = true -> endswith a [BULLET] = false -> marked a = true.
Proof.
  induction a as [|c a IH]; intros H Hend; [reflexivity|].
  cbn [marked app] in *. apply andb_true_iff in H as [Hc H].
  destruct a as [|d a].
  - rewrite andb_true_r. destruct (char_eqb c BULLET) eqn:E; [|reflexivity].
    apply char_eqb_eq in E. subst c. discriminate Hend.
  - rewrite IH; [| exact H |].
    + rewrite andb_true_r. exact Hc.
    + unfold endswith in *. cbn [rev] in *.
      destruct (rev a ++ [d]) as [|x r] eqn:Er.
      * now destruct (rev a).
      * exact Hend.
Qed.

(** In a marked text the markers are as many as the bullet characters. *)
Lemma count_marked (s : str) :
  marked s = true -> count [BULLET; SPACE] s = count_char BULLET s.
Proof.
  induction s as [s IH] using str_length_ind. intros H.
  destruct s as [|c s]; [reflexivity|].
  cbn [marked] in H. apply andb_true_iff in H as [Hc H].
  unfold count in *. rewrite count_char_cons. cbn [count_from startswith].
  rewrite (N.eqb_sym c BULLET : char_eqb c BULLET = char_eqb BULLET c) in Hc.
  destruct (char_eqb BULLET c) eqn:E; cbn [andb].
  - destruct s as [|d s]; [discriminate Hc|].
    cbn [startswith] in Hc. rewrite andb_true_r in Hc. rewrite Hc.
    cbn [andb List.length Nat.sub count_from].
    cbn [marked] in H. apply andb_true_iff in H as [_ H].
    rewrite IH by (cbn; lia || exact H).
    rewrite count_char_cons.
    apply char_eqb_eq in Hc. subst d. reflexivity.
  - apply IH; [cbn; lia | exact H].
Qed.

(** The scanner keeps a text marked when its replacement holds no bullet
    and no match starts at a bullet or at a space. *)
Lemma marked_sub (m : str -> option nat) (repl s : str) :
  count_char BULLET repl = 0 ->
  (forall c t n, m (c :: t) = Some (S n) ->
                 char_eqb c BULLET = false /\ char_eqb SPACE c = false) ->
  marked s = true -> marked (sub m repl s) = true.
Proof.
  intros Hrepl Hm. induction s as [s IH] using str_length_ind. intros H.
  destruct s as [|c s]; [reflexivity|].
  assert (Hcopy : marked (c :: sub m repl s) = true).
  { cbn [marked] in *. apply andb_true_iff in H as [Hc H].
    rewrite IH by (cbn; lia || exact H). rewrite andb_true_r.
    destruct (char_eqb c BULLET); [|reflexivity].
    destruct s as [|d s]; [discriminate Hc|].
    cbn [startswith] in Hc. rewrite andb_true_r in Hc.
    rewrite sub_cons. destruct (m (d :: s)) as [[|n]|] eqn:E;
      cbn [startswith]; rewrite ?Hc; try reflexivity.
    apply Hm in E as [_ E]. congruence. }
  rewrite sub_cons. destruct (m (c :: s)) as [[|n]|] eqn:E; try exact Hcopy.
  apply marked_app; [now apply marked_bullet_free|].
  apply IH.
  - cbn. pose proof (length_skipn_le n s). lia.
  - apply marked_skipn. cbn [marked] in H.
    now apply andb_true_iff in H as [_ H].
Qed.

Lemma match_literal_head (a : char) (o : str) (c : char) (t : str) (n : nat) :
  match_literal (a :: o) (c :: t) = Some n -> c = a.
Proof.
  unfold match_literal. cbn [startswith].
  destruct (char_eqb a c) eqn:E; [|discriminate].
  intros _. symmetry. now apply char_eqb_eq.
Qed.

Lemma marked_replace (a : char) (o : str) (z : char) (s : str) :
  char_eqb a BULLET = false -> char_eqb SPACE a = false ->
  count_char BULLET [z] = 0 ->
  marked s = true -> marked (replace (a :: o) [z] s) = true.
Proof.
  intros Ha Hs Hz. rewrite replace_sub by discriminate.
  apply marked_sub; [exact Hz|].
  intros c t n Hm. apply match_literal_head in Hm. now subst c.
Qed.

Lemma marked_checkboxes (s : str) :
  marked s = true -> marked (checkboxes s) = true.
Proof.
  intros H. unfold checkboxes. norm_lits.
  repeat apply marked_replace; solve [reflexivity | exact H].
Qed.

Lemma marked_strip_ansi (s : str) :
  marked s = true -> marked (strip_ansi s) = true.
Proof.
  apply marked_sub; [reflexivity|].
  intros c t n Hm. unfold match_ansi in Hm.
  destruct t as [|b t]; [discriminate Hm|].
  destruct (char_eqb c ESC) eqn:E; [|discriminate Hm].
  apply char_eqb_eq in E. subst c. split; reflexivity.
Qed.

Lemma marked_collapse (s : str) :
  marked s = true -> marked (collapse s) = true.
Proof.
  apply marked_sub; [reflexivity|].
  intros c t n Hm. unfold match_blank_lines in Hm.
  rewrite newlines_cons in Hm.
  destruct (char_eqb c LF) eqn:E; [|discriminate Hm].
  apply char_eqb_eq in E. subst c. split; reflexivity.
Qed.

Lemma marked_strings_bullet_free (n : node) :
  bullet_free n = true -> marked (List.concat (strings n)) = true.
Proof.
  intros H. apply marked_bullet_free. now apply bullet_free_count.
Qed.

(** The text of a bulleted tree is marked when its text leaves hold no
    bullet. *)
Lemma marked_bullet (n : node) :
  bullet_free n = true ->
  marked (List.concat (flat_map strings (bullet n))) = true.
Proof.
  induction n as [s|name kids IH] using node_tree_ind; intros H.
  - now apply (marked_strings_bullet_free (Text s)).
  - assert (Hkids :
      marked (List.concat (flat_map strings (flat_map bullet kids))) = true).
    { cbn [bullet_free] in H.
      induction IH as [|k kids Hk _ IHkids]; [reflexivity|].
      cbn [forallb] in H. apply andb_true_iff in H as [H1 H2].
      cbn [flat_map]. rewrite flat_map_app, concat_app.
      apply marked_app; auto. }
    cbn [bullet]. destruct (name_in ["li"%string] name);
      cbn [flat_map strings app List.concat]; rewrite ?concat_app, ?app_nil_r.
    + change (BULLET :: SPACE :: ?t) with ([BULLET; SPACE] ++ t).
      repeat apply marked_app; solve [reflexivity | exact Hkids].
    + exact Hkids.
Qed.

Lemma marked_lists_to_bullets (soup : list node) :
  forallb bullet_free soup = true ->
  marked (soup_get_text (lists_to_bullets soup)) = true.
Proof.
  unfold soup_get_text, lists_to_bullets.
  induction soup as [|n soup IH]; intros H; [reflexivity|].
  cbn [forallb] in H. apply andb_true_iff in H as [Hn Hsoup].
  cbn [flat_map]. rewrite flat_map_app, concat_app.
  apply marked_app; [now apply marked_bullet | now apply IH].
Qed.

(** The trimmed text is marked unless the trim left a bullet at its end. *)
Lemma marked_finish (text : str) :
  marked text = true ->
  endswith (finish text) [BULLET] = false ->
  marked (finish text) = true.
Proof.
  intros H Hend. unfold finish in *.
  set (t := if negb (endswith text [LF]) then text ++ [LF] else text) in *.
  assert (Ht : marked t = true).
  { unfold t. destruct (negb (endswith text [LF])); [|exact H].
    now apply marked_app. }
  unfold strip in *.
  destruct (rstrip_prefix (lstrip t)) as [w Hw].
  apply marked_app_l with (b := w); [|exact Hend].
  rewrite <- Hw.
  destruct (lstrip_suffix t) as [w' Hw']. rewrite Hw' in Ht.
  now apply marked_app_r in Ht.
Qed.

(** C9, as the claim states it, fails on a list with one empty item, whose
    text is a bullet without a space after it, and on a list whose item
    starts with a bullet of its own, whose text holds two markers. *)
Lemma bullet_markers_differ_from_items :
  (forallb only_lists empty_item_list = true
   /\ list_items empty_item_list = 1
   /\ Dom.run to_upper_full_latin1 no_tables empty_item_list
      = Dom.Ok [BULLET]
   /\ count [BULLET; SPACE] [BULLET] = 0)
  /\ (forallb only_lists bullet_text_list = true
      /\ list_items bullet_text_list = 1
      /\ Dom.run to_upper_full_latin1 no_tables bullet_text_list
         = Dom.Ok ([BULLET; SPACE; BULLET; SPACE] ++ lit "x")
      /\ count [BULLET; SPACE] ([BULLET; SPACE; BULLET; SPACE] ++ lit "x")
         = 2).
Proof. repeat split. Qed.

(** C9, amended. For a document with list content only whose text leaves
    hold no bullet character, the text returned holds as many bullet
    characters as the document has list items; when it does not end with a
    bullet, it holds as many "• " markers. *)
Theorem bullets_match_list_items
  (to_upper_full : char -> str) (tabulate : list (list str) -> list str -> str)
  (soup : list node) :
  forallb only_lists soup = true ->
  forallb bullet_free soup = true ->
  exists out,
    Dom.run to_upper_full tabulate soup = Dom.Ok out
    /\ count_char BULLET out = list_items soup
    /\ (endswith out [BULLET] = false ->
        count [BULLET; SPACE] out = list_items soup).
Proof.
  intros Hlists Hfree.
  exists (render to_upper_full tabulate soup).
  assert (Hcount :
    count_char BULLET (render to_upper_full tabulate soup) = list_items soup).
  { unfold render.
    rewrite count_char_cleanup, only_lists_extract_text by exact Hlists.
    now apply count_char_lists_to_bullets. }
  split; [apply DomFacts.run_render|]. split; [exact Hcount|].
  intros Hend. rewrite count_marked; [exact Hcount|].
  unfold render, cleanup in *. apply marked_finish; [|exact Hend].
  apply marked_collapse, marked_strip_ansi, marked_checkboxes.
  rewrite only_lists_extract_text by exact Hlists.
  now apply marked_lists_to_bullets.
Qed.

Lemma bullets_match_list_items_witness :
  forallb only_lists
    [Tag "ul" [Tag "li" [Text (lit "Eggs")]; Tag "li" [Text (lit "Milk")]]]
  = true
  /\ exists out,
       Dom.run to_upper_full_latin1 no_tables
         [Tag "ul" [Tag "li" [Text (lit "Eggs")];
                    Tag "li" [Text (lit "Milk")]]]
       = Dom.Ok out
       /\ count_char BULLET out = 2.
Proof.
  split; [reflexivity|].
  destruct (@bullets_match_list_items to_upper_full_latin1 no_tables
              [Tag "ul" [Tag "li" [Text (lit "Eggs")];
                         Tag "li" [Text (lit "Milk")]]]
              eq_refl eq_refl)
    as (out & Hrun & Hcount & _).
  exists out. split; [exact Hrun | exact Hcount].
Defined.

(** * Further properties of the renderer and the wrapper *)

(** ** Blank lines *)

Lemma startswith_three_newlines (t : str) :
  startswith [LF; LF; LF] t = (3 <=? newlines t).
Proof.
  destruct t as [|a [|b [|c t]]]; cbn [startswith]; rewrite ?newlines_cons;
    rewrite ?(N.eqb_sym LF : forall x, char_eqb LF x = char_eqb x LF);
    repeat match goal with
           | |- context [char_eqb ?x LF] => destruct (char_eqb x LF)
           end;
    reflexivity.
Qed.

Lemma collapse_no_three_line_breaks (s : str) :
  contains [LF; LF; LF] (collapse s) = false.
Proof.
  induction s as [s IH] using str_length_ind.
  destruct s as [|c s]; [reflexivity|].
  rewrite collapse_cons.
  destruct (3 <=? newlines (c :: s)) eqn:E.
  - set (rest := skipn (newlines (c :: s)) (c :: s)).
    assert (Hrest : newlines (collapse rest) = 0).
    { rewrite newlines_collapse. unfold rest. now rewrite newlines_skipn. }
    rewrite !contains_cons, !startswith_three_newlines, !newlines_cons.
    rewrite Hrest. change (char_eqb LF LF) with true. cbv iota.
    change (3 <=? 2) with false. change (3 <=? 1) with false. cbn [orb].
    apply IH. apply Nat.leb_le in E. unfold rest.
    destruct (newlines (c :: s)) eqn:En; [lia|].
    cbn. pose proof (length_skipn_le n s). lia.
  - rewrite contains_cons, startswith_three_newlines.
    replace (newlines (c :: collapse s)) with (newlines (c :: s)).
    + rewrite E. apply IH. cbn; lia.
    + apply Nat.leb_gt in E. rewrite !newlines_cons in *.
      destruct (char_eqb c LF); [|reflexivity].
      rewrite newlines_collapse.
      destruct (3 <=? newlines s) eqn:E'; [apply Nat.leb_le in E'; lia|].
      reflexivity.
Qed.

(** X1. After the compaction of blank lines no three line breaks follow one
    another. *)
Theorem collapse_leaves_no_three_line_breaks (s : str) :
  contains [LF; LF; LF] (collapse s) = false.
Proof. apply collapse_no_three_line_breaks. Qed.

Lemma contains_app_r (p a b : str) :
  contains p (a ++ b) = false -> contains p b = false.
Proof.
  induction a as [|c a IH]; intros H; [exact H|].
  cbn [app] in H. rewrite contains_cons in H.
  apply orb_false_iff in H as [_ H]. now apply IH.
Qed.

Lemma contains_app_l (p a b : str) :
  contains p (a ++ b) = false -> contains p a = false.
Proof.
  destruct p as [|x p].
  { intros H. destruct (a ++ b); discriminate H. }
  induction a as [|c a IH]; intros H; [reflexivity|].
  cbn [app] in H. rewrite contains_cons in *.
  apply orb_false_iff in H as [H1 H2]. rewrite (IH H2), orb_false_r.
  destruct (startswith (x :: p) (c :: a)) eqn:E; [|reflexivity].
  apply startswith_app_r with (t := b) in E. cbn [app] in E. congruence.
Qed.

Lemma endswith_cons (c : char) (t : str) (x : char) :
  t <> [] -> endswith (c :: t) [x] = endswith t [x].
Proof.
  intros Ht. unfold endswith. cbn [rev].
  destruct (rev t) as [|y r] eqn:E; [|reflexivity].
  apply (f_equal (@rev char)) in E. rewrite rev_involutive in E.
  cbn in E. congruence.
Qed.

Lemma newlines_snoc (t : str) :
  t <> [] -> endswith t [LF] = false -> newlines (t ++ [LF]) = newlines t.
Proof.
  induction t as [|c t IH]; intros Hne Hend; [congruence|].
  cbn [app]. rewrite !newlines_cons.
  destruct (char_eqb c LF) eqn:E; [|reflexivity].
  apply char_eqb_eq in E. subst c.
  destruct t as [|d t]; [discriminate Hend|].
  rewrite IH; [reflexivity | discriminate |].
  now rewrite endswith_cons in Hend.
Qed.

Lemma contains_snoc_newline (t : str) :
  contains [LF; LF; LF] t = false -> endswith t [LF] = false ->
  contains [LF; LF; LF] (t ++ [LF]) = false.
Proof.
  induction t as [|c t IH]; intros H Hend; [reflexivity|].
  assert (Hhead :
    startswith [LF; LF; LF] ((c :: t) ++ [LF])
    = startswith [LF; LF; LF] (c :: t)).
  { rewrite !startswith_three_newlines.
    now rewrite newlines_snoc by (discriminate || exact Hend). }
  cbn [app] in *. rewrite contains_cons in *. rewrite Hhead.
  apply orb_false_iff in H as [H1 H2]. rewrite H1. cbn [orb].
  destruct t as [|d t]; [reflexivity|].
  apply IH; [exact H2|]. now rewrite endswith_cons in Hend.
Qed.

Lemma contains_strip (p s : str) :
  contains p s = false -> contains p (strip s) = false.
Proof.
  intros H. unfold strip.
  destruct (lstrip_suffix s) as [w Hw]. rewrite Hw in H.
  apply contains_app_r in H.
  destruct (rstrip_prefix (lstrip s)) as [w' Hw']. rewrite Hw' in H.
  now apply contains_app_l in H.
Qed.

Lemma cleanup_no_three_line_breaks (text : str) :
  contains [LF; LF; LF] (cleanup text) = false.
Proof.
  unfold cleanup, finish. apply contains_strip.
  pose proof (collapse_no_three_line_breaks
                (strip_ansi (checkboxes text))) as H.
  destruct (endswith (collapse (strip_ansi (checkboxes text))) [LF]) eqn:E;
    cbn [negb]; [exact H|].
  now apply contains_snoc_newline.
Qed.

(** X2. The text [markdown_to_plain_text] returns never holds three line
    breaks in a row. *)
Theorem rendered_text_has_no_three_line_breaks
  (to_upper_full : char -> str) (tabulate : list (list str) -> list str -> str)
  (parse : str -> list node) (md_text : str) :
  exists out,
    markdown_to_plain_text to_upper_full tabulate parse md_text = Dom.Ok out
    /\ contains [LF; LF; LF] out = false.
Proof.
  exists (render to_upper_full tabulate (parse md_text)). split.
  - apply DomFacts.run_render.
  - apply cleanup_no_three_line_breaks.
Qed.

(** ** Checkboxes *)

(** X3. The checkbox step is idempotent: on its own result it changes
    nothing. *)
Theorem checkboxes_idempotent (s : str) :
  checkboxes (checkboxes s) = checkboxes s.
Proof.
  destruct (checkboxes_no_residual s) as [H1 H2].
  now apply checkboxes_unchanged.
Qed.

(** ** ANSI sequences *)

(** [sub] splits where no match crosses. *)
Lemma sub_app (m : str -> option nat) (repl u w : str) :
  (forall u1 u2, u = u1 ++ u2 -> u2 <> [] ->
     m (u2 ++ w) = m u2
     /\ forall n, m u2 = Some n -> n <= List.length u2) ->
  sub m repl (u ++ w) = sub m repl u ++ sub m repl w.
Proof.
  induction u as [u IH] using str_length_ind. intros Hcross.
  destruct u as [|c u]; [reflexivity|].
  destruct (Hcross [] (c :: u) eq_refl ltac:(discriminate)) as [Hm Hlen].
  cbn [app] in *. rewrite !sub_cons, Hm.
  destruct (m (c :: u)) as [[|n]|] eqn:E.
  - cbn [app]. f_equal. apply IH; [cbn; lia|].
    intros u1 u2 Hu. apply (Hcross (c :: u1) u2). now rewrite Hu.
  - specialize (Hlen _ eq_refl). cbn [List.length] in Hlen.
    rewrite skipn_app. replace (n - List.length u) with 0 by lia.
    cbn [skipn]. rewrite <- app_assoc. f_equal. apply IH.
    + cbn. pose proof (length_skipn_le n u). lia.
    + intros u1 u2 Hu. apply (Hcross (c :: firstn n u ++ u1) u2).
      cbn [app]. f_equal. rewrite <- app_assoc, <- Hu.
      symmetry. apply firstn_skipn.
  - cbn [app]. f_equal. apply IH; [cbn; lia|].
    intros u1 u2 Hu. apply (Hcross (c :: u1) u2). now rewrite Hu.
Qed.

Lemma ansi_params_before_esc (s r : str) :
  ansi_params (s ++ ESC :: r) = ansi_params s.
Proof.
  induction s as [|c s IH]; [reflexivity|].
  cbn [app ansi_params]. now rewrite IH.
Qed.

Lemma ansi_params_le (s : str) : ansi_params s <= List.length s.
Proof.
  induction s as [|c s IH]; [apply le_n|].
  cbn [ansi_params List.length]. destruct (is_ansi_param c); lia.
Qed.

(** A sequence that starts before an escape character ends before it. *)
Lemma match_ansi_before_esc (u r : str) :
  u <> [] ->
  match_ansi (u ++ ESC :: r) = match_ansi u
  /\ forall n, match_ansi u = Some n -> n <= List.length u.
Proof.
  intros Hu. destruct u as [|e [|b s]]; [congruence| |].
  - split; [|discriminate]. cbn [app match_ansi].
    change (char_eqb ESC 91%N) with false. now rewrite andb_false_r.
  - cbn [app match_ansi].
    destruct (char_eqb e ESC && char_eqb b 91%N); [|split; [reflexivity|discriminate]].
    rewrite ansi_params_before_esc.
    pose proof (ansi_params_le s) as Hle.
    destruct (skipn (ansi_params s) s) as [|x t] eqn:Es.
    + assert (Hall : ansi_params s = List.length s).
      { apply (f_equal (@List.length char)) in Es.
        rewrite length_skipn in Es. cbn in Es. lia. }
      rewrite skipn_app, Es, Hall, Nat.sub_diag. cbn [app skipn].
      change (char_eqb ESC 109%N) with false.
      split; [reflexivity|discriminate].
    + rewrite skipn_app, Es. cbn [app]. split; [reflexivity|].
      destruct (char_eqb x 109%N); [|discriminate].
      intros n [= <-]. apply (f_equal (@List.length char)) in Es.
      rewrite length_skipn in Es. cbn [List.length] in *. lia.
Qed.

Lemma ansi_params_all (ps r : str) :
  forallb is_ansi_param ps = true ->
  ansi_params (ps ++ 109%N :: r) = List.length ps.
Proof.
  induction ps as [|c ps IH]; intros H; [reflexivity|].
  cbn [forallb] in H. apply andb_true_iff in H as [Hc H].
  cbn [app ansi_params List.length]. now rewrite Hc, IH.
Qed.

(** X4. An ANSI sequence (escape, bracket, digits and semicolons, "m") is
    removed wherever it stands: what is left is what the step makes of the
    text before it, followed by what it makes of the text after it. *)
Theorem strip_ansi_removes_sequence (u ps v : str) :
  forallb is_ansi_param ps = true ->
  strip_ansi (u ++ ESC :: 91%N :: ps ++ 109%N :: v)
  = strip_ansi u ++ strip_ansi v.
Proof.
  intros Hps. unfold strip_ansi. rewrite sub_app.
  - f_equal. rewrite sub_cons. cbn [match_ansi].
    change (char_eqb ESC ESC && char_eqb 91%N 91%N) with true. cbv iota.
    rewrite (ansi_params_all _ _ Hps).
    rewrite skipn_app, skipn_all, Nat.sub_diag. cbn [app skipn].
    change (char_eqb 109%N 109%N) with true. cbv iota.
    cbn [Nat.add app].
    change (skipn (S (S (List.length ps))) (91%N :: ps ++ 109%N :: v))
      with (skipn (S (List.length ps)) (ps ++ 109%N :: v)).
    replace (S (List.length ps)) with (List.length (ps ++ [109%N]))
      by (rewrite length_app; cbn; lia).
    replace (ps ++ 109%N :: v) with ((ps ++ [109%N]) ++ v)
      by now rewrite <- app_assoc.
    now rewrite skipn_app, skipn_all, Nat.sub_diag.
  - intros u1 u2 _ Hne. now apply match_ansi_before_esc.
Qed.

Lemma strip_ansi_removes_sequence_witness :
  forallb is_ansi_param (lit "1;44;93") = true
  /\ strip_ansi (lit "ab" ++ ESC :: 91%N :: lit "1;44;93" ++ 109%N :: lit "cd")
     = strip_ansi (lit "ab") ++ strip_ansi (lit "cd").
Proof.
  split; [reflexivity|].
  exact (@strip_ansi_removes_sequence (lit "ab") (lit "1;44;93") (lit "cd")
           eq_refl).
Defined.

(** A text without the escape character is left as it is. *)
Lemma strip_ansi_without_esc (s : str) :
  count_char ESC s = 0 -> strip_ansi s = s.
Proof.
  unfold strip_ansi. induction s as [|c s IH]; intros H; [reflexivity|].
  rewrite count_char_cons in H. rewrite sub_cons.
  assert (Hm : match_ansi (c :: s) = None).
  { unfold match_ansi. destruct s as [|b s]; [reflexivity|].
    rewrite (N.eqb_sym c ESC : char_eqb c ESC = char_eqb ESC c).
    destruct (char_eqb ESC c); [discriminate H | reflexivity]. }
  rewrite Hm. f_equal. apply IH.
  destruct (char_eqb ESC c); [discriminate H | exact H].
Qed.

(** X5. A text without the escape character passes step 8 unchanged. *)
Theorem text_without_escape_is_kept (s : str) :
  count_char ESC s = 0 -> strip_ansi s = s.
Proof. apply strip_ansi_without_esc. Qed.

Lemma text_without_escape_is_kept_witness :
  strip_ansi (lit "[1;44;93m") = lit "[1;44;93m".
Proof.
  exact (@text_without_escape_is_kept (lit "[1;44;93m") eq_refl).
Defined.

(** ** Step 10 *)

Lemma lstrip_app (t w : str) :
  lstrip (t ++ w) = if forallb isspace t then lstrip w else lstrip t ++ w.
Proof.
  induction t as [|c t IH]; [reflexivity|].
  cbn [app lstrip forallb]. destruct (isspace c); [exact IH | reflexivity].
Qed.

Lemma lstrip_all_space (t : str) : forallb isspace t = true -> lstrip t = [].
Proof.
  induction t as [|c t IH]; [reflexivity|].
  cbn [forallb lstrip]. destruct (isspace c); [exact IH | discriminate].
Qed.

Lemma rstrip_snoc_newline (u : str) : rstrip (u ++ [LF]) = rstrip u.
Proof. unfold rstrip. now rewrite rev_app_distr. Qed.

Lemma strip_snoc_newline (t : str) : strip (t ++ [LF]) = strip t.
Proof.
  unfold strip. rewrite lstrip_app.
  destruct (forallb isspace t) eqn:E.
  - now rewrite (lstrip_all_space _ E).
  - apply rstrip_snoc_newline.
Qed.

Lemma finish_strip (text : str) : finish text = strip text.
Proof.
  unfold finish. destruct (negb (endswith text [LF])); [|reflexivity].
  apply strip_snoc_newline.
Qed.

(** X6. Step 10 has no effect on what is returned: the line break it may
    append is removed again by the strip of the return statement. *)
Theorem trailing_newline_step_has_no_effect (text : str) :
  cleanup text = strip (collapse (strip_ansi (checkboxes text))).
Proof. apply finish_strip. Qed.

(** ** Blank text *)

Lemma forallb_skipn (P : char -> bool) (n : nat) (s : str) :
  forallb P s = true -> forallb P (skipn n s) = true.
Proof.
  revert s. induction n as [|n IH]; intros [|c s] H; try exact H.
  cbn [skipn]. cbn [forallb] in H. apply andb_true_iff in H as [_ H].
  now apply IH.
Qed.

Lemma forallb_sub (P : char -> bool) (m : str -> option nat) (repl s : str) :
  forallb P repl = true -> forallb P s = true ->
  forallb P (sub m repl s) = true.
Proof.
  intros Hrepl. induction s as [s IH] using str_length_ind. intros Hs.
  destruct s as [|c s]; [reflexivity|].
  rewrite sub_cons. cbn [forallb] in Hs.
  apply andb_true_iff in Hs as [Hc Hs].
  assert (Hcopy : forallb P (c :: sub m repl s) = true).
  { cbn [forallb]. rewrite Hc. apply IH; [cbn; lia | exact Hs]. }
  destruct (m (c :: s)) as [[|n]|]; try exact Hcopy.
  rewrite forallb_app, Hrepl. apply IH.
  - cbn. pose proof (length_skipn_le n s). lia.
  - now apply forallb_skipn.
Qed.

Lemma count_char_all_space (x : char) (s : str) :
  isspace x = false -> forallb isspace s = true -> count_char x s = 0.
Proof.
  intros Hx. induction s as [|c s IH]; intros H; [reflexivity|].
  cbn [forallb] in H. apply andb_true_iff in H as [Hc H].
  rewrite count_char_cons, (IH H).
  destruct (char_eqb x c) eqn:E; [|reflexivity].
  apply char_eqb_eq in E. congruence.
Qed.

Lemma contains_without_head (x : char) (p s : str) :
  count_char x s = 0 -> contains (x :: p) s = false.
Proof.
  induction s as [|c s IH]; intros H; [reflexivity|].
  rewrite count_char_cons in H. rewrite contains_cons. cbn [startswith].
  destruct (char_eqb x c); [discriminate H|]. now apply IH.
Qed.

Lemma cleanup_blank (text : str) :
  forallb isspace text = true -> cleanup text = [].
Proof.
  intros H. unfold cleanup. rewrite finish_strip.
  rewrite checkboxes_unchanged
    by (apply contains_without_head, count_char_all_space;
        [reflexivity | exact H]).
  rewrite strip_ansi_without_esc
    by (apply count_char_all_space; [reflexivity | exact H]).
  unfold strip. rewrite lstrip_all_space; [reflexivity|].
  unfold collapse. now apply forallb_sub.
Qed.

(** X7. A document whose text is made of whitespace characters only (the
    empty document among them) is rendered as the empty string. *)
Theorem blank_text_renders_empty
  (to_upper_full : char -> str) (tabulate : list (list str) -> list str -> str)
  (parse : str -> list node) (md_text : str) :
  forallb isspace (extract_text to_upper_full tabulate (parse md_text)) = true ->
  markdown_to_plain_text to_upper_full tabulate parse md_text = Dom.Ok [].
Proof.
  intros H. unfold markdown_to_plain_text. rewrite DomFacts.run_render.
  unfold render. now rewrite cleanup_blank.
Qed.

Lemma blank_text_renders_empty_witness :
  markdown_to_plain_text to_upper_full_latin1 no_tables
    (fun _ => [Tag "p" [Text [SPACE; LF]]; Text [LF]]) (lit "  ")
  = Dom.Ok [].
Proof.
  exact (@blank_text_renders_empty to_upper_full_latin1 no_tables
           (fun _ => [Tag "p" [Text [SPACE; LF]]; Text [LF]]) (lit "  ")
           eq_refl).
Defined.

(** ** [html.escape] on texts and their parts *)

(** X8. Escaping works character by character: the escaped form of a
    concatenation is the concatenation of the escaped forms. *)
Theorem html_escape_app (a b : str) :
  html_escape (a ++ b) = html_escape a ++ html_escape b.
Proof. rewrite !html_escape_flat_map. apply flat_map_app. Qed.

Lemma html_escape_plain (s : str) :
  forallb (fun c => negb (reserved c || (c =? 38)%N)) s = true ->
  html_escape s = s.
Proof.
  intros H. rewrite html_escape_flat_map.
  induction s as [|c s IH]; [reflexivity|].
  cbn [forallb] in H. apply andb_true_iff in H as [Hc H].
  cbn [flat_map]. rewrite (IH H).
  apply negb_true_iff, orb_false_iff in Hc as [Hr Ha].
  unfold reserved in Hr.
  repeat (apply orb_false_iff in Hr as [Hr ?]).
  unfold escape_char.
  repeat match goal with
         | E : (_ =? _)%N = false |- _ => rewrite E; clear E
         end.
  reflexivity.
Qed.

(** X9. A text without ampersand, angle bracket and quote is put between
    the opening and the closing markup as it is. *)
Theorem plain_text_is_wrapped_unchanged (s : str) :
  forallb (fun c => negb (reserved c || (c =? 38)%N)) s = true ->
  to_html_preserving_newlines s = pre_open ++ s ++ pre_close.
Proof.
  intros H. unfold to_html_preserving_newlines. now rewrite html_escape_plain.
Qed.

Lemma plain_text_is_wrapped_unchanged_witness :
  to_html_preserving_newlines (lit "NOTES" ++ [LF] ++ lit "-----")
  = pre_open ++ (lit "NOTES" ++ [LF] ++ lit "-----") ++ pre_close.
Proof.
  exact (@plain_text_is_wrapped_unchanged (lit "NOTES" ++ [LF] ++ lit "-----")
           eq_refl).
Defined.

(** ** Documents without lists, headings and tables *)

Section Untouched.

Variable to_upper_full : char -> str.
Variable tabulate : list (list str) -> list str -> str.

Lemma name_in_cons (k : string) (names : list string) (name : string) :
  name_in (k :: names) name = (String.eqb name k || name_in names name)%bool.
Proof. reflexivity. Qed.

Lemma untouched_node (n : node) :
  named ("li" :: "table" :: heading_names)%string n = [] ->
  bullet n = [n] /\ style_heading to_upper_full n = n
  /\ render_table tabulate n = n.
Proof.
  induction n as [s|name kids IH] using node_tree_ind; intros H.
  - repeat split.
  - cbn [named] in H. apply app_eq_nil in H as [Hname Hkids].
    assert (Hin : name_in ("li" :: "table" :: heading_names)%string name
                  = false)
      by (destruct (name_in _ name); [discriminate Hname | reflexivity]).
    rewrite !name_in_cons in Hin.
    apply orb_false_iff in Hin as [Hli Hin].
    apply orb_false_iff in Hin as [Htable Hh].
    assert (Hall : Forall (fun k =>
              bullet k = [k] /\ style_heading to_upper_full k = k
              /\ render_table tabulate k = k) kids).
    { clear Hname. induction IH as [|k kids Hk _ IHkids]; [constructor|].
      cbn [flat_map] in Hkids. apply app_eq_nil in Hkids as [H1 H2].
      constructor; [now apply Hk | now apply IHkids]. }
    cbn [bullet style_heading render_table].
    rewrite !name_in_cons. cbn [name_in existsb]. rewrite Hli, Htable, Hh.
    cbn [orb].
    repeat split.
    + do 2 f_equal. clear -Hall.
      induction Hall as [|k kids [Hk _] _ IH]; [reflexivity|].
      cbn [flat_map]. now rewrite Hk, IH.
    + f_equal. apply map_fixed.
      eapply Forall_impl; [|exact Hall]. now intros k (_ & Hk & _).
    + f_equal. apply map_fixed.
      eapply Forall_impl; [|exact Hall]. now intros k (_ & _ & Hk).
Qed.

Lemma untouched_extract_text (soup : list node) :
  flat_map (named ("li" :: "table" :: heading_names)%string) soup = [] ->
  extract_text to_upper_full tabulate soup = soup_get_text soup.
Proof.
  intros H.
  assert (Hall : Forall (fun k =>
            bullet k = [k] /\ style_heading to_upper_full k = k
            /\ render_table tabulate k = k) soup).
  { induction soup as [|k soup IH]; [constructor|].
    cbn [flat_map] in H. apply app_eq_nil in H as [H1 H2].
    constructor; [now apply untouched_node | now apply IH]. }
  unfold extract_text, tables_to_tabulate, headings_to_underlined,
    lists_to_bullets.
  replace (flat_map bullet soup) with soup.
  - rewrite (map_fixed (style_heading to_upper_full)), map_fixed;
      [reflexivity | |];
      (eapply Forall_impl; [|exact Hall]); now intros k (_ & ? & ?).
  - clear -Hall. induction Hall as [|k kids [Hk _] _ IH]; [reflexivity|].
    cbn [flat_map]. now rewrite Hk, <- IH.
Qed.

End Untouched.

(** X10. For a document without list items, headings and tables the passes
    over the tree change nothing: the text handed to the clean-up steps is
    the text of the parsed document. *)
Theorem document_without_blocks_keeps_its_text
  (to_upper_full : char -> str) (tabulate : list (list str) -> list str -> str)
  (soup : list node) :
  flat_map (named ("li" :: "table" :: heading_names)%string) soup = [] ->
  Dom.run to_upper_full tabulate soup = Dom.Ok (cleanup (soup_get_text soup)).
Proof.
  intros H. rewrite DomFacts.run_render. unfold render.
  now rewrite untouched_extract_text.
Qed.

Lemma document_without_blocks_keeps_its_text_witness :
  Dom.run to_upper_full_latin1 no_tables
    [Tag "p" [Text (lit "a "); Tag "em" [Text (lit "b")]]; Text [LF]]
  = Dom.Ok (cleanup
      (soup_get_text
         [Tag "p" [Text (lit "a "); Tag "em" [Text (lit "b")]]; Text [LF]])).
Proof.
  exact (@document_without_blocks_keeps_its_text to_upper_full_latin1
           no_tables
           [Tag "p" [Text (lit "a "); Tag "em" [Text (lit "b")]]; Text [LF]]
           eq_refl).
Defined.

(** ** Tables without a [thead] *)

(** X11. In a table without a [thead] the cells of the first [tr] are the
    headers, and the rows are the cell lists of the other [tr] elements, in
    their order, without the empty ones: the first row is no data row. *)
Theorem table_without_thead_uses_first_row
  (table first_row : node) (rest : list node) :
  find ["thead"%string] table = None ->
  find_all ["tr"%string] table = first_row :: rest ->
  table_headers table = cell_texts (find_all ["th"; "td"]%string first_row)
  /\ table_rows table
     = List.filter (fun cells => negb (Nat.eqb (List.length cells) 0))
         (List.map (fun tr => cell_texts (find_all ["td"; "th"]%string tr))
            rest).
Proof.
  intros Hthead Htr. split.
  - unfold table_headers. rewrite Hthead. unfold find. now rewrite Htr.
  - rewrite table_rows_filter. unfold start_idx. now rewrite Hthead, Htr.
Qed.

Lemma table_without_thead_uses_first_row_witness :
  let first_row := Tag "tr" [Tag "td" [Text (lit "Name")]] in
  let rest := [Tag "tr" []; Tag "tr" [Tag "td" [Text (lit " Ann ")]]] in
  let table := Tag "table" (first_row :: rest) in
  table_headers table = cell_texts (find_all ["th"; "td"]%string first_row)
  /\ table_rows table
     = List.filter (fun cells => negb (Nat.eqb (List.length cells) 0))
         (List.map (fun tr => cell_texts (find_all ["td"; "th"]%string tr))
            rest).
Proof.
  exact (@table_without_thead_uses_first_row
           (Tag "table"
              (Tag "tr" [Tag "td" [Text (lit "Name")]]
               :: [Tag "tr" []; Tag "tr" [Tag "td" [Text (lit " Ann ")]]]))
           (Tag "tr" [Tag "td" [Text (lit "Name")]])
           [Tag "tr" []; Tag "tr" [Tag "td" [Text (lit " Ann ")]]]
           eq_refl eq_refl).
Defined.

(** * Headings in the returned text *)

(** ** The text around a place of the document *)

Section Frames.

Variable to_upper_full : char -> str.
Variable tabulate : list (list str) -> list str -> str.

(** What an element that is no heading and no table contributes: the text
    of its children, between a bullet and a line break for a list item. *)
Lemma extract_text_element (name : string) (kids : list node) :
  name_in heading_names name = false ->
  name_in ["table"%string] name = false ->
  extract_text to_upper_full tabulate [Tag name kids]
  = (if name_in ["li"%string] name then [BULLET; SPACE] else [])
    ++ extract_text to_upper_full tabulate kids
    ++ (if name_in ["li"%string] name then [LF] else []).
Proof.
  intros Hh Ht.
  unfold extract_text, lists_to_bullets, headings_to_underlined,
    tables_to_tabulate, soup_get_text.
  cbn [flat_map bullet].
  destruct (name_in ["li"%string] name);
    cbn [app List.map style_heading render_table]; rewrite Hh;
    cbn [render_table]; rewrite Ht;
    cbn [flat_map strings app List.concat];
    rewrite ?app_nil_r, ?concat_app; cbn [List.concat app];
    rewrite ?app_nil_r; reflexivity.
Qed.

Lemma extract_text_plug (frames : list frame) (here : list node) :
  open_frames frames = true ->
  extract_text to_upper_full tabulate (plug frames here)
  = text_before to_upper_full tabulate frames
    ++ extract_text to_upper_full tabulate here
    ++ text_after to_upper_full tabulate frames.
Proof.
  induction frames as [|f frames IH]; intros Hopen.
  - cbn [plug text_before text_after app]. now rewrite app_nil_r.
  - cbn [open_frames forallb] in Hopen.
    apply andb_true_iff in Hopen as [Hf Hopen].
    apply andb_true_iff in Hf as [Hh Ht].
    apply negb_true_iff in Hh, Ht.
    cbn [plug text_before text_after].
    rewrite extract_text_around, (@extract_text_element _ _ Hh Ht), (IH Hopen).
    now rewrite <- !app_assoc.
Qed.

End Frames.

(** ** Steps 7 to 9 work line by line *)

Lemma checkboxes_line_break (x y : str) :
  checkboxes (x ++ LF :: y) = checkboxes x ++ LF :: checkboxes y.
Proof.
  rewrite !checkboxes_sub.
  rewrite !sub_literal_separator; solve [reflexivity | discriminate | not_in].
Qed.

Lemma ansi_params_before_line_break (s r : str) :
  ansi_params (s ++ LF :: r) = ansi_params s.
Proof.
  induction s as [|c s IH]; [reflexivity|].
  cbn [app ansi_params]. now rewrite IH.
Qed.

Lemma match_ansi_before_line_break (u r : str) :
  u <> [] ->
  match_ansi (u ++ LF :: r) = match_ansi u
  /\ forall n, match_ansi u = Some n -> n <= List.length u.
Proof.
  intros Hu. destruct u as [|e [|b s]]; [congruence| |].
  - split; [|discriminate]. cbn [app match_ansi].
    change (char_eqb LF 91%N) with false. now rewrite andb_false_r.
  - cbn [app match_ansi].
    destruct (char_eqb e ESC && char_eqb b 91%N);
      [|split; [reflexivity|discriminate]].
    rewrite ansi_params_before_line_break.
    pose proof (ansi_params_le s) as Hle.
    destruct (skipn (ansi_params s) s) as [|x t] eqn:Es.
    + assert (Hall : ansi_params s = List.length s).
      { apply (f_equal (@List.length char)) in Es.
        rewrite length_skipn in Es. cbn in Es. lia. }
      rewrite skipn_app, Es, Hall, Nat.sub_diag. cbn [app skipn].
      change (char_eqb LF 109%N) with false.
      split; [reflexivity|discriminate].
    + rewrite skipn_app, Es. cbn [app]. split; [reflexivity|].
      destruct (char_eqb x 109%N); [|discriminate].
      intros n [= <-]. apply (f_equal (@List.length char)) in Es.
      rewrite length_skipn in Es. cbn [List.length] in *. lia.
Qed.

Lemma strip_ansi_line_break (x y : str) :
  strip_ansi (x ++ LF :: y) = strip_ansi x ++ LF :: strip_ansi y.
Proof.
  unfold strip_ansi. rewrite sub_app.
  - f_equal. rewrite sub_cons.
    now destruct y as [|b y].
  - intros u1 u2 _ Hu2. now apply match_ansi_before_line_break.
Qed.

Lemma newlines_le (s : str) : newlines s <= List.length s.
Proof.
  induction s as [|c s IH]; [apply le_n|].
  rewrite newlines_cons. cbn [List.length]. destruct (char_eqb c LF); lia.
Qed.

Lemma newlines_before (u : str) (c : char) (y : str) :
  char_eqb c LF = false -> newlines (u ++ c :: y) = newlines u.
Proof.
  intros Hc. induction u as [|d u IH].
  - cbn [app]. now rewrite newlines_cons, Hc.
  - cbn [app]. rewrite !newlines_cons, IH. reflexivity.
Qed.

(** A run of line breaks ends at a character that is none. *)
Lemma collapse_around (x : str) (c : char) (y : str) :
  char_eqb c LF = false ->
  collapse (x ++ c :: y) = collapse x ++ c :: collapse y.
Proof.
  intros Hc. unfold collapse. rewrite sub_app.
  - f_equal. fold (collapse (c :: y)). fold (collapse y).
    now rewrite collapse_cons, newlines_cons, Hc.
  - intros u1 u2 _ _. unfold match_blank_lines.
    rewrite newlines_before by exact Hc. split; [reflexivity|].
    intros n. destruct (3 <=? newlines u2); [|discriminate].
    intros [= <-]. apply newlines_le.
Qed.

Lemma collapse_line (s y : str) :
  count_char LF s = 0 -> collapse (s ++ y) = s ++ collapse y.
Proof.
  induction s as [|c s IH]; intros H; [reflexivity|].
  rewrite count_char_cons in H.
  rewrite (N.eqb_sym LF c : char_eqb LF c = char_eqb c LF) in H.
  destruct (char_eqb c LF) eqn:E; [discriminate H|].
  cbn [app]. rewrite collapse_cons, newlines_cons, E.
  change (3 <=? 0) with false. cbv iota. f_equal. now apply IH.
Qed.

Lemma endswith_skipn (k : nat) (s : str) (x : char) :
  endswith s [x] = true -> skipn k s <> [] ->
  endswith (skipn k s) [x] = true.
Proof.
  intros H Hne. apply endswith_split in H as [w ->].
  rewrite skipn_app in *.
  destruct (Nat.le_gt_cases k (List.length w)) as [Hk|Hk].
  - replace (k - List.length w) with 0 by lia. apply endswith_app.
  - exfalso. apply Hne.
    rewrite (skipn_all2 w) by lia.
    destruct (k - List.length w) as [|j] eqn:E; [lia|].
    cbn [app skipn]. now destruct j.
Qed.

Lemma endswith_nonempty (s p : str) :
  p <> [] -> endswith s p = true -> s <> [].
Proof.
  intros Hp H ->. apply endswith_split in H as [w H].
  destruct w, p; try discriminate H. congruence.
Qed.

(** Step 9 leaves a line break at the end of the text there. *)
Lemma collapse_keeps_last_line_break (s : str) :
  endswith s [LF] = true -> endswith (collapse s) [LF] = true.
Proof.
  induction s as [s IH] using str_length_ind. intros H.
  destruct s as [|c s]; [discriminate H|].
  rewrite collapse_cons.
  destruct (3 <=? newlines (c :: s)) eqn:E.
  - apply Nat.leb_le in E.
    destruct (skipn (newlines (c :: s)) (c :: s)) as [|d t] eqn:Es;
      [reflexivity|].
    assert (Ht : endswith (d :: t) [LF] = true).
    { rewrite <- Es. apply endswith_skipn; [exact H|]. now rewrite Es. }
    assert (Hlen : List.length (d :: t) < List.length (c :: s)).
    { rewrite <- Es, length_skipn. cbn [List.length]. lia. }
    specialize (IH _ Hlen Ht).
    assert (Hne := IH). apply endswith_nonempty in Hne; [|discriminate].
    rewrite !endswith_cons; [exact IH | exact Hne | discriminate].
  - destruct s as [|d s]; [exact H|].
    rewrite endswith_cons in H by discriminate.
    assert (Hlen : List.length (d :: s) < List.length (c :: d :: s))
      by (cbn; lia).
    specialize (IH _ Hlen H).
    assert (Hne := IH). apply endswith_nonempty in Hne; [|discriminate].
    now rewrite endswith_cons.
Qed.

Lemma collapse_keeps_first_line_break (s : str) :
  startswith [LF] (collapse (LF :: s)) = true.
Proof.
  rewrite collapse_cons. now destruct (3 <=? newlines (LF :: s)).
Qed.

(** ** Step 10 and the return statement, around a line *)

Lemma lstrip_keeps (m s : str) :
  m <> [] -> space_first m = false -> lstrip (m ++ s) = m ++ s.
Proof.
  destruct m as [|c m]; [congruence|]. cbn. now intros _ ->.
Qed.

(** What [strip] takes from a text, it takes before its first and after
    its last character that is no whitespace. *)
Lemma strip_around (p m s : str) :
  m <> [] -> space_first m = false -> space_first (rev m) = false ->
  strip (p ++ m ++ s) = lstrip p ++ m ++ rstrip s.
Proof.
  intros Hne Hfirst Hlast.
  assert (Hl : lstrip (p ++ m ++ s) = lstrip p ++ m ++ s).
  { rewrite lstrip_app. destruct (forallb isspace p) eqn:E.
    - rewrite (lstrip_all_space _ E). now rewrite lstrip_keeps.
    - reflexivity. }
  unfold strip. rewrite Hl. unfold rstrip.
  rewrite !rev_app_distr, <- app_assoc.
  assert (Hrev : rev m <> []).
  { intros E. apply Hne. apply (f_equal (@rev char)) in E.
    now rewrite rev_involutive in E. }
  assert (Hr : lstrip (rev s ++ rev m ++ rev (lstrip p))
               = lstrip (rev s) ++ rev m ++ rev (lstrip p)).
  { rewrite lstrip_app. destruct (forallb isspace (rev s)) eqn:E.
    - rewrite (lstrip_all_space _ E). now rewrite lstrip_keeps.
    - reflexivity. }
  rewrite Hr, !rev_app_distr, !rev_involutive, <- app_assoc. reflexivity.
Qed.

Lemma lstrip_ends (p : str) (x : char) :
  endswith p [x] = true -> lstrip p = [] \/ endswith (lstrip p) [x] = true.
Proof.
  induction p as [|c p IH]; intros H; [now left|].
  cbn [lstrip]. destruct (isspace c); [|now right].
  destruct p as [|d p]; [now left|].
  apply IH. now rewrite endswith_cons in H.
Qed.

Lemma rstrip_starts (s : str) (x : char) :
  startswith [x] s = true -> rstrip s = [] \/ startswith [x] (rstrip s) = true.
Proof.
  intros H. destruct (rstrip_prefix s) as [w Hw].
  destruct (rstrip s) as [|d r]; [now left|]. right.
  rewrite Hw in H. exact H.
Qed.

(** ** A heading line and the line of dashes below it *)

Lemma count_char_times (x c : char) (n : nat) :
  char_eqb x c = false -> count_char x (times c n) = 0.
Proof.
  intros H. induction n as [|n IH]; [reflexivity|].
  cbn [times repeat]. rewrite count_char_cons, H. exact IH.
Qed.

Lemma rev_times (c : char) (n : nat) : rev (times c n) = times c n.
Proof.
  induction n as [|n IH]; [reflexivity|].
  cbn [times repeat rev]. fold (times c n). rewrite IH.
  clear IH. induction n as [|n IH]; [reflexivity|].
  cbn [times repeat app]. fold (times c n). now rewrite IH.
Qed.

(** Steps 7 to 10 leave a heading line and the dashes below it as they
    are, each on a line of its own. *)
Lemma cleanup_keeps_heading (b a title : str) (n : nat) :
  plain_line title = true -> n <> 0 ->
  exists before after,
    cleanup (b ++ ([LF] ++ title ++ [LF] ++ times DASH n ++ [LF]) ++ a)
    = before ++ title ++ [LF] ++ times DASH n ++ after
    /\ (before = [] \/ endswith before [LF] = true)
    /\ (after = [] \/ startswith [LF] after = true).
Proof.
  intros Hplain Hn. unfold plain_line in Hplain.
  repeat (apply andb_true_iff in Hplain as [Hplain ?]).
  rename H into Hx, H0 into Hbox, H1 into Hesc, H2 into Hlf, H3 into Hspace.
  apply negb_true_iff in Hx, Hbox, Hspace.
  apply Nat.eqb_eq in Hesc, Hlf.
  assert (Hne : title <> []) by (destruct title; [discriminate|discriminate]).
  set (dashes := times DASH n).
  assert (Hdlf : count_char LF dashes = 0) by now apply count_char_times.
  assert (Hdesc : count_char ESC dashes = 0) by now apply count_char_times.
  assert (Hdbox : checkboxes dashes = dashes).
  { apply checkboxes_unchanged;
      apply contains_without_head; now apply count_char_times. }
  pose (clean := fun s => strip_ansi (checkboxes s)).
  assert (Hsteps :
    strip_ansi
      (checkboxes (b ++ ([LF] ++ title ++ [LF] ++ dashes ++ [LF]) ++ a))
    = clean b ++ LF :: title ++ LF :: dashes ++ LF :: clean a).
  { repeat (rewrite <- app_assoc; cbn [app]).
    rewrite !checkboxes_line_break, !strip_ansi_line_break.
    rewrite (checkboxes_unchanged _ Hbox Hx), Hdbox.
    now rewrite (strip_ansi_without_esc _ Hesc),
      (strip_ansi_without_esc _ Hdesc). }
  unfold cleanup. rewrite Hsteps, finish_strip.
  destruct title as [|t0 title]; [congruence|].
  assert (Ht0 : char_eqb t0 LF = false).
  { rewrite count_char_cons in Hlf.
    rewrite (N.eqb_sym t0 LF : char_eqb t0 LF = char_eqb LF t0).
    destruct (char_eqb LF t0); [discriminate Hlf | reflexivity]. }
  assert (Htl : count_char LF title = 0).
  { rewrite count_char_cons in Hlf. lia. }
  destruct n as [|n]; [congruence|].
  assert (Hcollapse :
    collapse (clean b ++ LF :: (t0 :: title) ++ LF :: dashes ++ LF :: clean a)
    = collapse (clean b ++ [LF])
      ++ ((t0 :: title) ++ [LF] ++ dashes)
      ++ collapse (LF :: clean a)).
  { replace (clean b ++ LF :: (t0 :: title) ++ LF :: dashes ++ LF :: clean a)
      with ((clean b ++ [LF])
            ++ t0 :: title ++ LF :: dashes ++ LF :: clean a)
      by (now rewrite <- app_assoc).
    rewrite (@collapse_around _ _ _ Ht0), (@collapse_line title _ Htl).
    subst dashes. cbn [times repeat app]. fold (times DASH n).
    change (LF :: DASH :: times DASH n ++ LF :: clean a)
      with ([LF] ++ DASH :: times DASH n ++ LF :: clean a).
    rewrite (@collapse_around [LF] DASH (times DASH n ++ LF :: clean a)
               eq_refl).
    rewrite (@collapse_line (times DASH n) _
               (@count_char_times LF DASH n eq_refl)).
    cbn [app]. rewrite <- !app_assoc. reflexivity. }
  rewrite Hcollapse.
  rewrite strip_around.
  - exists (lstrip (collapse (clean b ++ [LF]))),
      (rstrip (collapse (LF :: clean a))).
    split; [now rewrite <- !app_assoc|]. split.
    + apply lstrip_ends, collapse_keeps_last_line_break, endswith_app.
    + apply rstrip_starts, collapse_keeps_first_line_break.
  - discriminate.
  - exact Hspace.
  - subst dashes. rewrite !rev_app_distr, rev_times.
    cbn [times repeat app]. reflexivity.
Qed.

(** Step 7 works on the heading line like on every other text, and the line
    of dashes keeps the length the text had before: the heading
    [<h1>[ ] todo</h1>] is returned with a ballot box on a line of six
    characters, above eight dashes. *)
Lemma heading_line_with_checkbox
  (tabulate : list (list str) -> list str -> str) :
  Dom.run to_upper_full_latin1 tabulate [Tag "h1" [Text (lit "[ ] todo")]]
  = Dom.Ok ([BALLOT_BOX] ++ lit " TODO" ++ [LF] ++ times DASH 8).
Proof. rewrite DomFacts.run_render. reflexivity. Qed.

(** C3, as the claim states it, fails on the heading with the text "ß": its
    upper-cased text "SS" has two characters and the line of dashes below
    it has one. *)
Lemma heading_underline_sharp_s :
  strings (style_heading to_upper_full_latin1 sharp_s_heading)
  = [[LF] ++ lit "SS" ++ [LF] ++ times DASH 1 ++ [LF]]
  /\ List.length
       (upper to_upper_full_latin1 (get_text [SPACE] true sharp_s_heading))
     = 2.
Proof. split; reflexivity. Qed.

(** C3, amended. Take a heading anywhere in the document, inside no table
    and no other heading; [text] is its text run and [title] the text run
    upper-cased.  What the heading gives to the extracted text, after what
    comes before it in the document and before what comes after it, is a
    line break, [title], a line break, one dash for every character of
    [text] and a line break; steps 7 to 10 make the returned text of that,
    and with an empty text it is three line breaks.  When [title] is a
    plain line, the returned text has [title] on a line and, on the next
    line, one dash for every character of [text], which is one for every
    character of [title] when upper-casing maps each character of [text] to
    one character. *)
Theorem heading_underline_matches_text_run
  (to_upper_full : char -> str) (tabulate : list (list str) -> list str -> str)
  (frames : list frame) (pre post : list node)
  (name : string) (kids : list node) :
  name_in heading_names name = true ->
  open_frames frames = true ->
  let soup := plug frames (pre ++ Tag name kids :: post) in
  let text := get_text [SPACE] true (Tag name (flat_map bullet kids)) in
  let title := upper to_upper_full text in
  let above :=
    text_before to_upper_full tabulate frames
    ++ extract_text to_upper_full tabulate pre in
  let below :=
    extract_text to_upper_full tabulate post
    ++ text_after to_upper_full tabulate frames in
  extract_text to_upper_full tabulate soup
  = above
    ++ ([LF] ++ title ++ [LF] ++ times DASH (List.length text) ++ [LF])
    ++ below
  /\ Dom.run to_upper_full tabulate soup
     = Dom.Ok
         (cleanup
            (above
             ++ ([LF] ++ title ++ [LF] ++ times DASH (List.length text)
                 ++ [LF])
             ++ below))
  /\ (text = [] ->
      Dom.run to_upper_full tabulate soup
      = Dom.Ok (cleanup (above ++ [LF; LF; LF] ++ below)))
  /\ (plain_line title = true ->
      exists before after,
        Dom.run to_upper_full tabulate soup
        = Dom.Ok (before ++ title ++ [LF]
                  ++ times DASH (List.length text) ++ after)
        /\ (before = [] \/ endswith before [LF] = true)
        /\ (after = [] \/ startswith [LF] after = true))
  /\ (plain_line title = true ->
      (forall c, In c text -> List.length (to_upper_full c) = 1) ->
      exists before after,
        Dom.run to_upper_full tabulate soup
        = Dom.Ok (before ++ title ++ [LF]
                  ++ times DASH (List.length title) ++ after)
        /\ (before = [] \/ endswith before [LF] = true)
        /\ (after = [] \/ startswith [LF] after = true)).
Proof.
  intros Hname Hopen soup text title above below.
  assert (Htree :
    extract_text to_upper_full tabulate soup
    = above
      ++ ([LF] ++ title ++ [LF] ++ times DASH (List.length text) ++ [LF])
      ++ below).
  { unfold soup, above, below.
    rewrite (extract_text_plug _ _ _ _ Hopen), extract_text_around.
    rewrite (extract_text_heading _ _ _ _ Hname).
    unfold heading_string. fold text. fold title.
    now rewrite <- !app_assoc. }
  assert (Hrun :
    plain_line title = true ->
    exists before after,
      Dom.run to_upper_full tabulate soup
      = Dom.Ok (before ++ title ++ [LF]
                ++ times DASH (List.length text) ++ after)
      /\ (before = [] \/ endswith before [LF] = true)
      /\ (after = [] \/ startswith [LF] after = true)).
  { intros Hplain.
    assert (Htext : List.length text <> 0).
    { unfold title in Hplain. destruct text; [discriminate Hplain|].
      discriminate. }
    rewrite DomFacts.run_render. unfold render. rewrite Htree.
    destruct (@cleanup_keeps_heading above below _ _ Hplain Htext)
      as (before & after & Hout & Hends).
    exists before, after. now rewrite Hout. }
  split; [exact Htree|]. split; [|split; [|split; [exact Hrun|]]].
  - rewrite DomFacts.run_render. unfold render. now rewrite Htree.
  - intros Htext. rewrite DomFacts.run_render. unfold render.
    rewrite Htree. unfold title. now rewrite Htext.
  - intros Hplain Hone.
    replace (List.length title) with (List.length text)
      by (symmetry; now apply upper_length).
    now apply Hrun.
Qed.

Lemma heading_underline_matches_text_run_witness :
  name_in heading_names "h2" = true
  /\ open_frames in_blockquote = true
  /\ plain_line (lit "NOTES") = true
  /\ Dom.run to_upper_full_latin1 no_tables
       (plug in_blockquote ([] ++ Tag "h2" [Text (lit "Notes")] :: []))
     = Dom.Ok (lit "Intro" ++ [LF] ++ lit "NOTES" ++ [LF] ++ times DASH 5
               ++ [LF] ++ lit "End")
  /\ exists before after,
       Dom.run to_upper_full_latin1 no_tables
         (plug in_blockquote ([] ++ Tag "h2" [Text (lit "Notes")] :: []))
       = Dom.Ok (before ++ lit "NOTES" ++ [LF]
                 ++ times DASH (List.length (lit "NOTES")) ++ after)
       /\ (before = [] \/ endswith before [LF] = true)
       /\ (after = [] \/ startswith [LF] after = true).
Proof.
  split; [reflexivity|]. split; [reflexivity|]. split; [reflexivity|].
  split; [reflexivity|].
  apply (proj2 (proj2 (proj2 (proj2
           (@heading_underline_matches_text_run to_upper_full_latin1
              no_tables in_blockquote [] [] "h2" [Text (lit "Notes")]
              eq_refl eq_refl))))).
  - reflexivity.
  - intros c Hc. vm_compute in Hc.
    destruct Hc as [<-|[<-|[<-|[<-|[<-|[]]]]]]; reflexivity.
Defined.

(** * Properties of the command-line program *)

Import Cli.

(** ** Strings and lists of strings *)

Lemma str_eqb_eq (a b : str) : str_eqb a b = true <-> a = b.
Proof.
  revert b. induction a as [|x a IH]; intros [|y b]; cbn [str_eqb];
    try (split; [discriminate | discriminate]); [tauto|].
  rewrite andb_true_iff, char_eqb_eq, IH.
  split; [intros [-> ->]; reflexivity | intros [= -> ->]; tauto].
Qed.

Lemma in_list_In (x : str) (l : list str) : in_list x l = true <-> In x l.
Proof.
  unfold in_list. rewrite existsb_exists. split.
  - intros (y & Hy & E). apply str_eqb_eq in E. now subst y.
  - intros H. exists x. split; [exact H | now apply str_eqb_eq].
Qed.

Lemma split_from_pieces (sep : char) (piece s : str) :
  count_char sep piece = 0 ->
  Forall (fun p => count_char sep p = 0) (split_from sep piece s).
Proof.
  revert piece. induction s as [|c s IH]; intros piece Hp; cbn [split_from].
  - now constructor.
  - destruct (char_eqb c sep) eqn:E.
    + constructor; [exact Hp | now apply IH].
    + apply IH. rewrite count_char_app, Hp, count_char_cons.
      rewrite (N.eqb_sym sep c : char_eqb sep c = char_eqb c sep), E.
      reflexivity.
Qed.

Lemma split_pieces (sep : char) (s : str) :
  Forall (fun p => count_char sep p = 0) (split sep s).
Proof. now apply split_from_pieces. Qed.

Lemma fromkeys_acc_In (keys d : list str) (x : str) :
  In x (fold_left
          (fun d k => if existsb (str_eqb k) d then d else d ++ [k]) keys d)
  <-> In x d \/ In x keys.
Proof.
  revert d. induction keys as [|k keys IH]; intros d; cbn [fold_left].
  - cbn. tauto.
  - rewrite IH. destruct (existsb (str_eqb k) d) eqn:E.
    + apply (in_list_In k d) in E. cbn [In].
      split; [tauto|]. intros [H|[<-|H]]; tauto.
    + rewrite in_app_iff. cbn [In]. tauto.
Qed.

Lemma fromkeys_acc_NoDup (keys d : list str) :
  NoDup d ->
  NoDup (fold_left
           (fun d k => if existsb (str_eqb k) d then d else d ++ [k]) keys d).
Proof.
  revert d. induction keys as [|k keys IH]; intros d Hd; cbn [fold_left].
  - exact Hd.
  - apply IH. destruct (existsb (str_eqb k) d) eqn:E; [exact Hd|].
    assert (Hk : ~ In k d).
    { intros Hin. apply (in_list_In k d) in Hin. unfold in_list in Hin.
      congruence. }
    apply NoDup_app; [exact Hd | repeat constructor; intros [] |].
    intros x Hx [<-|[]]. exact (Hk Hx).
Qed.

Lemma fromkeys_In (keys : list str) (x : str) :
  In x (fromkeys keys) <-> In x keys.
Proof. unfold fromkeys. rewrite fromkeys_acc_In. cbn. tauto. Qed.

Lemma fromkeys_NoDup (keys : list str) : NoDup (fromkeys keys).
Proof. apply fromkeys_acc_NoDup. constructor. Qed.

(** ** The folder names *)

Lemma unique_folders_In (folders f : str) :
  In f (unique_folders folders)
  <-> f <> []
      /\ exists piece, In piece (split COMMA folders) /\ strip piece = f.
Proof.
  unfold unique_folders. rewrite fromkeys_In, in_map_iff. split.
  - intros (piece & <- & Hin). apply filter_In in Hin as [Hin Hne].
    split; [|now exists piece]. now destruct (strip piece).
  - intros (Hne & piece & Hin & <-). exists piece. split; [reflexivity|].
    apply filter_In. split; [exact Hin|]. now destruct (strip piece).
Qed.

Lemma unique_folders_names (folders : str) :
  NoDup (unique_folders folders)
  /\ Forall (fun f =>
       f <> [] /\ space_first f = false /\ space_first (rev f) = false
       /\ count_char COMMA f = 0) (unique_folders folders).
Proof.
  split; [apply fromkeys_NoDup|].
  apply Forall_forall. intros f Hf.
  apply unique_folders_In in Hf as (Hne & piece & Hin & <-).
  repeat split.
  - exact Hne.
  - apply strip_space_first.
  - apply strip_space_last.
  - rewrite count_char_strip by reflexivity.
    pose proof (split_pieces COMMA folders) as H.
    rewrite Forall_forall in H. now apply H.
Qed.

(** X12. A name is in the list of folders exactly when it is not empty and
    is what [strip] leaves of a piece between two commas of the output. *)
Theorem folder_names_are_the_stripped_pieces (folders f : str) :
  In f (unique_folders folders)
  <-> f <> []
      /\ exists piece, In piece (split COMMA folders) /\ strip piece = f.
Proof. apply unique_folders_In. Qed.

(** ** The quotes of the script that creates a note *)

Lemma count_char_escape_char_quote (c : char) :
  count_char QUOTE (escape_char c) = 0.
Proof. escape_cases c; rewrite E; try reflexivity.
  rewrite count_char_cons.
  rewrite (proj2 (char_eqb_neq QUOTE c)) by (unfold QUOTE; congruence).
  reflexivity.
Qed.

Lemma count_char_html_escape_quote (s : str) :
  count_char QUOTE (html_escape s) = 0.
Proof.
  rewrite html_escape_flat_map.
  induction s as [|c s IH]; [reflexivity|].
  cbn [flat_map]. now rewrite count_char_app, count_char_escape_char_quote.
Qed.

Lemma escape_quotes_app (a b : str) :
  escape_quotes (a ++ b) = escape_quotes a ++ escape_quotes b.
Proof. unfold escape_quotes. rewrite !replace_char. apply flat_map_app. Qed.

Lemma escape_quotes_without_quote (s : str) :
  count_char QUOTE s = 0 -> escape_quotes s = s.
Proof.
  unfold escape_quotes. rewrite replace_char.
  induction s as [|c s IH]; intros H; [reflexivity|].
  rewrite count_char_cons in H. cbn [flat_map].
  destruct (char_eqb QUOTE c); [discriminate H|].
  cbn [app]. f_equal. now apply IH.
Qed.

(** X13. What [create_note_in_folder_html] does to the quotes of a wrapped
    text: the two double quotes of the style attribute get a backslash, and
    the escaped note text and the closing markup stay as they are. *)
Theorem quote_escaping_leaves_the_note_text (plain_text : str) :
  escape_quotes (to_html_preserving_newlines plain_text)
  = (lit "<pre style=" ++ [BACKSLASH; QUOTE]
     ++ lit "white-space: pre-wrap; "
     ++ lit "font-family: -apple-system, BlinkMacSystemFont, "
     ++ [39%N] ++ lit "Helvetica Neue" ++ [39%N]
     ++ lit ", Helvetica, Arial, sans-serif; "
     ++ lit "font-size: 14px; line-height: 1.4;" ++ [BACKSLASH; QUOTE]
     ++ lit ">")
    ++ html_escape plain_text ++ lit "</pre>".
Proof.
  unfold to_html_preserving_newlines.
  rewrite !escape_quotes_app.
  rewrite (escape_quotes_without_quote (html_escape plain_text))
    by apply count_char_html_escape_quote.
  reflexivity.
Qed.

Section Calls.

Variable W : Type.
Variable subprocess_run :
  list str -> option nat -> W -> reply CompletedProcess * W.
Variable console_print : list str -> option str -> W -> reply unit * W.
Variable builtin_input : str -> W -> reply str * W.
Variable isdigit : str -> bool.
Variable int : str -> option Z.
Variable to_upper_full : char -> str.
Variable tabulate : list (list str) -> list str -> reply str.
Variable parse : str -> reply (list node).

(** ** What the listing functions return *)

Lemma bind_returns (E A B : Type) (c : io W E A) (k : A -> io W E B)
  (st st' : state W) (b : B) :
  bind c k st = (Ok b, st') ->
  exists a st1, c st = (Ok a, st1) /\ k a st1 = (Ok b, st').
Proof.
  unfold bind. destruct (c st) as [[a|e|] st1]; intros H;
    try discriminate H.
  now exists a, st1.
Qed.

(** X14. The folders [list_folders] returns are pairwise different; none is
    empty, none begins or ends with a whitespace character, and none holds
    a comma. *)
Theorem list_folders_returns_clean_names (st st' : state W)
  (folders : list str) :
  list_folders subprocess_run console_print st = (Ok folders, st') ->
  NoDup folders
  /\ Forall (fun f =>
       f <> [] /\ space_first f = false /\ space_first (rev f) = false
       /\ count_char COMMA f = 0) folders.
Proof.
  intros H. unfold list_folders in H.
  apply bind_returns in H as (found & st1 & _ & H).
  destruct found as [[|c s]|]; injection H as <- _;
    try (split; constructor).
  apply unique_folders_names.
Qed.

(** X15. No note name [list_notes_in_folder] returns begins or ends with a
    whitespace character, and none holds a comma: a note whose name has a
    comma in it is not returned under its name. *)
Theorem list_notes_in_folder_returns_trimmed_names (folder : str)
  (st st' : state W) (notes : list str) :
  list_notes_in_folder subprocess_run console_print folder st
  = (Ok notes, st') ->
  Forall (fun n =>
    space_first n = false /\ space_first (rev n) = false
    /\ count_char COMMA n = 0) notes.
Proof.
  intros H. unfold list_notes_in_folder in H.
  apply bind_returns in H as (found & st1 & _ & H).
  destruct found as [[|c s]|]; injection H as <- _; try constructor.
  apply Forall_forall. intros n Hn.
  apply in_map_iff in Hn as (piece & <- & Hin).
  repeat split.
  - apply strip_space_first.
  - apply strip_space_last.
  - rewrite count_char_strip by reflexivity.
    pose proof (split_pieces COMMA (c :: s)) as H.
    rewrite Forall_forall in H. now apply H.
Qed.

(** ** Asking for a number *)

Lemma lift_call (A : Type) (ev : reply A -> event) (f : W -> reply A * W)
  (st : state W) :
  lift (call ev f) st
  = (match fst (f (env st)) with
     | Done a => Ok a
     | Failed e => Raise (Foreign e)
     end,
     {| env := snd (f (env st));
        trace := trace st ++ [ev (fst (f (env st)))] |}).
Proof.
  unfold lift, call. destruct (f (env st)) as [[a|e] w]; reflexivity.
Qed.

(** What [prompt_int] does in one round. *)
Lemma prompt_int_round (rounds : nat) (prompt : str) (min_val max_val : Z)
  (st : state W) :
  prompt_int console_print builtin_input isdigit int (S rounds) prompt
    min_val max_val st
  = let r := fst (builtin_input prompt (env st)) in
    let st1 := {| env := snd (builtin_input prompt (env st));
                  trace := trace st ++ [Input prompt r] |} in
    match r with
    | Failed e => (Raise (Foreign e), st1)
    | Done line =>
        let again :=
          bind (lift (print console_print [invalid_input min_val max_val]
                        None))
            (fun _ => prompt_int console_print builtin_input isdigit int
                        rounds prompt min_val max_val) in
        if isdigit (strip line) then
          match int (strip line) with
          | Some num =>
              if in_range min_val max_val num then (Ok num, st1)
              else again st1
          | None => (Raise ValueError, st1)
          end
        else again st1
    end.
Proof.
  cbn [prompt_int]. unfold bind at 1. unfold input. rewrite lift_call.
  cbv zeta.
  destruct (fst (builtin_input prompt (env st))) as [line|e]; [|reflexivity].
  unfold bind at 1.
  destruct (isdigit (strip line)); [|reflexivity].
  destruct (int (strip line)) as [num|]; [|reflexivity].
  destruct (in_range min_val max_val num); reflexivity.
Qed.

(** X16. When [prompt_int] returns, the number is the value of the last
    line read, that line is made of digits, and the number lies between
    [min_val] and [max_val].  Every line read before was refused (no digits,
    or a number out of range) and answered by the message once; nothing
    else was printed or read. *)
Theorem prompt_int_returns_accepted_number (rounds : nat) (prompt : str)
  (min_val max_val : Z) (st st' : state W) (num : Z) :
  prompt_int console_print builtin_input isdigit int rounds prompt
    min_val max_val st = (Ok num, st') ->
  exists (rejected : list str) (line : str),
    List.length rejected < rounds
    /\ trace st'
       = trace st
         ++ flat_map
              (fun l => [Input prompt (Done l);
                         Print [invalid_input min_val max_val] None (Done tt)])
              rejected
         ++ [Input prompt (Done line)]
    /\ Forall
         (fun l =>
            isdigit (strip l) = false
            \/ exists n, int (strip l) = Some n
                         /\ in_range min_val max_val n = false) rejected
    /\ isdigit (strip line) = true
    /\ int (strip line) = Some num
    /\ (min_val <= num <= max_val)%Z.
Proof.
  revert st. induction rounds as [|rounds IH]; intros st H;
    [discriminate H|].
  rewrite prompt_int_round in H. cbv zeta in H.
  destruct (fst (builtin_input prompt (env st))) as [line|e];
    [|discriminate H].
  set (st1 := {| env := snd (builtin_input prompt (env st));
                 trace := trace st ++ [Input prompt (Done line)] |}) in H.
  assert (Hagain :
    bind (lift (print console_print [invalid_input min_val max_val] None))
      (fun _ => prompt_int console_print builtin_input isdigit int rounds
                  prompt min_val max_val) st1 = (Ok num, st') ->
    (isdigit (strip line) = false
     \/ exists n, int (strip line) = Some n
                  /\ in_range min_val max_val n = false) ->
    exists (rejected : list str) (line0 : str),
      List.length rejected < S rounds
      /\ trace st'
         = trace st
           ++ flat_map
                (fun l => [Input prompt (Done l);
                           Print [invalid_input min_val max_val] None
                             (Done tt)]) rejected
           ++ [Input prompt (Done line0)]
      /\ Forall
           (fun l =>
              isdigit (strip l) = false
              \/ exists n, int (strip l) = Some n
                           /\ in_range min_val max_val n = false) rejected
      /\ isdigit (strip line0) = true
      /\ int (strip line0) = Some num
      /\ (min_val <= num <= max_val)%Z).
  { intros Hb Hrej. unfold bind, print in Hb. rewrite lift_call in Hb.
    destruct (fst (console_print [invalid_input min_val max_val] None
                     (env st1))) as [[]|e] eqn:Ep; [|discriminate Hb].
    apply IH in Hb as (rejected & line0 & Hlen & Htrace & Hall & Hrest).
    exists (line :: rejected), line0. cbn [List.length flat_map trace] in *.
    repeat split; try apply Hrest.
    - lia.
    - rewrite Htrace. unfold st1. cbn [trace env].
      now rewrite <- !app_assoc.
    - now constructor. }
  destruct (isdigit (strip line)) eqn:Ed; [|apply Hagain; [exact H | now left]].
  destruct (int (strip line)) as [n|] eqn:Ei; [|discriminate H].
  destruct (in_range min_val max_val n) eqn:Er;
    [|apply Hagain; [exact H | right; now exists n]].
  injection H as <- <-. exists [], line. cbn [List.length flat_map app trace].
  unfold in_range in Er. apply andb_true_iff in Er as [H1 H2].
  apply Z.leb_le in H1, H2.
  repeat split; try assumption; try lia. constructor.
Qed.

(** A result reached within some number of rounds is the result for every
    larger number. *)
Lemma prompt_int_more_rounds (rounds more : nat) (prompt : str)
  (min_val max_val : Z) (st : state W) :
  fst (prompt_int console_print builtin_input isdigit int rounds prompt
         min_val max_val st) <> Running ->
  prompt_int console_print builtin_input isdigit int (rounds + more) prompt
    min_val max_val st
  = prompt_int console_print builtin_input isdigit int rounds prompt
      min_val max_val st.
Proof.
  revert st. induction rounds as [|rounds IH]; intros st H.
  - now contradiction H.
  - change (S rounds + more) with (S (rounds + more)).
    rewrite !prompt_int_round in *. cbv zeta in *.
    destruct (fst (builtin_input prompt (env st))) as [line|e];
      [|reflexivity].
    set (st1 := {| env := snd (builtin_input prompt (env st));
                   trace := trace st ++ [Input prompt (Done line)] |}) in *.
    assert (Hagain :
      fst (bind (lift (print console_print [invalid_input min_val max_val]
                         None))
             (fun _ => prompt_int console_print builtin_input isdigit int
                         rounds prompt min_val max_val) st1) <> Running ->
      bind (lift (print console_print [invalid_input min_val max_val] None))
        (fun _ => prompt_int console_print builtin_input isdigit int
                    (rounds + more) prompt min_val max_val) st1
      = bind (lift (print console_print [invalid_input min_val max_val] None))
          (fun _ => prompt_int console_print builtin_input isdigit int
                      rounds prompt min_val max_val) st1).
    { unfold bind, print. rewrite lift_call.
      destruct (fst (console_print [invalid_input min_val max_val] None
                       (env st1))); [|reflexivity].
      apply IH. }
    destruct (isdigit (strip line)); [|now apply Hagain].
    destruct (int (strip line)) as [num|]; [|reflexivity].
    destruct (in_range min_val max_val num); [reflexivity|].
    now apply Hagain.
Qed.

(** ** Exceptions *)

Lemma safe_ret (A : Type) (a : A) (Q : A -> Prop) :
  Q a -> safe (ret (W := W) a) Q.
Proof. intros H st. exact H. Qed.

Lemma safe_bind (A B : Type) (c : io W error A) (k : A -> io W error B)
  (Q : A -> Prop) (R : B -> Prop) :
  safe c Q -> (forall a, Q a -> safe (k a) R) -> safe (bind c k) R.
Proof.
  intros Hc Hk st. unfold bind. specialize (Hc st).
  destruct (c st) as [[a|e|] st1]; cbn [fst] in *; try exact Hc.
  now apply Hk.
Qed.

Lemma safe_lift (A : Type) (c : io W foreign A) :
  safe (lift c) (fun _ => True).
Proof.
  intros st. unfold lift. now destruct (c st) as [[a|e|] st1].
Qed.

Lemma safe_then (A B : Type) (c : io W error A) (k : io W error B)
  (Q : A -> Prop) (R : B -> Prop) :
  safe c Q -> safe k R -> safe (bind c (fun _ => k)) R.
Proof. intros Hc Hk. eapply safe_bind; [exact Hc|]. now intros _ _. Qed.

Lemma safe_for_each (A : Type) (xs : list A) (body : A -> io W error unit) :
  (forall x, In x xs -> safe (body x) (fun _ => True)) ->
  safe (for_each xs body) (fun _ => True).
Proof.
  induction xs as [|x xs IH]; intros H; cbn [for_each].
  - now apply safe_ret.
  - apply safe_then with (Q := fun _ => True).
    + apply H. now left.
    + apply IH. intros y Hy. apply H. now right.
Qed.

Lemma safe_try_except (A : Type) (body : io W foreign A)
  (handler : str -> io W error A) :
  (forall e, safe (handler e) (fun _ => True)) ->
  safe (try_except body handler) (fun _ => True).
Proof.
  intros Hh st. unfold try_except.
  destruct (body st) as [[a|e|] st1]; cbn [fst]; try exact I.
  destruct (is_exception e); [apply Hh | reflexivity].
Qed.

Lemma safe_run_applescript (script : str) :
  safe (run_applescript subprocess_run console_print script)
    (fun _ => True).
Proof.
  unfold run_applescript.
  apply safe_bind with (Q := fun _ => True); [apply safe_lift|].
  intros process _. destruct (negb (returncode process =? 0)%Z).
  - apply safe_then with (Q := fun _ => True);
      [apply safe_lift | now apply safe_ret].
  - now apply safe_ret.
Qed.

Lemma safe_list_folders :
  safe (list_folders subprocess_run console_print) (fun _ => True).
Proof.
  unfold list_folders.
  apply safe_bind with (Q := fun _ => True); [apply safe_run_applescript|].
  intros [[|c s]|] _; now apply safe_ret.
Qed.

Lemma safe_list_notes_in_folder (folder : str) :
  safe (list_notes_in_folder subprocess_run console_print folder)
    (fun _ => True).
Proof.
  unfold list_notes_in_folder.
  apply safe_bind with (Q := fun _ => True); [apply safe_run_applescript|].
  intros [[|c s]|] _; now apply safe_ret.
Qed.

Lemma safe_enhance_text_with_perplexity (text : str) :
  safe (enhance_text_with_perplexity subprocess_run console_print text)
    (fun _ => True).
Proof.
  unfold enhance_text_with_perplexity. apply safe_try_except.
  intros e. apply safe_then with (Q := fun _ => True);
    [apply safe_lift | now apply safe_ret].
Qed.

Lemma safe_prompt_int (rounds : nat) (prompt : str) (min_val max_val : Z) :
  safe (prompt_int console_print builtin_input isdigit int rounds prompt
          min_val max_val)
    (fun num => (min_val <= num <= max_val)%Z).
Proof.
  induction rounds as [|rounds IH]; [intros st; exact I|].
  cbn [prompt_int].
  apply safe_bind with (Q := fun _ => True); [apply safe_lift|].
  intros line _.
  apply safe_bind
    with (Q := fun found =>
                 match found with
                 | Some num => (min_val <= num <= max_val)%Z
                 | None => True
                 end).
  - destruct (isdigit (strip line)); [|now apply safe_ret].
    destruct (int (strip line)) as [num|]; [|intros st; reflexivity].
    destruct (in_range min_val max_val num) eqn:E; [|now apply safe_ret].
    apply safe_ret. unfold in_range in E.
    apply andb_true_iff in E as [H1 H2]. apply Z.leb_le in H1, H2. lia.
  - intros [num|] H; [now apply safe_ret|].
    apply safe_then with (Q := fun _ => True); [apply safe_lift | exact IH].
Qed.

Lemma getitem_within (A : Type) (l : list A) (i : Z) :
  (0 <= i < Z.of_nat (List.length l))%Z -> exists x, getitem l i = Some x.
Proof.
  intros H. unfold getitem.
  rewrite (proj2 (Z.leb_le 0 i)) by lia.
  destruct (nth_error l (Z.to_nat i)) as [x|] eqn:E; [now exists x|].
  apply nth_error_None in E. lia.
Qed.

Lemma safe_index (folders : list str) (src_idx : Z) :
  (0 <= src_idx < Z.of_nat (List.length folders))%Z ->
  safe (index (W := W) folders src_idx) (fun _ => True).
Proof.
  intros H. unfold index.
  destruct (@getitem_within _ folders src_idx H) as [x ->]. now apply safe_ret.
Qed.

Lemma safe_rendered (md_text : str) :
  safe (rendered (W := W) to_upper_full tabulate parse md_text)
    (fun _ => True).
Proof.
  unfold rendered, Raising.markdown_to_plain_text.
  destruct (parse md_text) as [soup|f]; cbn [Raising.library Raising.bind].
  - destruct (RaisingFacts.run_returns_or_library to_upper_full tabulate soup)
      as [->|(f & _ & ->)].
    + now apply safe_ret.
    + intros st. reflexivity.
  - intros st. reflexivity.
Qed.

Lemma safe_enhance_note (folders : list str) (src_idx : Z)
  (dest_folder_name note_name : str) :
  (0 <= src_idx < Z.of_nat (List.length folders))%Z ->
  safe (enhance_note subprocess_run console_print to_upper_full tabulate
          parse folders src_idx dest_folder_name note_name)
    (fun _ => True).
Proof.
  intros H. unfold enhance_note.
  apply safe_then with (Q := fun _ => True); [apply safe_lift|].
  apply safe_bind with (Q := fun _ => True); [now apply safe_index|].
  intros folder _.
  apply safe_bind with (Q := fun _ => True);
    [apply safe_run_applescript|].
  intros [[|c s]|] _; try apply safe_lift.
  apply safe_bind with (Q := fun _ => True);
    [apply safe_enhance_text_with_perplexity|].
  intros [[|c' s']|] _; try apply safe_lift.
  apply safe_bind with (Q := fun _ => True); [apply safe_rendered|].
  intros readable_text _.
  apply safe_then with (Q := fun _ => True);
    [apply safe_run_applescript | apply safe_lift].
Qed.

Lemma safe_main (rounds : nat) :
  safe (main subprocess_run console_print builtin_input isdigit int
          to_upper_full tabulate parse rounds)
    (fun _ => True).
Proof.
  unfold main.
  apply safe_then with (Q := fun _ => True).
  { unfold print_banner.
    repeat (apply safe_then with (Q := fun _ => True); [apply safe_lift|]).
    apply safe_lift. }
  apply safe_then with (Q := fun _ => True); [apply safe_lift|].
  apply safe_bind with (Q := fun _ => True); [apply safe_list_folders|].
  intros [|first others] _; [apply safe_lift|].
  set (folders := first :: others). cbv zeta.
  apply safe_then with (Q := fun _ => True); [apply safe_lift|].
  apply safe_then with (Q := fun _ => True).
  { apply safe_for_each. intros [idx folder] _. apply safe_lift. }
  eapply safe_bind; [apply safe_prompt_int|].
  intros chosen Hchosen. cbv beta in Hchosen.
  assert (Hidx : (0 <= chosen - 1 < Z.of_nat (List.length folders))%Z)
    by lia.
  apply safe_bind with (Q := fun _ => True); [apply safe_lift|].
  intros line _.
  assert (Hprocess :
    safe
      (bind (index folders (chosen - 1))
         (fun folder =>
            bind
              (lift (print console_print
                       [[LF] ++ lit "Processing notes from '" ++ folder
                        ++ lit "' to '" ++ strip line ++ lit "'..." ++ [LF]]
                       (Some (lit "bold green"))))
              (fun _ =>
                 bind (index folders (chosen - 1))
                   (fun folder0 =>
                      bind
                        (list_notes_in_folder subprocess_run console_print
                           folder0)
                        (fun notes =>
                           match notes with
                           | [] =>
                               bind (index folders (chosen - 1))
                                 (fun folder1 =>
                                    lift (print console_print
                                            [lit "[yellow]No notes found in folder '"
                                             ++ folder1 ++ lit "'.[/]"] None))
                           | _ :: _ =>
                               bind
                                 (for_each notes
                                    (enhance_note subprocess_run console_print
                                       to_upper_full tabulate parse folders
                                       (chosen - 1) (strip line)))
                                 (fun _ =>
                                    lift (print console_print
                                            [lit "All notes processed. Thank you for using "
                                             ++ lit "AI Note Cleaner CLI!"]
                                            (Some (lit "bold magenta"))))
                           end)))))
      (fun _ => True)).
  { apply safe_bind with (Q := fun _ => True); [now apply safe_index|].
    intros folder _.
    apply safe_then with (Q := fun _ => True); [apply safe_lift|].
    apply safe_bind with (Q := fun _ => True); [now apply safe_index|].
    intros folder0 _.
    apply safe_bind with (Q := fun _ => True);
      [apply safe_list_notes_in_folder|].
    intros [|note notes] _.
    - apply safe_bind with (Q := fun _ => True); [now apply safe_index|].
      intros folder1 _. apply safe_lift.
    - apply safe_then with (Q := fun _ => True); [|apply safe_lift].
      apply safe_for_each. intros x _. now apply safe_enhance_note. }
  destruct (strip line) as [|c dest] eqn:Edest; [apply safe_lift|].
  destruct (negb (in_list (c :: dest) folders)); [|exact Hprocess].
  apply safe_then with (Q := fun _ => True); [apply safe_lift|].
  apply safe_bind with (Q := fun _ => True); [apply safe_run_applescript|].
  intros [made|] _; [|apply safe_lift].
  apply safe_then with (Q := fun _ => True); [apply safe_lift|].
  exact Hprocess.
Qed.

(** X17. [main] never ends with an [IndexError] from [folders[src_idx]]
    and never with an exception of a BeautifulSoup call on the tree inside
    [markdown_to_plain_text]: an exception that ends it was raised by [int]
    or by a library call, those of [markdown.markdown], [BeautifulSoup] and
    [tabulate] among them. *)
Theorem main_raises_only_from_outside (rounds : nat) (st : state W) :
  match
    fst (main subprocess_run console_print builtin_input isdigit int
           to_upper_full tabulate parse rounds st)
  with
  | Raise IndexError | Raise (Rendering _) => False
  | _ => True
  end.
Proof.
  pose proof (safe_main rounds st) as H.
  destruct (fst (main _ _ _ _ _ _ _ _ _ _)) as [a|[]|];
    try exact I; discriminate H.
Qed.

(** X18. An exception that leaves [enhance_text_with_perplexity] is no
    instance of [Exception], or it was raised by the print of the handler
    ("Error running Perplexity CLI"); every other one is caught. *)
Theorem perplexity_exceptions_are_caught (text : str) (st st' : state W)
  (e : error) :
  enhance_text_with_perplexity subprocess_run console_print text st
  = (Raise e, st') ->
  exists f,
    e = Foreign f
    /\ (is_exception f = false
        \/ exists before what,
             trace st'
             = before
               ++ [Print [lit "[red]Error running Perplexity CLI:[/] " ++ what]
                     None (Failed f)]).
Proof.
  unfold enhance_text_with_perplexity, try_except, bind, run, print.
  unfold call at 1.
  destruct (subprocess_run _ (Some 60) (env st)) as [[process|e0] w];
    cbn [env trace].
  - destruct (returncode process =? 0)%Z; [discriminate|].
    unfold call at 1. cbn [env trace].
    destruct (console_print _ None w) as [[[]|e1] w']; [discriminate|].
    destruct (is_exception e1) eqn:E1.
    + rewrite lift_call. cbn [env trace].
      destruct (fst (console_print _ None w')) as [[]|e2] eqn:E2;
        [discriminate|].
      intros [= <- <-]. exists e2. split; [reflexivity|]. right.
      cbn [trace]. eexists _, _. reflexivity.
    + intros [= <- <-]. exists e1. split; [reflexivity | now left].
  - destruct (is_exception e0) eqn:E0.
    + rewrite lift_call. cbn [env trace].
      destruct (fst (console_print _ None w)) as [[]|e2] eqn:E2;
        [discriminate|].
      intros [= <- <-]. exists e2. split; [reflexivity|]. right.
      cbn [trace]. eexists _, _. reflexivity.
    + intros [= <- <-]. exists e0. split; [reflexivity | now left].
Qed.

(** ** The record of calls *)

Lemma lift_returns (A : Type) (ev : reply A -> event) (f : W -> reply A * W)
  (st st' : state W) (a : A) :
  lift (call ev f) st = (Ok a, st') ->
  trace st' = trace st ++ [ev (Done a)].
Proof.
  rewrite lift_call. destruct (fst (f (env st))) as [a0|e]; [|discriminate].
  now intros [= <- <-].
Qed.

Lemma index_returns (folders : list str) (src_idx : Z) (st st' : state W)
  (folder : str) :
  index folders src_idx st = (Ok folder, st') -> st' = st.
Proof.
  unfold index. destruct (getitem folders src_idx); [|discriminate].
  now intros [= _ <-].
Qed.

Lemma run_applescript_returns (script : str) (st st' : state W)
  (out : option str) :
  run_applescript subprocess_run console_print script st = (Ok out, st') ->
  exists r prints,
    trace st' = trace st
                ++ Run [lit "osascript"; lit "-e"; script] None r :: prints
    /\ forallb is_print prints = true.
Proof.
  intros H. unfold run_applescript in H.
  apply bind_returns in H as (process & st1 & H1 & H).
  apply lift_returns in H1.
  destruct (negb (returncode process =? 0)%Z).
  - apply bind_returns in H as (u & st2 & H2 & H).
    apply lift_returns in H2. injection H as _ <-.
    eexists _, [_]. rewrite H2, H1, <- app_assoc. split; reflexivity.
  - injection H as _ <-. eexists _, []. rewrite H1. split; reflexivity.
Qed.

Lemma enhance_text_with_perplexity_returns (text : str) (st st' : state W)
  (out : option str) :
  enhance_text_with_perplexity subprocess_run console_print text st
  = (Ok out, st') ->
  exists args r prints,
    trace st' = trace st ++ Run args (Some 60) r :: prints
    /\ forallb is_print prints = true.
Proof.
  unfold enhance_text_with_perplexity, try_except, bind, run, print.
  unfold call at 1.
  destruct (subprocess_run _ (Some 60) (env st)) as [[process|e] w];
    cbn [env trace].
  - destruct (returncode process =? 0)%Z.
    + intros [= _ <-]. eexists _, _, []. split; reflexivity.
    + unfold call at 1. cbn [env trace].
      destruct (console_print _ None w) as [[[]|e] w'].
      * intros [= _ <-]. cbn [trace]. eexists _, _, [_].
        rewrite <- app_assoc. split; reflexivity.
      * destruct (is_exception e); [|discriminate].
        rewrite lift_call. cbn [env trace].
        destruct (fst (console_print _ None w')); [|discriminate].
        intros [= _ <-]. cbn [trace]. eexists _, _, [_; _].
        rewrite <- !app_assoc. split; reflexivity.
  - destruct (is_exception e); [|discriminate].
    rewrite lift_call. cbn [env trace].
    destruct (fst (console_print _ None w)); [|discriminate].
    intros [= _ <-]. cbn [trace]. eexists _, _, [_].
    rewrite <- !app_assoc. split; reflexivity.
Qed.

Lemma scripts_differ (folder note_name dest new_note_name body : str) :
  get_note_body_script folder note_name
  <> create_note_script dest new_note_name body.
Proof.
  intros H. apply (f_equal (firstn 37)) in H. vm_compute in H.
  discriminate H.
Qed.

Lemma among_prints (ev : event) (prints : list event) :
  forallb is_print prints = true -> In ev prints -> is_print ev = true.
Proof. intros Hall Hin. rewrite forallb_forall in Hall. now apply Hall. Qed.

(** X19. Once the script that creates the enhanced note has been run, the
    round of the loop for this note ends with the message that the note was
    saved, whatever the script returned: its result is not looked at. *)
Theorem saved_message_follows_any_creation (folders : list str)
  (src_idx : Z) (dest_folder_name note_name : str) (st st' : state W)
  (body : str) (r : reply CompletedProcess) :
  enhance_note subprocess_run console_print to_upper_full tabulate parse
    folders src_idx dest_folder_name note_name st = (Ok tt, st') ->
  In (Run [lit "osascript"; lit "-e";
           create_note_script dest_folder_name
             (lit "Enhanced - " ++ note_name) body] None r)
     (skipn (List.length (trace st)) (trace st')) ->
  exists before,
    trace st'
    = before
      ++ [Print
            [lit "  Note '" ++ note_name ++ lit "' enhanced and saved as '"
             ++ (lit "Enhanced - " ++ note_name) ++ lit "'." ++ [LF]]
            (Some (lit "green")) (Done tt)].
Proof.
  intros H Hin. unfold enhance_note in H.
  apply bind_returns in H as (u & st1 & H1 & H). apply lift_returns in H1.
  apply bind_returns in H as (folder & st2 & H2 & H).
  apply index_returns in H2. subst st2.
  apply bind_returns in H as (original_body & st3 & H3 & H).
  apply run_applescript_returns in H3 as (r3 & prints3 & H3 & Hp3).
  assert (Hget :
    Run [lit "osascript"; lit "-e"; get_note_body_script folder note_name]
      None r3
    <> Run [lit "osascript"; lit "-e";
            create_note_script dest_folder_name
              (lit "Enhanced - " ++ note_name) body] None r).
  { intros E.
    apply (f_equal (fun ev => match ev with
                              | Run [_; _; script] _ _ => script
                              | _ => []
                              end)) in E.
    exact (scripts_differ E). }
  destruct original_body as [[|c s]|].
  1, 3: apply lift_returns in H; exfalso;
    rewrite H, H3, H1, <- !app_assoc, skipn_app, skipn_all, Nat.sub_diag in Hin;
    cbn [skipn app] in Hin; destruct Hin as [Hin|[Hin|Hin]];
    [discriminate Hin | exact (Hget Hin) |];
    apply in_app_iff in Hin as [Hin|[Hin|[]]];
    [apply (@among_prints _ _ Hp3) in Hin; discriminate Hin | discriminate Hin].
  apply bind_returns in H as (enhanced_body & st4 & H4 & H).
  apply enhance_text_with_perplexity_returns in H4
    as (args & r4 & prints4 & H4 & Hp4).
  destruct enhanced_body as [[|c' s']|].
  1, 3: apply lift_returns in H; exfalso;
    rewrite H, H4, H3, H1, <- !app_assoc, skipn_app, skipn_all, Nat.sub_diag
      in Hin;
    cbn [skipn app] in Hin; destruct Hin as [Hin|[Hin|Hin]];
    [discriminate Hin | exact (Hget Hin) |];
    apply in_app_iff in Hin as [Hin|[Hin|Hin]];
    [apply (@among_prints _ _ Hp3) in Hin; discriminate Hin | discriminate Hin |];
    apply in_app_iff in Hin as [Hin|[Hin|[]]];
    [apply (@among_prints _ _ Hp4) in Hin; discriminate Hin | discriminate Hin].
  apply bind_returns in H as (readable_text & st5 & H5 & H).
  apply bind_returns in H as (made & st6 & H6 & H).
  apply lift_returns in H. eexists. exact H.
Qed.

(** ** Input is read only when folders were found *)

Lemma grows_ret (E A : Type) (a : A) : grows (ret (W := W) (E := E) a).
Proof. intros st. exists []. cbn. now rewrite app_nil_r. Qed.

Lemma grows_raise (E A : Type) (e : E) :
  grows (raise (W := W) (A := A) e).
Proof. intros st. exists []. cbn. now rewrite app_nil_r. Qed.

Lemma grows_bind (E A B : Type) (c : io W E A) (k : A -> io W E B) :
  grows c -> (forall a, grows (k a)) -> grows (bind c k).
Proof.
  intros Hc Hk st. unfold bind. destruct (Hc st) as [n1 H1].
  destruct (c st) as [[a|e|] st1]; cbn [snd] in *; try now exists n1.
  destruct (Hk a st1) as [n2 H2]. exists (n1 ++ n2).
  now rewrite H2, H1, app_assoc.
Qed.

Lemma grows_call (A : Type) (ev : reply A -> event) (f : W -> reply A * W) :
  grows (call ev f).
Proof.
  intros st. unfold call. destruct (f (env st)) as [r w]. now eexists.
Qed.

Lemma grows_lift (A : Type) (c : io W foreign A) : grows c -> grows (lift c).
Proof.
  intros Hc st. unfold lift. destruct (Hc st) as [n H].
  destruct (c st) as [[a|e|] st1]; now exists n.
Qed.

Lemma grows_try_except (A : Type) (body : io W foreign A)
  (handler : str -> io W error A) :
  grows body -> (forall e, grows (handler e)) ->
  grows (try_except body handler).
Proof.
  intros Hb Hh st. unfold try_except. destruct (Hb st) as [n1 H1].
  destruct (body st) as [[a|e|] st1]; cbn [snd] in *; try now exists n1.
  destruct (is_exception e); [|now exists n1].
  destruct (Hh (message e) st1) as [n2 H2]. exists (n1 ++ n2).
  now rewrite H2, H1, app_assoc.
Qed.

Lemma grows_for_each (A : Type) (xs : list A) (body : A -> io W error unit) :
  (forall x, grows (body x)) -> grows (for_each xs body).
Proof.
  intros H. induction xs as [|x xs IH]; cbn [for_each].
  - apply grows_ret.
  - apply grows_bind; [apply H | now intros _].
Qed.

Ltac grow_step :=
  first
    [ apply grows_ret
    | apply grows_raise
    | apply grows_call
    | apply grows_lift
    | apply grows_bind; [|intros]
    | apply grows_try_except; [|intros]
    | apply grows_for_each; intros
    | match goal with
      | |- grows (match ?x with _ => _ end) => destruct x
      end ].

Ltac grow := repeat grow_step.

Lemma grows_run_applescript (script : str) :
  grows (run_applescript subprocess_run console_print script).
Proof. unfold run_applescript, run, print. grow. Qed.

Lemma grows_prompt_int (rounds : nat) (prompt : str) (min_val max_val : Z) :
  grows (prompt_int console_print builtin_input isdigit int rounds prompt
           min_val max_val).
Proof.
  induction rounds as [|rounds IH]; cbn [prompt_int].
  - intros st. exists []. cbn. now rewrite app_nil_r.
  - unfold input, print. grow. exact IH.
Qed.

Lemma grows_index (folders : list str) (src_idx : Z) :
  grows (index (W := W) folders src_idx).
Proof. unfold index. grow. Qed.

Lemma grows_rendered (md_text : str) :
  grows (rendered (W := W) to_upper_full tabulate parse md_text).
Proof.
  unfold rendered.
  destruct (Raising.markdown_to_plain_text _ _ _ _) as [text|[e|f]];
    [apply grows_ret | apply grows_raise | apply grows_raise].
Qed.

Lemma grows_enhance_note (folders : list str) (src_idx : Z)
  (dest_folder_name note_name : str) :
  grows (enhance_note subprocess_run console_print to_upper_full tabulate
           parse folders src_idx dest_folder_name note_name).
Proof.
  unfold enhance_note, get_note_body, create_note_in_folder_html,
    enhance_text_with_perplexity, run, print.
  repeat first
    [ apply grows_run_applescript | apply grows_index | apply grows_rendered
    | grow_step ].
Qed.

Lemma prints_only_banner :
  prints_only
    (bind (print_banner console_print)
       (fun _ =>
          lift (print console_print
                  [lit "Fetching Apple Notes folders..." ++ [LF]]
                  (Some (lit "yellow"))))).
Proof.
  intros st. unfold print_banner, bind, print. rewrite !lift_call.
  repeat match goal with
         | |- context [match fst (console_print ?o ?s ?w) with _ => _ end] =>
             destruct (fst (console_print o s w)) as [[]|]
         | |- context [lift (call _ _) _] => rewrite lift_call
         end;
    cbn [snd trace env]; rewrite <- ?app_assoc; cbn [app];
    eexists; (split; [reflexivity | reflexivity]).
Qed.

(** The record of [list_folders], and what came back from [osascript] when
    it returns folders. *)
Lemma list_folders_record (st : state W) :
  exists r prints,
    trace (snd (list_folders subprocess_run console_print st))
    = trace st
      ++ Run [lit "osascript"; lit "-e"; list_folders_script] None r :: prints
    /\ forallb is_print prints = true
    /\ forall first others,
         fst (list_folders subprocess_run console_print st)
         = Ok (first :: others) ->
         exists p,
           r = Done p /\ returncode p = 0%Z
           /\ unique_folders (strip (stdout p)) = first :: others.
Proof.
  unfold list_folders, run_applescript, bind, run, print.
  rewrite lift_call. cbn [env trace].
  destruct (subprocess_run _ None (env st)) as [[p|e] w]; cbn [fst snd].
  - destruct (returncode p =? 0)%Z eqn:Erc; cbn [negb].
    + apply Z.eqb_eq in Erc.
      destruct (strip (stdout p)) as [|c s] eqn:Es; cbn [fst snd trace];
        eexists _, []; (split; [reflexivity|split; [reflexivity|]]);
        intros first others [= H].
      exists p. rewrite Es. now repeat split.
    + rewrite lift_call. cbn [env trace].
      destruct (fst (console_print _ None w)) as [[]|e];
        cbn [fst snd trace]; rewrite <- app_assoc;
        eexists _, [_]; (split; [reflexivity|split; [reflexivity|]]);
        intros first others [=].
  - eexists _, []. split; [reflexivity|split; [reflexivity|]].
    intros first others [=].
Qed.

(** X20. [main] reads a line from the user only if the folders were
    listed before and there is one: in the record of a run in which a line
    was read, the first call that is no print is the script that lists the
    folders, and it came back with return code 0 and an output that holds a
    folder name. *)
Theorem main_asks_only_after_folders (rounds : nat) (st st' : state W)
  (out : outcome error unit) (prompt : str) (r : reply str) :
  main subprocess_run console_print builtin_input isdigit int to_upper_full
    tabulate parse rounds st = (out, st') ->
  In (Input prompt r) (skipn (List.length (trace st)) (trace st')) ->
  exists before p after,
    skipn (List.length (trace st)) (trace st')
    = before
      ++ Run [lit "osascript"; lit "-e"; list_folders_script] None
           (Done p) :: after
    /\ forallb is_print before = true
    /\ returncode p = 0%Z
    /\ unique_folders (strip (stdout p)) <> [].
Proof.
  unfold main.
  set (rest := fun folders : list str => match folders with
                                         | [] => _
                                         | _ :: _ => _
                                         end).
  assert (Hshape :
    bind (print_banner console_print)
      (fun _ =>
         bind (lift (print console_print
                       [lit "Fetching Apple Notes folders..." ++ [LF]]
                       (Some (lit "yellow"))))
           (fun _ => bind (list_folders subprocess_run console_print) rest))
      st
    = bind
        (bind (print_banner console_print)
           (fun _ =>
              lift (print console_print
                      [lit "Fetching Apple Notes folders..." ++ [LF]]
                      (Some (lit "yellow")))))
        (fun _ => bind (list_folders subprocess_run console_print) rest) st).
  { unfold bind. destruct (print_banner console_print st) as [[[]|e|] st1];
      reflexivity. }
  rewrite Hshape. clear Hshape.
  unfold bind at 1.
  destruct (prints_only_banner st) as (n1 & H1 & Hp1).
  destruct (bind (print_banner console_print) _ st) as [[[]|e|] st1];
    cbn [snd] in H1.
  2, 3: intros [= _ <-];
    rewrite H1, skipn_app, skipn_all, Nat.sub_diag; cbn [skipn app];
    intros Hin; apply (@among_prints _ _ Hp1) in Hin; discriminate Hin.
  unfold bind at 1.
  destruct (list_folders_record st1) as (r1 & prints & H2 & Hp2 & Hfolders).
  destruct (list_folders subprocess_run console_print st1)
    as [[folders|e|] st2]; cbn [fst snd] in H2, Hfolders.
  2, 3: intros [= _ <-];
    rewrite H2, H1, <- app_assoc, skipn_app, skipn_all, Nat.sub_diag;
    cbn [skipn app]; intros Hin;
    apply in_app_iff in Hin as [Hin|[Hin|Hin]];
    [ apply (@among_prints _ _ Hp1) in Hin; discriminate Hin
    | discriminate Hin
    | apply (@among_prints _ _ Hp2) in Hin; discriminate Hin ].
  destruct folders as [|first others].
  - unfold rest, print. rewrite lift_call. intros [= _ <-]. cbn [trace].
    rewrite H2, H1, <- !app_assoc, skipn_app, skipn_all, Nat.sub_diag.
    cbn [skipn app]. intros Hin.
    apply in_app_iff in Hin as [Hin|[Hin|Hin]];
      [ apply (@among_prints _ _ Hp1) in Hin; discriminate Hin
      | discriminate Hin |].
    apply in_app_iff in Hin as [Hin|[Hin|[]]];
      [ apply (@among_prints _ _ Hp2) in Hin; discriminate Hin
      | discriminate Hin ].
  - destruct (Hfolders first others eq_refl) as (p & -> & Hrc & Hnames).
    assert (Hrest : grows (rest (first :: others))).
    { unfold rest. cbv zeta.
      unfold list_notes_in_folder, input, print.
      repeat first
        [ apply grows_prompt_int | apply grows_run_applescript
        | apply grows_index | apply grows_enhance_note | grow_step ]. }
    destruct (Hrest st2) as [n3 H3]. intros Hmain _.
    rewrite Hmain in H3. cbn [snd] in H3.
    exists n1, p, (prints ++ n3).
    rewrite H3, H2, H1, <- !app_assoc, skipn_app, skipn_all, Nat.sub_diag.
    cbn [skipn app]. repeat split; try assumption.
    rewrite Hnames. discriminate.
Qed.
End Calls.

Lemma list_folders_returns_clean_names_witness :
  let folders := [lit "Notes"; lit "Work"] in
  NoDup folders
  /\ Forall (fun f =>
       f <> [] /\ space_first f = false /\ space_first (rev f) = false
       /\ count_char COMMA f = 0) folders.
Proof.
  apply (@list_folders_returns_clean_names (list str)
           (answering (lit "Notes, Work,Notes" ++ [LF])) shown
           {| env := []; trace := [] |}
           (snd (list_folders (answering (lit "Notes, Work,Notes" ++ [LF]))
                   shown {| env := []; trace := [] |}))).
  vm_compute. reflexivity.
Defined.

Lemma list_notes_in_folder_returns_trimmed_names_witness :
  Forall (fun n =>
    space_first n = false /\ space_first (rev n) = false
    /\ count_char COMMA n = 0) [lit "Milk"; []; lit "Rent"].
Proof.
  apply (@list_notes_in_folder_returns_trimmed_names (list str)
           (answering (lit "Milk,, Rent" ++ [LF])) shown (lit "Notes")
           {| env := []; trace := [] |}
           (snd (list_notes_in_folder
                   (answering (lit "Milk,, Rent" ++ [LF])) shown (lit "Notes")
                   {| env := []; trace := [] |}))).
  vm_compute. reflexivity.
Defined.

Lemma prompt_int_returns_accepted_number_witness :
  let prompt := lit "Number: " in
  let st := {| env := [lit "x"; lit "7"; lit " 2 "; lit "1"]; trace := [] |} in
  let st' := snd (prompt_int shown typed isdigit_ascii int_ascii 5 prompt
                    1 3 st) in
  exists (rejected : list str) (line : str),
    List.length rejected < 5
    /\ trace st'
       = trace st
         ++ flat_map
              (fun l => [Input prompt (Done l);
                         Print [invalid_input 1 3] None (Done tt)])
              rejected
         ++ [Input prompt (Done line)]
    /\ Forall
         (fun l =>
            isdigit_ascii (strip l) = false
            \/ exists n, int_ascii (strip l) = Some n
                         /\ in_range 1 3 n = false) rejected
    /\ isdigit_ascii (strip line) = true
    /\ int_ascii (strip line) = Some 2%Z
    /\ (1 <= 2 <= 3)%Z.
Proof.
  apply (@prompt_int_returns_accepted_number (list str) shown typed
           isdigit_ascii int_ascii 5 (lit "Number: ") 1 3
           {| env := [lit "x"; lit "7"; lit " 2 "; lit "1"]; trace := [] |}).
  vm_compute. reflexivity.
Defined.

Lemma perplexity_exceptions_are_caught_witness :
  let e := Foreign {| is_exception := false; message := [] |} in
  let st' := snd (enhance_text_with_perplexity interrupted shown
                    (lit "Buy milk") {| env := []; trace := [] |}) in
  exists f,
    e = Foreign f
    /\ (is_exception f = false
        \/ exists before what,
             trace st'
             = before
               ++ [Print [lit "[red]Error running Perplexity CLI:[/] " ++ what]
                     None (Failed f)]).
Proof.
  apply (@perplexity_exceptions_are_caught (list str) interrupted shown
           (lit "Buy milk") {| env := []; trace := [] |}).
  vm_compute. reflexivity.
Defined.

Lemma saved_message_follows_any_creation_witness :
  let st' := snd (enhance_note read_only shown to_upper_full_latin1
                    (returning2 no_tables) (returning one_text)
                    [lit "Notes"] 0 (lit "Done") (lit "Milk")
                    {| env := []; trace := [] |}) in
  exists before,
    trace st'
    = before
      ++ [Print
            [lit "  Note '" ++ lit "Milk" ++ lit "' enhanced and saved as '"
             ++ (lit "Enhanced - " ++ lit "Milk") ++ lit "'." ++ [LF]]
            (Some (lit "green")) (Done tt)].
Proof.
  apply (@saved_message_follows_any_creation (list str) read_only shown
           to_upper_full_latin1 (returning2 no_tables) (returning one_text)
           [lit "Notes"] 0 (lit "Done") (lit "Milk")
           {| env := []; trace := [] |}
           (snd (enhance_note read_only shown to_upper_full_latin1
                   (returning2 no_tables) (returning one_text)
                   [lit "Notes"] 0 (lit "Done") (lit "Milk")
                   {| env := []; trace := [] |}))
           (to_html_preserving_newlines (lit "Buy milk"))
           (Done {| returncode := 1; stdout := [];
                    stderr := lit "execution error" |})).
  - vm_compute. reflexivity.
  - vm_compute. do 3 right. left. reflexivity.
Defined.

Lemma main_asks_only_after_folders_witness :
  let st := {| env := [lit "1"; lit "Done"]; trace := [] |} in
  let st' := snd (main (answering (lit "Notes")) shown typed isdigit_ascii
                    int_ascii to_upper_full_latin1 (returning2 no_tables)
                    (returning one_text) 3 st) in
  exists before p after,
    skipn (List.length (trace st)) (trace st')
    = before
      ++ Run [lit "osascript"; lit "-e"; list_folders_script] None
           (Done p) :: after
    /\ forallb is_print before = true
    /\ returncode p = 0%Z
    /\ unique_folders (strip (stdout p)) <> [].
Proof.
  apply (@main_asks_only_after_folders (list str) (answering (lit "Notes"))
           shown typed isdigit_ascii int_ascii to_upper_full_latin1
           (returning2 no_tables) (returning one_text) 3
           {| env := [lit "1"; lit "Done"]; trace := [] |}
           (snd (main (answering (lit "Notes")) shown typed isdigit_ascii
                   int_ascii to_upper_full_latin1 (returning2 no_tables)
                   (returning one_text) 3
                   {| env := [lit "1"; lit "Done"]; trace := [] |}))
           (Ok tt)
           ([LF] ++ lit "Enter source folder number to process (1-"
            ++ str_of_int 1 ++ lit "): ")
           (Done (lit "1"))).
  - vm_compute. reflexivity.
  - vm_compute. do 10 right. left. reflexivity.
Defined.
